(** * MongoShake collector: a shallow embedding of the replication coordinator,
    the oplog syncer and the document syncer, with the properties checked
    against the specification.

    Conventions of the embedding:
    - [bson.MongoTimestamp] and [int64] are [Z]; the sources only compare
      timestamps and subtract small constants, so no wrap-around occurs in the
      modelled fragments (the one [uint64] counter, [nextQueuePosition], wraps
      explicitly);
    - a Go [error] is an [option] of an error value, [None] being [nil];
    - a channel is the FIFO list of the values it holds;
    - calls into packages that are not part of the sources (the reader, the
      batcher, the checkpoint manager, [utils]) are inputs of the model:
      oracles of the environment or [Variable]s of a [Section]. *)

From Stdlib Require Import ZArith Lia List Bool.
From stdpp Require Import base gmap strings list pretty.

Local Open Scope Z_scope.

(** ** utils *)

Module Utils.

(** [utils.TimestampNode]: the oldest and the newest journal timestamp of
    one source. *)
Record TimestampNode := { Oldest : Z; Newest : Z }.

(** Modelled from the spec: [utils.ExtractMongoTimestamp] is not among the
    sources. Section 3 of the specification: the high 32 bits of a logical
    timestamp are seconds since epoch, the low 32 bits a counter. The
    callers in the sources use its result as seconds. *)
Definition ExtractMongoTimestamp (ts : Z) : Z := Z.shiftr ts 32.

(** Modelled from the spec: [utils.TimestampToInt64] is not among the
    sources; a timestamp is a 64-bit ordinal, the conversion keeps it. *)
Definition TimestampToInt64 (ts : Z) : Z := ts.

(** What a successful [utils.GetAllTimestamp] returns, by position: the
    map from replica-set name to timestamps, then four timestamps. *)
Record AllTimestamp := {
  tsMap : gmap string TimestampNode;
  ts2 : Z;
  ts3 : Z;
  ts4 : Z;
  ts5 : Z
}.



End Utils.

(** ** collector/replication.go *)

Module Coordinator.
Import Utils.

Definition SYNCMODE_ALL : string := "all".
Definition SYNCMODE_DOCUMENT : string := "document".
Definition SYNCMODE_OPLOG : string := "oplog".

(** The errors [Run] can return. [Opaque] stands for an error built by a
    collaborator. *)
Inductive error :=
| Opaque (msg : string)
| FullFinishTimestampFailed (cause : error)
| OldestOplogLost (fullBeginTs oldestTs : Z)
| UnknownSyncMode (mode : string).

(** The loop of [selectSyncMode] over [tsMap], in one iteration order;
    [ckptTs replName] is
    [ckpt.NewCheckpointManager(replName, 0).Get().Timestamp], the stored
    checkpoint of the source (the manager is taken to give one). *)
Fixpoint needFull_loop (ckptTs : string → Z)
    (entries : list (string * TimestampNode)) : bool :=
  match entries with
  | [] => false
  | (replName, ts) :: rest =>
      if Oldest ts >=? ckptTs replName then true
      else needFull_loop ckptTs rest
  end.

Definition selectSyncMode (ckptTs : string → Z)
    (got : error + AllTimestamp) (syncMode : string)
    : string * Z * option error :=
  if negb (String.eqb syncMode SYNCMODE_ALL) then (syncMode, 0, None)
  else
    match got with
    | inl _ => (syncMode, 0, None)
    | inr r =>
        let oldestTs := ts3 r in
        let needFull := needFull_loop ckptTs (map_to_list (tsMap r)) in
        if needFull then (SYNCMODE_ALL, TimestampToInt64 oldestTs, None)
        else (SYNCMODE_OPLOG, 0, None)
    end.

(** What [Run] starts, in order. *)
Inductive action :=
| DocumentReplication
| OplogReplication (oplogStartPosition fullSyncFinishPosition : Z).

(** The environment of one [Run]: the configuration it reads and the
    answers of the calls it makes. *)
Record Env := {
  sanitizeMongoDB : option error;
  SyncMode : string;
  ContextStartPosition : Z;
  ckptTs : string → Z;
  (* the GetAllTimestamp call of selectSyncMode *)
  timestampsAtSelect : error + AllTimestamp;
  startDocumentReplication : option error;
  (* the GetAllTimestamp call of Run, after the full sync *)
  timestampsAfterFull : error + AllTimestamp;
  startOplogReplication : Z → Z → option error
}.

Definition Run (env : Env) : list action * option error :=
  match sanitizeMongoDB env with
  | Some err => ([], Some err)
  | None =>
    match selectSyncMode (ckptTs env) (timestampsAtSelect env) (SyncMode env) with
    | (_, _, Some err) => ([], Some err)
    | (syncMode, fullBeginTs, None) =>
      if String.eqb syncMode SYNCMODE_ALL then
        match startDocumentReplication env with
        | Some err => ([DocumentReplication], Some err)
        | None =>
          match timestampsAfterFull env with
          | inl err => ([DocumentReplication], Some (FullFinishTimestampFailed err))
          | inr r =>
            let fullFinishTs := ts2 r in
            let oldestTs := ts4 r in
            if ExtractMongoTimestamp oldestTs >=? fullBeginTs then
              ([DocumentReplication], Some (OldestOplogLost fullBeginTs oldestTs))
            else
              let start := OplogReplication fullBeginTs (TimestampToInt64 fullFinishTs) in
              match startOplogReplication env fullBeginTs (TimestampToInt64 fullFinishTs) with
              | Some err => ([DocumentReplication; start], Some err)
              | None => ([DocumentReplication; start], None)
              end
          end
        end
      else if String.eqb syncMode SYNCMODE_DOCUMENT then
        match startDocumentReplication env with
        | Some err => ([DocumentReplication], Some err)
        | None => ([DocumentReplication], None)
        end
      else if String.eqb syncMode SYNCMODE_OPLOG then
        let start := OplogReplication (ContextStartPosition env) (ContextStartPosition env) in
        match startOplogReplication env (ContextStartPosition env) (ContextStartPosition env) with
        | Some err => ([start], Some err)
        | None => ([start], None)
        end
      else ([], Some (UnknownSyncMode (SyncMode env)))
    end
  end.

End Coordinator.

(** ** bson and oplog values *)

Module Bson.

(** [bson.Raw]: one undecoded document. *)
Record Raw := { Data : list Byte.byte }.

End Bson.

Module Oplog.

(** [oplog.PartialLog], with the fields the collector reads or writes. *)
Record PartialLog := { Timestamp : Z; RawSize : Z }.

Definition set_RawSize (n : Z) (log : PartialLog) : PartialLog :=
  {| Timestamp := Timestamp log; RawSize := n |}.

(** [oplog.GenericOplog]: the raw bytes and their parsed view. *)
Record GenericOplog := { Raw : list Byte.byte; Parsed : PartialLog }.

End Oplog.

(** ** collector/syncer.go *)

Module Syncer.
Import Utils Bson Oplog.

Definition PipelineQueueMaxNr : Z := 4.
Definition PipelineQueueMinNr : Z := 1.
Definition PipelineQueueLen : Z := 64.

Definition DurationTime : Z := 6000.
Definition DDLCheckpointInterval : Z := 300.
Definition FilterCheckpointGap : Z := 180.
Definition FilterCheckpointCheckInterval : Z := 180.

(** [time.Second], wall time being counted in nanoseconds. *)
Definition Second : Z := 1000000000.

(** The part of [conf.Options] the syncer reads. *)
Record Options := {
  FetcherBufferCapacity : Z;
  WorkerNum : Z;
  IsShardCluster : bool
}.

(** Calls into collaborators that are not part of the sources, recorded in
    the order they are made. *)
Inductive Call :=
| CallYieldInMs (ms : Z)
| CallDelayFor (ms : Z)
| CallSetQueryTimestampOnEmpty (ts : Z)
| CallStartFetcher
| CallCheckpoint (flush : bool) (inputTs : Z)
| CallUpdateQueryTimestamp (ts : Z)
| CallSetLSN (lsn : Z)
| CallDispatchBatches.

(** *** The fetching side: [poll], [next], [transfer], [deserializer] *)

(** The fields of [OplogSyncer] the fetching side touches. A channel holds
    the list of batches sent and not yet received; a send that would block
    on a full channel is modelled at the moment it completes. *)
Record OplogSyncer := {
  buffer : list Bson.Raw;
  pendingQueue : list (list (list Bson.Raw));
  logsQueue : list (list (list GenericOplog));
  nextQueuePosition : Z;
  (* replMetric: the number of entries got, and the FetchBad status bit *)
  logsGet : Z;
  fetchBad : bool;
  calls : list Call
}.

Definition set_buffer (b : list Bson.Raw) (sync : OplogSyncer) : OplogSyncer :=
  {| buffer := b; pendingQueue := pendingQueue sync; logsQueue := logsQueue sync;
     nextQueuePosition := nextQueuePosition sync; logsGet := logsGet sync;
     fetchBad := fetchBad sync; calls := calls sync |}.

Definition set_pendingQueue (q : list (list (list Bson.Raw))) (sync : OplogSyncer) : OplogSyncer :=
  {| buffer := buffer sync; pendingQueue := q; logsQueue := logsQueue sync;
     nextQueuePosition := nextQueuePosition sync; logsGet := logsGet sync;
     fetchBad := fetchBad sync; calls := calls sync |}.

Definition set_logsQueue (q : list (list (list GenericOplog))) (sync : OplogSyncer) : OplogSyncer :=
  {| buffer := buffer sync; pendingQueue := pendingQueue sync; logsQueue := q;
     nextQueuePosition := nextQueuePosition sync; logsGet := logsGet sync;
     fetchBad := fetchBad sync; calls := calls sync |}.

Definition set_nextQueuePosition (n : Z) (sync : OplogSyncer) : OplogSyncer :=
  {| buffer := buffer sync; pendingQueue := pendingQueue sync; logsQueue := logsQueue sync;
     nextQueuePosition := n; logsGet := logsGet sync;
     fetchBad := fetchBad sync; calls := calls sync |}.

Definition set_logsGet (n : Z) (sync : OplogSyncer) : OplogSyncer :=
  {| buffer := buffer sync; pendingQueue := pendingQueue sync; logsQueue := logsQueue sync;
     nextQueuePosition := nextQueuePosition sync; logsGet := n;
     fetchBad := fetchBad sync; calls := calls sync |}.

Definition set_fetchBad (b : bool) (sync : OplogSyncer) : OplogSyncer :=
  {| buffer := buffer sync; pendingQueue := pendingQueue sync; logsQueue := logsQueue sync;
     nextQueuePosition := nextQueuePosition sync; logsGet := logsGet sync;
     fetchBad := b; calls := calls sync |}.

Definition call (c : Call) (sync : OplogSyncer) : OplogSyncer :=
  {| buffer := buffer sync; pendingQueue := pendingQueue sync; logsQueue := logsQueue sync;
     nextQueuePosition := nextQueuePosition sync; logsGet := logsGet sync;
     fetchBad := fetchBad sync; calls := calls sync ++ [c] |}.

(** The errors of [OplogReader.Next]. *)
Inductive ReaderError :=
| CollectionCappedError
| TimeoutError
| OtherError (msg : string).

Definition is_capped (err : option ReaderError) : bool :=
  match err with Some CollectionCappedError => true | _ => false end.

Definition is_timeout (err : option ReaderError) : bool :=
  match err with Some TimeoutError => true | _ => false end.

Definition is_nil (err : option ReaderError) : bool :=
  match err with None => true | _ => false end.

(** The wrap-around of the [uint64] counter. *)
Definition uint64_wrap (n : Z) : Z := n mod 2 ^ 64.

Section Fetching.
Variable conf : Options.

Definition calculatePendingQueueConcurrency : Z :=
  if IsShardCluster conf then PipelineQueueMinNr else PipelineQueueMaxNr.

(** [startDeserializer]: one empty pending queue and one empty logs queue
    per partition. *)
Definition startDeserializer (sync : OplogSyncer) : OplogSyncer :=
  let parallel := Z.to_nat calculatePendingQueueConcurrency in
  set_logsQueue (replicate parallel []) (set_pendingQueue (replicate parallel []) sync).

(** [transfer]. [None] is a run-time panic: that of the modulo by
    [len(sync.pendingQueue)] when there is no queue, or, once the buffer is
    sent, that of [make] with a negative [FetcherBufferCapacity]. *)
Definition transfer (log : option Bson.Raw) (sync : OplogSyncer) : option (bool * OplogSyncer) :=
  let flush := match log with Some _ => false | None => true end in
  let sync := match log with
              | Some l => set_buffer (buffer sync ++ [l]) sync
              | None => sync
              end in
  if (Z.of_nat (length (buffer sync)) >=? FetcherBufferCapacity conf)
     || (flush && negb (Nat.eqb (length (buffer sync)) 0))
  then
    match length (pendingQueue sync) with
    | O => None
    | S _ =>
        let selected :=
          Z.to_nat (nextQueuePosition sync mod Z.of_nat (length (pendingQueue sync))) in
        let sync := set_pendingQueue
                      (alter (λ q, q ++ [buffer sync]) selected (pendingQueue sync)) sync in
        if FetcherBufferCapacity conf <? 0 then None
        else
          let sync := set_buffer [] sync in
          let sync := set_nextQueuePosition (uint64_wrap (nextQueuePosition sync + 1)) sync in
          Some (true, sync)
    end
  else Some (false, sync).

(** [next], given what [sync.reader.Next()] answers. *)
Definition next (answer : option Bson.Raw * option ReaderError) (sync : OplogSyncer)
    : option (bool * OplogSyncer) :=
  let '(log, err) := answer in
  match log with
  | Some _ =>
      transfer log (set_fetchBad false (set_logsGet (logsGet sync + 1) sync))
  | None =>
      if is_capped err then Some (false, sync)
      else if negb (is_nil err) && negb (is_timeout err) then
        transfer log (call (CallYieldInMs DurationTime) (set_fetchBad true sync))
      else transfer log sync
  end.

(** The answers of the reader, in order; a reader that has no more of them
    times out. *)
Definition reader_head (reader : list (option Bson.Raw * option ReaderError))
    : option Bson.Raw * option ReaderError :=
  match reader with
  | [] => (None, Some TimeoutError)
  | a :: _ => a
  end.

(** The loop of [poll]: [masters] are the answers of [quorum.IsMaster()],
    [rc] those of the rate controller (it is asked only when the sentinel's
    TPS is not zero). The value [next] returns is dropped, as in the loop. *)
Fixpoint poll_loop (TPS : Z) (masters rc : list bool)
    (reader : list (option Bson.Raw * option ReaderError)) (sync : OplogSyncer)
    : option (OplogSyncer * list (option Bson.Raw * option ReaderError)) :=
  match masters with
  | [] => Some (sync, reader)
  | false :: _ => Some (sync, reader)
  | true :: masters' =>
      if negb (TPS =? 0) && hd false rc then
        poll_loop TPS masters' (tl rc) reader (call (CallDelayFor 100) sync)
      else
        match next (reader_head reader) sync with
        | None => None
        | Some (_, sync') =>
            poll_loop TPS masters' (if TPS =? 0 then rc else tl rc) (tl reader) sync'
        end
  end.


End Fetching.

(** One round of [deserializer(index)]. *)
Inductive DeserializerStep :=
| Blocked
| AssertFailed
| Pushed (sync : OplogSyncer).

Section Deserializing.
(** [bson.Unmarshal] into a fresh [PartialLog]. *)
Variable Unmarshal : list Byte.byte → PartialLog.

Definition deserialize (rawLog : Bson.Raw) : GenericOplog :=
  {| Raw := Data rawLog;
     Parsed := set_RawSize (Z.of_nat (length (Data rawLog))) (Unmarshal (Data rawLog)) |}.

Definition deserializer (index : nat) (sync : OplogSyncer) : DeserializerStep :=
  match pendingQueue sync !! index with
  | None | Some [] => Blocked
  | Some (batchRawLogs :: rest) =>
      if Nat.eqb (length batchRawLogs) 0 then AssertFailed
      else
        let deserializeLogs := map deserialize batchRawLogs in
        Pushed (set_logsQueue
                  (alter (λ q, q ++ [deserializeLogs]) index (logsQueue sync))
                  (set_pendingQueue (<[index := rest]> (pendingQueue sync)) sync))
  end.

End Deserializing.

(** The states of the fetching pipeline of one syncer: [start] creates the
    queues, then [poll] calls [next] (and the delay of the rate control),
    the deserializers take their rounds, and the batcher receives from the
    logs queues. *)
Inductive pipeline (conf : Options) (Unmarshal : list Byte.byte → PartialLog)
    : OplogSyncer → Prop :=
| pipeline_start sync :
    buffer sync = [] → pipeline conf Unmarshal (startDeserializer conf sync)
| pipeline_next sync answer pushed sync' :
    pipeline conf Unmarshal sync →
    next conf answer sync = Some (pushed, sync') →
    pipeline conf Unmarshal sync'
| pipeline_call sync c :
    pipeline conf Unmarshal sync → pipeline conf Unmarshal (call c sync)
| pipeline_deserializer sync index sync' :
    pipeline conf Unmarshal sync →
    deserializer Unmarshal index sync = Pushed sync' →
    pipeline conf Unmarshal sync'
| pipeline_batcher sync index batch rest :
    pipeline conf Unmarshal sync →
    logsQueue sync !! index = Some (batch :: rest) →
    pipeline conf Unmarshal (set_logsQueue (<[index := rest]> (logsQueue sync)) sync).

(** No batch in any queue is empty. *)
Definition no_empty_batch {A} (queues : list (list (list A))) : Prop :=
  Forall (Forall (λ batch, batch ≠ [])) queues.

(** What the pipeline keeps true of a syncer: there is a queue, and no
    queue holds an empty batch. *)
Definition sound_queues (sync : OplogSyncer) : Prop :=
  pendingQueue sync ≠ [] ∧
  no_empty_batch (pendingQueue sync) ∧
  no_empty_batch (logsQueue sync).

(** The rounds the loop of [poll] makes: the leading [true] answers of
    [quorum.IsMaster()]. *)
Fixpoint master_rounds (masters : list bool) : nat :=
  match masters with
  | true :: masters' => S (master_rounds masters')
  | _ => O
  end.

(** The number of entries among the answers of the reader. *)
Definition entries_in (answers : list (option Bson.Raw * option ReaderError)) : Z :=
  Z.of_nat (length (filter (λ a, is_Some a.1) answers)).

(** *** The batching side: [startBatcher], [checkCheckpointUpdate] *)

(** What one round of the batcher loop gets from the batcher, which is not
    part of the sources: the results of [batchMore] and of [getLastOplog]. *)
Record BatchMore := {
  batchedOplog : list (list GenericOplog);
  barrier : bool;
  allEmpty : bool;
  lastOplog : option PartialLog;
  lastFilterOplog : option PartialLog
}.

(** How one round of the loop body ends: it returns, [LOG.Crashf] ends the
    process, or the wait for the checkpoint is still going on when the fuel
    of the model is used up. *)
Inductive Outcome (A : Type) :=
| Done (a : A)
| Crashed
| Spinning.
Arguments Done {A} a.
Arguments Crashed {A}.
Arguments Spinning {A}.

Section Batching.
Variable conf : Options.
(** The world outside the batcher loop: checkpoint store, workers, reader.
    [ckptGet] is [sync.ckptManager.Get().Timestamp]; [perform] is what a
    call into a collaborator does to the world ([sync.checkpoint] is one of
    them: it is not among the sources); [dispatchBatches] also answers
    whether a worker received entries. *)
Variable World : Type.
Variable ckptGet : World → Z.
Variable perform : Call → World → World.
Variable dispatchBatches : list (list GenericOplog) → World → bool * World.

(** The variables the loop closure of [startBatcher] keeps between rounds,
    the world, and the calls made so far. *)
Record BatcherState := {
  world : World;
  filterCheckTs : Z;
  filterFlag : bool;
  made : list Call
}.

Definition do_call (c : Call) (st : BatcherState) : BatcherState :=
  {| world := perform c (world st); filterCheckTs := filterCheckTs st;
     filterFlag := filterFlag st; made := made st ++ [c] |}.

Definition do_dispatch (b : list (list GenericOplog)) (st : BatcherState)
    : bool * BatcherState :=
  let '(worked, w) := dispatchBatches b (world st) in
  (worked, {| world := w; filterCheckTs := filterCheckTs st;
              filterFlag := filterFlag st; made := made st ++ [CallDispatchBatches] |}).

Definition set_filterFlag (b : bool) (st : BatcherState) : BatcherState :=
  {| world := world st; filterCheckTs := filterCheckTs st;
     filterFlag := b; made := made st |}.

Definition set_filterCheckTs (t : Z) (st : BatcherState) : BatcherState :=
  {| world := world st; filterCheckTs := t;
     filterFlag := filterFlag st; made := made st |}.

(** The [for] loop of [checkCheckpointUpdate]; [None] when [fuel] checks
    were not enough. *)
Fixpoint checkpoint_spin (fuel : nat) (newestTs : Z) (st : BatcherState)
    : option BatcherState :=
  match fuel with
  | O => None
  | S fuel' =>
      let checkpointTs := ckptGet (world st) in
      if checkpointTs >=? newestTs then Some st
      else
        checkpoint_spin fuel' newestTs
          (do_call (CallCheckpoint true 0) (do_call (CallYieldInMs DDLCheckpointInterval) st))
  end.

Definition checkCheckpointUpdate (fuel : nat) (barrier : bool) (newestTs : Z)
    (st : BatcherState) : option BatcherState :=
  if barrier && (newestTs >? 0) && (WorkerNum conf >? 1)
  then checkpoint_spin fuel newestTs st
  else Some st.

Definition of_spin (r : option BatcherState) : Outcome BatcherState :=
  match r with
  | Some st => Done st
  | None => Spinning
  end.

(** The filtered-only branch of the loop body, from [now := time.Now()]
    on; [log] is the last accepted entry, if any. *)
Definition filtered_round (fuel : nat) (log : option PartialLog)
    (filterLog : PartialLog) (now : Z) (st : BatcherState) : Outcome BatcherState :=
  if negb (filterFlag st) then
    Done (set_filterCheckTs now (set_filterFlag true st))
  else if negb (now >? filterCheckTs st + FilterCheckpointCheckInterval * Second) then
    Done st
  else
    let checkpointTs := ExtractMongoTimestamp (ckptGet (world st)) in
    let filterNewestTs := ExtractMongoTimestamp (Timestamp filterLog) in
    if filterNewestTs - FilterCheckpointGap >? checkpointTs then
      let newestTs := Timestamp filterLog in
      let st := set_filterFlag false st in
      match log with
      | Some log =>
          if newestTs <=? Timestamp log then Crashed
          else
            match checkCheckpointUpdate fuel true (Timestamp log) st with
            | None => Spinning
            | Some st =>
                Done (do_call (CallCheckpoint false newestTs)
                        (do_call (CallUpdateQueryTimestamp newestTs) st))
            end
      | None =>
          Done (do_call (CallCheckpoint false newestTs)
                  (do_call (CallUpdateQueryTimestamp newestTs) st))
      end
    else Done st.

(** One round of the loop body of [startBatcher] ([now] is read only in
    the filtered-only branch). *)
Definition batcher_round (fuel : nat) (bm : BatchMore) (now : Z)
    (st : BatcherState) : Outcome BatcherState :=
  match lastOplog bm, allEmpty bm with
  | Some log, false =>
      let newestTs := Timestamp log in
      let '(worked, st) := do_dispatch (batchedOplog bm) st in
      let st := if worked
                then do_call (CallUpdateQueryTimestamp newestTs)
                       (do_call (CallSetLSN (TimestampToInt64 newestTs)) st)
                else st in
      let st := set_filterFlag false st in
      let st := do_call (CallCheckpoint (barrier bm) 0) st in
      of_spin (checkCheckpointUpdate fuel (barrier bm) newestTs st)
  | log, _ =>
      match lastFilterOplog bm with
      | None => Done st
      | Some filterLog => filtered_round fuel log filterLog now st
      end
  end.

(** One turn of the loop of [checkCheckpointUpdate] after a failed check:
    the sleep, then the re-flush. *)
Definition reflush (st : BatcherState) : BatcherState :=
  do_call (CallCheckpoint true 0) (do_call (CallYieldInMs DDLCheckpointInterval) st).

(** A round that started in [st] has returned, and the last thing it did
    was [sync.checkpoint(false, ts)]. *)
Definition pushes_checkpoint (st : BatcherState) (ts : Z)
    (out : Outcome BatcherState) : Prop :=
  ∃ st' before, out = Done st' ∧
    made st' = made st ++ before ++ [CallCheckpoint false ts].

End Batching.

End Syncer.

(** ** collector/docsyncer *)

Module DocSyncer.
Import Bson.

(** [utils.NS] *)
Record NS := { Database : string; Collection : string }.

(** The errors the document syncer builds; [Opaque] is an error of a
    collaborator (connection, driver). *)
Inductive Error :=
| Opaque (msg : string)
| InsertDocsFailed (count : nat) (ns : NS) (cause : Error)
| SyncNsFailed (ns : NS) (cause : Error)
| DocumentSyncerFailed (ns toNS : NS) (cause : Error).

(** *** [DocExecutor] and [CollectionExecutor] *)

(** A [DocExecutor]: its [error] field, and the batch its loop has received
    from the channel and not yet finished ([None] while it waits on the
    channel). *)
Record DocExecutor := {
  error : option Error;
  holding : option (list Raw)
}.

(** A [CollectionExecutor]: [wg] is the counter of the wait group,
    [docBatch] the content of the channel and [capacity] its size;
    [inserts] are the batches handed to the destination's [Insert], in
    order. *)
Record CollectionExecutor := {
  ns : NS;
  executors : list DocExecutor;
  wg : Z;
  docBatch : list (list Raw);
  capacity : nat;
  inserts : list (list Raw)
}.

(** [NewCollectionExecutor] followed by [Start], once the connection is
    made: [parallel] is [conf.Options.ReplayerDocumentParallel]. *)
Definition Start (toNS : NS) (parallel : nat) : CollectionExecutor :=
  {| ns := toNS;
     executors := replicate parallel {| error := None; holding := None |};
     wg := 0; docBatch := []; capacity := parallel; inserts := [] |}.

(** [Sync]. [None]: the send on the channel cannot complete in this state
    (the channel is full), the caller stays blocked in [Sync]. *)
Definition Sync (docs : list Raw) (ce : CollectionExecutor) : option CollectionExecutor :=
  let count := length docs in
  if Nat.eqb count 0 then Some ce
  else if Nat.ltb (length (docBatch ce)) (capacity ce) then
    Some {| ns := ns ce; executors := executors ce; wg := wg ce + 1;
            docBatch := docBatch ce ++ [docs]; capacity := capacity ce;
            inserts := inserts ce |}
  else None.

(** The loop of [Wait] over the executors. *)
Fixpoint first_error (toNS : NS) (execs : list DocExecutor) : option Error :=
  match execs with
  | [] => None
  | exec :: rest =>
      match error exec with
      | Some e => Some (SyncNsFailed toNS e)
      | None => first_error toNS rest
      end
  end.

(** [Wait]. [None]: [wg.Wait()] blocks in this state. *)
Definition Wait (ce : CollectionExecutor) : option (option Error) :=
  if wg ce =? 0 then Some (first_error (ns ce) (executors ce)) else None.

Section Executors.
(** The destination's multi-insert. *)
Variable Insert : list Raw → option Error.

Definition doSync (toNS : NS) (docs : list Raw) : option Error :=
  if Nat.eqb (length docs) 0 then None
  else
    match Insert docs with
    | Some err => Some (InsertDocsFailed (length docs) toNS err)
    | None => None
    end.

(** The loop of [DocExecutor.start], first half: executor [i] receives the
    batch at the head of the channel. *)
Definition exec_receive (i : nat) (ce : CollectionExecutor) : option CollectionExecutor :=
  match executors ce !! i, docBatch ce with
  | Some {| error := e; holding := None |}, docs :: rest =>
      Some {| ns := ns ce;
              executors := <[i := {| error := e; holding := Some docs |}]> (executors ce);
              wg := wg ce; docBatch := rest; capacity := capacity ce;
              inserts := inserts ce |}
  | _, _ => None
  end.

(** Second half: executor [i] handles the batch it holds and calls
    [wg.Done()]. *)
Definition exec_handle (i : nat) (ce : CollectionExecutor) : option CollectionExecutor :=
  match executors ce !! i with
  | Some {| error := e; holding := Some docs |} =>
      let '(e', ins) :=
        match e with
        | None =>
            (doSync (ns ce) docs,
             if Nat.eqb (length docs) 0 then inserts ce else inserts ce ++ [docs])
        | Some _ => (e, inserts ce)
        end in
      Some {| ns := ns ce;
              executors := <[i := {| error := e'; holding := None |}]> (executors ce);
              wg := wg ce - 1; docBatch := docBatch ce; capacity := capacity ce;
              inserts := ins |}
  | _ => None
  end.

(** One step of some executor. *)
Inductive exec_step (ce ce' : CollectionExecutor) : Prop :=
| step_receive (i : nat) (H : exec_receive i ce = Some ce')
| step_handle (i : nat) (H : exec_handle i ce = Some ce').

(** The states a collection executor goes through between [Start] and
    [Wait]: its owner calls [Sync], the executors take their steps. *)
Inductive reachable (toNS : NS) (parallel : nat) : CollectionExecutor → Prop :=
| reach_Start : reachable toNS parallel (Start toNS parallel)
| reach_Sync ce docs ce' :
    reachable toNS parallel ce → Sync docs ce = Some ce' → reachable toNS parallel ce'
| reach_step ce ce' :
    reachable toNS parallel ce → exec_step ce ce' → reachable toNS parallel ce'.

(** The work left to the executors: two steps for a batch in the channel,
    one for a batch an executor holds. *)
Definition holds (exec : DocExecutor) : nat :=
  match holding exec with Some _ => 1 | None => 0 end.

Definition held (execs : list DocExecutor) : nat := sum_list (holds <$> execs).


(** What holds of every state between [Start] and [Wait]: there are
    [parallel] executors and a channel of that size, and the counter of the
    wait group counts the batches in the channel and in the executors'
    hands. *)
Definition consistent (parallel : nat) (ce : CollectionExecutor) : Prop :=
  length (executors ce) = parallel ∧
  capacity ce = parallel ∧
  (length (docBatch ce) ≤ capacity ce)%nat ∧
  wg ce = Z.of_nat (length (docBatch ce) + held (executors ce)).

End Executors.

(** *** [DBSyncer.Start] *)

Inductive StartOutcome :=
| Returned (syncError : option Error) (synced : list NS)
| Hangs
| Panics.

Section DBSyncer.
(** [syncer.nsTrans.Transform] on namespaces, and what [collectionSync]
    returns for a namespace. *)
Variable Transform : NS → NS.
Variable collectionSync : NS → NS → option Error.

(** The body of a worker's loop for one namespace: the shared [syncError]
    and the namespaces synced so far. *)
Definition sync_namespace (acc : option Error * list NS) (n : NS)
    : option Error * list NS :=
  let '(syncError, synced) := acc in
  let toNS := Transform n in
  match collectionSync n toNS with
  | Some err => (Some (DocumentSyncerFailed n toNS err), synced ++ [n])
  | None => (syncError, synced ++ [n])
  end.

(** [DBSyncer.Start]. [getDbNamespace] is the answer of the call of that
    name, [collExecutorParallel] the option
    [ReplayerCollectionParallel]. [finished] lists the namespaces in the
    order in which the workers come back from [collectionSync]: one of the
    orders of [nsList], and [nsList] itself when there is one worker. With
    no worker nobody calls [wg.Done()], and a negative channel size makes
    [make] panic. *)
Definition Start_DBSyncer (collExecutorParallel : Z)
    (getDbNamespace : Error + list NS) (finished : list NS) : StartOutcome :=
  match getDbNamespace with
  | inl err => Returned (Some err) []
  | inr nsList =>
      if collExecutorParallel <? 0 then Panics
      else if (collExecutorParallel =? 0) && negb (Nat.eqb (length nsList) 0) then Hangs
      else
        let '(syncError, synced) := fold_left sync_namespace finished (None, []) in
        Returned syncError synced
  end.

(** The failures among [finished], in order. *)
Definition failures (finished : list NS) : list Error :=
  omap (λ n, DocumentSyncerFailed n (Transform n) <$> collectionSync n (Transform n)) finished.

End DBSyncer.

End DocSyncer.


(** ** Measures of the fetching pipeline *)

Module Pipeline.
Import Bson Oplog Syncer.

(** The raw bytes that partition [i] holds, oldest batch first: the parsed
    batches of its logs queue, then the raw batches of its pending queue. *)
Definition partition_bytes (i : nat) (sync : OplogSyncer)
    : list (list (list Byte.byte)) :=
  map (map Raw) (default [] (logsQueue sync !! i))
  ++ map (map Data) (default [] (pendingQueue sync !! i)).

(** The number of entries a list of queues holds. *)
Definition queued {A} (queues : list (list (list A))) : nat :=
  sum_list (map (λ queue, sum_list (map length queue)) queues).

(** The entries fetched and not yet handed to a deserializer: those of the
    buffer and of the pending queues. *)
Definition fetched_entries (sync : OplogSyncer) : nat :=
  (length (buffer sync) + queued (pendingQueue sync))%nat.

(** No batch of the queues is longer than [n]. *)
Definition batches_within {A} (n : Z) (queues : list (list (list A))) : Prop :=
  Forall (Forall (λ batch, Z.of_nat (length batch) ≤ n)) queues.

(** A call of [next] that returns, and a round of a deserializer that
    pushes, as steps of a run: the syncer they leave (the syncer itself
    when the call panics, or when the round blocks or fails). *)
Definition fetch (conf : Options) (answer : option Bson.Raw * option ReaderError)
    (sync : OplogSyncer) : OplogSyncer :=
  match next conf answer sync with
  | Some (_, sync') => sync'
  | None => sync
  end.

Definition parse_round (Unmarshal : list Byte.byte → PartialLog) (index : nat)
    (sync : OplogSyncer) : OplogSyncer :=
  match deserializer Unmarshal index sync with
  | Pushed sync' => sync'
  | _ => sync
  end.

End Pipeline.

(** ** collector/replication.go: the start of a run *)

Module Startup.
Import Utils Coordinator.

(** *** [sanitizeMongoDB] *)

(** The values of [conf.Options.ShardKey]: the three the coordinator
    names ([oplog.ShardAutomatic], [oplog.ShardByNamespace],
    [oplog.ShardByID]) and any other string. *)
Inductive ShardKey :=
| ShardAutomatic
| ShardByNamespace
| ShardByID
| ShardOther (key : string).

(** What [utils.NewMongoConn] gives: [Refused err] when the test
    [conn == nil || !conn.IsGood() || err != nil] holds ([err] is what the
    caller returns then, and may be [nil]), else the connection. *)
Inductive Conn (A : Type) :=
| Refused (err : option error)
| Connected (conn : A).
Arguments Refused {A} err.
Arguments Connected {A} conn.

(** The answers of a connected source. *)
Record SourceConn := {
  HasOplogNs : bool;
  AcquireReplicaSetName : string;
  HasUniqueIndex : bool
}.

(** [utils.MongoSource], without its gids. *)
Record MongoSource := { URL : string; ReplicaName : string }.

Definition noOplogNs : error :=
  Opaque "no oplog ns in mongo. See https://github.com/alibaba/MongoShake/wiki/FAQ#q-how-to-solve-the-oplog-tailer-initialize-failed-no-oplog-ns-in-mongo-error".

Definition duplicatedReplicaSet : error := Opaque "duplicated replica set source".

(** How the loop over the sources ends: [returned] is [Some err] when the
    loop left the function with [return err], [None] when it ran to its
    end. The sources carry the replica names set so far. *)
Record Sanitized := {
  returned : option (option error);
  sources : list MongoSource;
  hasUniqIndex : bool
}.

(** The loop of [sanitizeMongoDB] from source [i] on; [connect i] is the
    connection to source [i], [rs] the names seen. *)
Fixpoint sanitize_loop (SyncMode : string) (connect : nat → Conn SourceConn)
    (i : nat) (srcs : list MongoSource) (rs : gset string) (uniq : bool)
    : Sanitized :=
  match srcs with
  | [] => {| returned := None; sources := []; hasUniqIndex := uniq |}
  | src :: rest =>
      match connect i with
      | Refused err =>
          {| returned := Some err; sources := src :: rest; hasUniqIndex := uniq |}
      | Connected conn =>
          if negb (String.eqb SyncMode SYNCMODE_DOCUMENT) && negb (HasOplogNs conn) then
            {| returned := Some (Some noOplogNs); sources := src :: rest;
               hasUniqIndex := uniq |}
          else
            let rsName := AcquireReplicaSetName conn in
            let rsName := if String.eqb rsName "" then "default-" +:+ pretty i
                          else rsName in
            if decide (rsName ∈ rs) then
              {| returned := Some (Some duplicatedReplicaSet); sources := src :: rest;
                 hasUniqIndex := uniq |}
            else
              let src := {| URL := URL src; ReplicaName := rsName |} in
              let uniq := if negb uniq then HasUniqueIndex conn else uniq in
              let r := sanitize_loop SyncMode connect (S i) rest ({[rsName]} ∪ rs) uniq in
              {| returned := returned r; sources := src :: sources r;
                 hasUniqIndex := hasUniqIndex r |}
      end
  end.

(** [sanitizeMongoDB]: the error it returns, the sources and the shard key
    it leaves. [storage] is the connection to the context storage. *)
Definition sanitizeMongoDB (SyncMode : string) (shardKey : ShardKey)
    (storage : Conn unit) (connect : nat → Conn SourceConn)
    (srcs : list MongoSource) : option error * list MongoSource * ShardKey :=
  match storage with
  | Refused err => (err, srcs, shardKey)
  | Connected _ =>
      let r := sanitize_loop SyncMode connect 0 srcs ∅ false in
      match returned r with
      | Some err => (err, sources r, shardKey)
      | None =>
          let shardKey :=
            match shardKey with
            | ShardAutomatic =>
                if hasUniqIndex r then ShardByNamespace else ShardByID
            | _ => shardKey
            end in
          (None, sources r, shardKey)
      end
  end.

(** *** [startOplogReplication] *)

(** An [OplogSyncer] as the coordinator sees it: what it was made from,
    the ids of the workers bound to it, and whether [start] was launched. *)
Record SyncerUnit := {
  replset : string;
  startPosition : Z;
  fullSyncFinishPosition : Z;
  workerGroup : list Z;
  launched : bool
}.

Definition NewOplogSyncer (replset : string) (startPosition finish : Z) : SyncerUnit :=
  {| replset := replset; startPosition := startPosition;
     fullSyncFinishPosition := finish; workerGroup := []; launched := false |}.

(** [syncer.bind(w)], for the worker of id [w]. *)
Definition bind (w : Z) (syncer : SyncerUnit) : SyncerUnit :=
  {| replset := replset syncer; startPosition := startPosition syncer;
     fullSyncFinishPosition := fullSyncFinishPosition syncer;
     workerGroup := workerGroup syncer ++ [w]; launched := launched syncer |}.

Definition launch (syncer : SyncerUnit) : SyncerUnit :=
  {| replset := replset syncer; startPosition := startPosition syncer;
     fullSyncFinishPosition := fullSyncFinishPosition syncer;
     workerGroup := workerGroup syncer; launched := true |}.

(** [uint32(i)] *)
Definition uint32 (i : nat) : Z := Z.of_nat i mod 2 ^ 32.

(** How [startOplogReplication] ends: it returns [nil]; it returns the
    error of a worker that failed to initialize; the index [i % len] of an
    empty syncer group panics; or [WorkerNum] is negative and the counter
    of the loop would have to wrap around to meet it. *)
Inductive OplogStart :=
| OplogStarted (group : list SyncerUnit)
| WorkerInitFailed (group : list SyncerUnit)
| NoSyncerPanic
| CounterWraps.

(** The loop over the workers, from worker [i] on, [count] workers to go;
    [winit w] is what [init] answers for the worker of id [w]. At the end
    the syncers are launched. *)
Fixpoint bind_workers (winit : Z → bool) (count i : nat)
    (group : list SyncerUnit) : OplogStart :=
  match count with
  | O => OplogStarted (map launch group)
  | S count' =>
      match length group with
      | O => NoSyncerPanic
      | S _ =>
          let selected := (i mod length group)%nat in
          if negb (winit (uint32 i)) then WorkerInitFailed group
          else bind_workers winit count' (S i) (alter (bind (uint32 i)) selected group)
      end
  end.

Definition startOplogReplication (WorkerNum : Z) (winit : Z → bool)
    (sourceNames : list string) (syncerGroup : list SyncerUnit)
    (oplogStartPosition fullSyncFinishPosition : Z) : OplogStart :=
  let group :=
    syncerGroup
    ++ map (λ name, NewOplogSyncer name oplogStartPosition fullSyncFinishPosition)
         sourceNames in
  if WorkerNum <? 0 then CounterWraps
  else bind_workers winit (Z.to_nat WorkerNum) 0 group.

(** The workers among the first [i] whose index is [j] modulo [n]. *)
Definition workers_of (n j i : nat) : list nat :=
  filter (λ k, (k mod n)%nat = j) (seq 0 i).

End Startup.

(** ** collector/docsyncer: [collectionSync] *)

Module CollectionSync.
Import Bson DocSyncer.

Definition MAX_BUFFER_BYTE_SIZE : Z := 16 * 1024 * 1024.

(** [len(doc.Data)] *)
Definition size (doc : Raw) : Z := Z.of_nat (length (Data doc)).

Definition bytes (docs : list Raw) : Z := foldr (λ doc n, size doc + n) 0 docs.

(** The errors [collectionSync] returns: one of the collection executor,
    or one of the document reader, wrapped. *)
Inductive SyncError :=
| OfExecutor (err : Error)
| NextDocFailed (ns : NS) (cause : Error)
| GetIndexesFailed (ns : NS) (cause : Error).

(** The local variables of the loop, and the arguments of the calls of
    [colExecutor.Sync] made so far. *)
Record Copying := {
  buffer : list Raw;
  bufferByteSize : Z;
  synced : list (list Raw)
}.

(** What a call of [collectionSync] did. *)
Record Copied := {
  result : option SyncError;
  syncCalls : list (list Raw);
  waited : bool;
  indexesStored : bool;
  readerClosed : bool
}.

Inductive Outcome :=
| Returned (run : Copied)
| MakePanics.

Section Copy.
(** [conf.Options.ReplayerDocumentBatchSize]. *)
Variable bufferSize : Z.
(** The document as the loop appends it: rewritten for its database
    references when the options ask for it and the rewrite succeeds, else
    as it was read. *)
Variable transformed : Raw → Raw.

(** One turn of the loop for a document read. *)
Definition add_doc (st : Copying) (doc : Raw) : Copying :=
  let st :=
    if (bufferByteSize st + size doc >? MAX_BUFFER_BYTE_SIZE)
       || (Z.of_nat (length (buffer st)) >=? bufferSize)
    then {| buffer := []; bufferByteSize := 0; synced := synced st ++ [buffer st] |}
    else st in
  let doc := transformed doc in
  {| buffer := buffer st ++ [doc];
     bufferByteSize := bufferByteSize st + size doc;
     synced := synced st |}.

Definition start_copy : Copying :=
  {| buffer := []; bufferByteSize := 0; synced := [] |}.

(** [collectionSync]. [started] is what [colExecutor.Start()] returns;
    the reader gives [docs] and then either the end of the stream or the
    error [readError]; [wait] is what [colExecutor.Wait()] returns and
    [getIndexes] the error of [reader.GetIndexes()], if any. A negative
    [bufferSize] makes [make] panic. *)
Definition collectionSync (ns : NS) (started : option Error)
    (docs : list Raw) (readError : option Error)
    (wait : option Error) (getIndexes : option Error) : Outcome :=
  match started with
  | Some err =>
      Returned {| result := Some (OfExecutor err); syncCalls := []; waited := false;
                  indexesStored := false; readerClosed := false |}
  | None =>
      if bufferSize <? 0 then MakePanics
      else
        let st := fold_left add_doc docs start_copy in
        match readError with
        | Some err =>
            Returned {| result := Some (NextDocFailed ns err); syncCalls := synced st;
                        waited := false; indexesStored := false;
                        readerClosed := false |}
        | None =>
            let calls := synced st ++ [buffer st] in
            match wait with
            | Some err =>
                Returned {| result := Some (OfExecutor err); syncCalls := calls;
                            waited := true; indexesStored := false;
                            readerClosed := false |}
            | None =>
                match getIndexes with
                | Some err =>
                    Returned {| result := Some (GetIndexesFailed ns err);
                                syncCalls := calls; waited := true;
                                indexesStored := false; readerClosed := false |}
                | None =>
                    Returned {| result := None; syncCalls := calls; waited := true;
                                indexesStored := true; readerClosed := true |}
                end
            end
        end
  end.

End Copy.

End CollectionSync.

(** ** collector/docsyncer: what the executors of a collection deliver *)

Module Delivery.
Import Bson DocSyncer.

(** The batches the executors hold. *)
Definition held_batches (execs : list DocExecutor) : list (list Raw) :=
  omap holding execs.

(** The states of a collection executor, with the batches its owner gave
    to [Sync], in order. *)
Inductive delivering (Insert : list Raw → option Error) (toNS : NS) (parallel : nat)
    : list (list Raw) → CollectionExecutor → Prop :=
| deliver_Start : delivering Insert toNS parallel [] (Start toNS parallel)
| deliver_Sync sent ce docs ce' :
    delivering Insert toNS parallel sent ce →
    Sync docs ce = Some ce' →
    delivering Insert toNS parallel (sent ++ [docs]) ce'
| deliver_step sent ce ce' :
    delivering Insert toNS parallel sent ce →
    exec_step Insert ce ce' →
    delivering Insert toNS parallel sent ce'.

(** Some executor has recorded an error. *)
Definition some_failed (ce : CollectionExecutor) : Prop :=
  Exists (λ exec, error exec ≠ None) (executors ce).

(** The batches that are not empty. *)
Definition nonempty (batches : list (list Raw)) : list (list Raw) :=
  filter (λ docs, docs ≠ []) batches.

End Delivery.

(** ** collector/docsyncer: [StartDropDestCollection] *)

Module DropDest.
Import DocSyncer.

Inductive DropError :=
| CollectionNamesFailed (err : Error)
| DropCollectionFailed (toNS : NS) (msg : string).

(** [nsExistedSet], and the collections [DropCollection] was called for
    without a failure that ends the loop. *)
Record Dest := {
  nsExistedSet : gmap string bool;
  dropCalls : list NS
}.

Section Drop.
(** [utils.NS.Str] and [nsTrans.Transform] on namespaces. *)
Variable Str : NS → string.
Variable Transform : NS → NS.
(** [conf.Options.ReplayerCollectionDrop]. *)
Variable ReplayerCollectionDrop : bool.
(** The destination: the collection names of a database, and the drop of
    a collection, which answers with the message of its error if any. *)
Variable CollectionNames : string → Error + list string.
Variable DropCollection : NS → option string.

(** The loop over [colNames]. *)
Fixpoint named (collection : string) (colNames : list string) : bool :=
  match colNames with
  | [] => false
  | colName :: rest =>
      if String.eqb colName collection then true else named collection rest
  end.

(** The loop over the keys of [nsSet], in the order of the iteration. *)
Fixpoint drop_loop (nsList : list NS) (dest : Dest) : DropError + Dest :=
  match nsList with
  | [] => inr dest
  | n :: rest =>
      let toNS := Transform n in
      if negb ReplayerCollectionDrop then
        match CollectionNames (Database toNS) with
        | inl err => inl (CollectionNamesFailed err)
        | inr colNames =>
            if named (Collection n) colNames then
              drop_loop rest {| nsExistedSet := <[Str n := true]> (nsExistedSet dest);
                                dropCalls := dropCalls dest |}
            else drop_loop rest dest
        end
      else
        match DropCollection toNS with
        | Some msg =>
            if negb (String.eqb msg "ns not found") then
              inl (DropCollectionFailed toNS msg)
            else drop_loop rest {| nsExistedSet := nsExistedSet dest;
                                   dropCalls := dropCalls dest ++ [toNS] |}
        | None => drop_loop rest {| nsExistedSet := nsExistedSet dest;
                                    dropCalls := dropCalls dest ++ [toNS] |}
        end
  end.

Definition StartDropDestCollection (nsList : list NS) : DropError + Dest :=
  drop_loop nsList {| nsExistedSet := ∅; dropCalls := [] |}.

End Drop.

End DropDest.

(** ** collector: [startDocumentReplication] *)

Module DocumentReplication.
Import Utils DocSyncer.

(** What [startDocumentReplication] does to the destination and to the
    checkpoint store, in order. *)
Inductive Event :=
| ReadTimestamps
| DropDestCollection
| NamespaceSpecSyncForSharding
| DBSyncerStart (url : string)
| IndexSync
| Checkpoint (ckptMap : gmap string TimestampNode).

Inductive Outcome :=
| Returned (err : option Error) (events : list Event)
| Hangs
| Panics.

(** A source with the answers its [DBSyncer] gets: the namespaces of
    [getDbNamespace] and the order in which its workers finish them. *)
Record Source := {
  URL : string;
  getDbNamespace : Error + list NS;
  finished : list NS
}.

(** The configuration and the answers of the other calls. *)
Record Env := {
  SyncMode : string;
  TunnelAddress : list string;
  ReplayerCollectionParallel : Z;
  GetAllNamespace : option Error;
  GetAllTimestamp : Error + gmap string TimestampNode;
  NewMongoConn : option Error;
  (* whether [config.version] of the destination holds a document *)
  toIsSharding : bool;
  StartDropDestCollection : option Error;
  StartNamespaceSpecSyncForSharding : option Error;
  StartIndexSync : option Error;
  CheckpointUpdate : gmap string TimestampNode → option Error
}.

(** [docsyncer.IsShardingToSharding]. *)
Definition IsShardingToSharding (fromIsSharding toIsSharding : bool) : bool :=
  if fromIsSharding && toIsSharding then true
  else if fromIsSharding && negb toIsSharding then false
  else if negb fromIsSharding && toIsSharding then false
  else false.

Definition returned_error (o : StartOutcome) : option Error :=
  match o with
  | DocSyncer.Returned syncError _ => syncError
  | _ => None
  end.

Definition panics (o : StartOutcome) : bool :=
  match o with DocSyncer.Panics => true | _ => false end.

Definition hangs (o : StartOutcome) : bool :=
  match o with DocSyncer.Hangs => true | _ => false end.

Section Replication.
Variable Transform : NS → NS.
Variable collectionSync : NS → NS → option Error.

(** [dbSyncer.Start()] for a source. *)
Definition syncer_outcome (env : Env) (src : Source) : StartOutcome :=
  Start_DBSyncer Transform collectionSync (ReplayerCollectionParallel env)
    (getDbNamespace src) (finished src).

(** The part of [startDocumentReplication] from the loop over the sources
    on. [done] lists the sources in the order in which their goroutines
    come back from [dbSyncer.Start()]; [replError] keeps the error
    assigned last. A syncer that panics takes the process down; one that
    hangs keeps [wg.Wait()] from returning. *)
Definition replicate_sources (env : Env) (done : list Source)
    (ckptMap : option (gmap string TimestampNode)) (events : list Event) : Outcome :=
  let outcomes := syncer_outcome env <$> done in
  if existsb panics outcomes then Panics
  else if existsb hangs outcomes then Hangs
  else
    let events := events ++ (DBSyncerStart ∘ URL <$> done) in
    match last (omap returned_error outcomes) with
    | Some replError => Returned (Some replError) events
    | None =>
        match StartIndexSync env with
        | Some err => Returned (Some err) (events ++ [IndexSync])
        | None =>
            match ckptMap with
            | Some ckptMap =>
                Returned (CheckpointUpdate env ckptMap)
                  (events ++ [IndexSync; Checkpoint ckptMap])
            | None => Returned None (events ++ [IndexSync])
            end
        end
    end.

(** The part from [TunnelAddress[0]] on. *)
Definition prepare_destination (env : Env) (done : list Source)
    (ckptMap : option (gmap string TimestampNode)) (events : list Event) : Outcome :=
  let fromIsSharding := Nat.ltb 1 (length done) in
  match TunnelAddress env with
  | [] => Panics
  | toUrl :: _ =>
      match NewMongoConn env with
      | Some err => Returned (Some err) events
      | None =>
          let shardingSync := IsShardingToSharding fromIsSharding (toIsSharding env) in
          match StartDropDestCollection env with
          | Some err => Returned (Some err) (events ++ [DropDestCollection])
          | None =>
              let events := events ++ [DropDestCollection] in
              if shardingSync then
                match StartNamespaceSpecSyncForSharding env with
                | Some err =>
                    Returned (Some err) (events ++ [NamespaceSpecSyncForSharding])
                | None =>
                    replicate_sources env done ckptMap
                      (events ++ [NamespaceSpecSyncForSharding])
                end
              else replicate_sources env done ckptMap events
          end
      end
  end.

Definition startDocumentReplication (env : Env) (done : list Source) : Outcome :=
  match GetAllNamespace env with
  | Some err => Returned (Some err) []
  | None =>
      if negb (String.eqb (SyncMode env) Coordinator.SYNCMODE_DOCUMENT) then
        match GetAllTimestamp env with
        | inl err => Returned (Some err) [ReadTimestamps]
        | inr ckptMap => prepare_destination env done (Some ckptMap) [ReadTimestamps]
        end
      else prepare_destination env done None []
  end.

End Replication.

End DocumentReplication.
(** ** Example inputs *)

Module Examples.
Import Utils.

(** The timestamp of second [sec] with counter [inc]. *)
Definition mkTs (sec inc : Z) : Z := Z.lor (Z.shiftl sec 32) inc.



(** One source whose journal holds the single second 100 when the mode is
    chosen, and starts at second 200 once the full sync is over; no
    checkpoint is stored. *)
Definition one_source_at_select : AllTimestamp :=
  {| tsMap := <["rs0" := {| Oldest := mkTs 100 0; Newest := mkTs 100 0 |}]> ∅;
     ts2 := mkTs 100 0; ts3 := mkTs 100 0; ts4 := mkTs 100 0; ts5 := mkTs 100 0 |}.

Definition one_source_after_full : AllTimestamp :=
  {| tsMap := <["rs0" := {| Oldest := mkTs 200 0; Newest := mkTs 900 0 |}]> ∅;
     ts2 := mkTs 900 0; ts3 := mkTs 200 0; ts4 := mkTs 200 0; ts5 := mkTs 900 0 |}.

Definition rotated_env : Coordinator.Env :=
  {| Coordinator.sanitizeMongoDB := None;
     Coordinator.SyncMode := "all";
     Coordinator.ContextStartPosition := 0;
     Coordinator.ckptTs := λ _, 0;
     Coordinator.timestampsAtSelect := inr one_source_at_select;
     Coordinator.startDocumentReplication := None;
     Coordinator.timestampsAfterFull := inr one_source_after_full;
     Coordinator.startOplogReplication := λ _ _, None |}.

(** The sources cannot be asked for their timestamps when the mode is
    chosen. *)
Definition unreachable_env : Coordinator.Env :=
  {| Coordinator.sanitizeMongoDB := None;
     Coordinator.SyncMode := "all";
     Coordinator.ContextStartPosition := 0;
     Coordinator.ckptTs := λ _, mkTs 300 0;
     Coordinator.timestampsAtSelect := inl (Coordinator.Opaque "no reachable servers");
     Coordinator.startDocumentReplication := None;
     Coordinator.timestampsAfterFull := inr one_source_after_full;
     Coordinator.startOplogReplication := λ _ _, None |}.

(** *** The syncer *)

Definition raw (b : Byte.byte) : Bson.Raw := {| Bson.Data := [b] |}.

Definition small_conf : Syncer.Options :=
  {| Syncer.FetcherBufferCapacity := 2; Syncer.WorkerNum := 4;
     Syncer.IsShardCluster := false |}.

(** The syncer as [NewOplogSyncer] leaves it, and once [start] has created
    the four queues. *)
Definition new_syncer : Syncer.OplogSyncer :=
  {| Syncer.buffer := []; Syncer.pendingQueue := []; Syncer.logsQueue := [];
     Syncer.nextQueuePosition := 0; Syncer.logsGet := 0;
     Syncer.fetchBad := false; Syncer.calls := [] |}.

Definition started_syncer : Syncer.OplogSyncer :=
  Syncer.startDeserializer small_conf new_syncer.

(** One entry buffered, five batches pushed so far. *)
Definition busy_syncer : Syncer.OplogSyncer :=
  Syncer.set_nextQueuePosition 5
    (Syncer.set_buffer [raw Byte.x01] started_syncer).

Definition parse (data : list Byte.byte) : Oplog.PartialLog :=
  {| Oplog.Timestamp := Z.of_nat (length data); Oplog.RawSize := 0 |}.

(** The reader reports the capped collection, then has an entry. *)
Definition capped_then_entry : list (option Bson.Raw * option Syncer.ReaderError) :=
  [(None, Some Syncer.CollectionCappedError); (Some (raw Byte.x02), None)].

(** *** The batcher loop *)

(** A world for the batcher loop: the timestamp of the checkpoint manager
    and the acknowledged timestamps the coming flushes will find. A flush
    with a timestamp of its own stores it; another flush stores the next
    acknowledged timestamp; neither moves the checkpoint backwards. *)
Record World := { ckpt : Z; acks : list Z }.

Definition perform (c : Syncer.Call) (w : World) : World :=
  match c with
  | Syncer.CallCheckpoint _ inputTs =>
      if inputTs >? 0 then {| ckpt := Z.max (ckpt w) inputTs; acks := acks w |}
      else
        match acks w with
        | a :: rest => {| ckpt := Z.max (ckpt w) a; acks := rest |}
        | [] => w
        end
  | _ => w
  end.

Definition dispatchBatches (b : list (list Oplog.GenericOplog)) (w : World)
    : bool * World := (true, w).

Definition single_worker_conf : Syncer.Options :=
  {| Syncer.FetcherBufferCapacity := 256; Syncer.WorkerNum := 1;
     Syncer.IsShardCluster := false |}.

Definition log_at (ts : Z) : Oplog.PartialLog :=
  {| Oplog.Timestamp := ts; Oplog.RawSize := 0 |}.

(** Nothing is acknowledged yet and the checkpoint is at second 10000. *)
Definition behind : Syncer.BatcherState World :=
  {| Syncer.world := {| ckpt := mkTs 10000 1; acks := [] |};
     Syncer.filterCheckTs := 0; Syncer.filterFlag := false; Syncer.made := [] |}.

(** The workers acknowledge the command of second 10003 by the third
    flush. *)
Definition catching_up : Syncer.BatcherState World :=
  {| Syncer.world := {| ckpt := mkTs 10000 1;
                        acks := [mkTs 10001 0; mkTs 10002 0; mkTs 10003 0] |};
     Syncer.filterCheckTs := 0; Syncer.filterFlag := false; Syncer.made := [] |}.

(** A batch that ends with the command of second 10003. *)
Definition barrier_batch : Syncer.BatchMore :=
  {| Syncer.batchedOplog := [[]]; Syncer.barrier := true; Syncer.allEmpty := false;
     Syncer.lastOplog := Some (log_at (mkTs 10003 0));
     Syncer.lastFilterOplog := None |}.

(** Only filtered entries since wall time 0, the last one of second 10200. *)
Definition filtered_since_0 : Syncer.BatcherState World :=
  {| Syncer.world := {| ckpt := mkTs 10000 1; acks := [] |};
     Syncer.filterCheckTs := 0; Syncer.filterFlag := true; Syncer.made := [] |}.

Definition only_filtered : Syncer.BatchMore :=
  {| Syncer.batchedOplog := []; Syncer.barrier := false; Syncer.allEmpty := true;
     Syncer.lastOplog := None;
     Syncer.lastFilterOplog := Some (log_at (mkTs 10200 5)) |}.

(** The same, but an entry of second 10300 was accepted before. *)
Definition filtered_after_accepted : Syncer.BatchMore :=
  {| Syncer.batchedOplog := []; Syncer.barrier := false; Syncer.allEmpty := true;
     Syncer.lastOplog := Some (log_at (mkTs 10300 0));
     Syncer.lastFilterOplog := Some (log_at (mkTs 10200 5)) |}.

(** *** The document syncer *)

Definition ns_a : DocSyncer.NS :=
  {| DocSyncer.Database := "db"; DocSyncer.Collection := "a" |}.
Definition ns_b : DocSyncer.NS :=
  {| DocSyncer.Database := "db"; DocSyncer.Collection := "b" |}.




End Examples.


(** ** More example inputs *)

Module MoreExamples.
Import Utils.

(** The only source keeps its journal from second 200 on and the stored
    checkpoint is at second 300. *)
Definition caught_up_env : Coordinator.Env :=
  {| Coordinator.sanitizeMongoDB := None;
     Coordinator.SyncMode := "all";
     Coordinator.ContextStartPosition := 7;
     Coordinator.ckptTs := λ _, Examples.mkTs 300 0;
     Coordinator.timestampsAtSelect := inr Examples.one_source_after_full;
     Coordinator.startDocumentReplication := None;
     Coordinator.timestampsAfterFull := inr Examples.one_source_after_full;
     Coordinator.startOplogReplication := λ _ _, None |}.

(** The syncer of [Examples.started_syncer] after five entries were
    fetched and the deserializer of partition 0 took a round: the first
    two entries are parsed, the next two wait in partition 1, the fifth is
    buffered. *)
Definition flowing_syncer : Syncer.OplogSyncer :=
  {| Syncer.buffer := [Examples.raw Byte.x05];
     Syncer.pendingQueue :=
       [[]; [[Examples.raw Byte.x03; Examples.raw Byte.x04]]; []; []];
     Syncer.logsQueue :=
       [[[Syncer.deserialize Examples.parse (Examples.raw Byte.x01);
          Syncer.deserialize Examples.parse (Examples.raw Byte.x02)]];
        []; []; []];
     Syncer.nextQueuePosition := 2;
     Syncer.logsGet := 5;
     Syncer.fetchBad := false;
     Syncer.calls := [] |}.

(** Three documents of one byte each. *)
Definition three_docs : list Bson.Raw :=
  [Examples.raw Byte.x01; Examples.raw Byte.x02; Examples.raw Byte.x03].

(** The destination takes every insert. *)
Definition accept (docs : list Bson.Raw) : option DocSyncer.Error := None.

(** Two executors after one batch was sent, received and inserted. *)
Definition one_batch_done : DocSyncer.CollectionExecutor :=
  {| DocSyncer.ns := Examples.ns_a;
     DocSyncer.executors :=
       [ {| DocSyncer.error := None; DocSyncer.holding := None |};
         {| DocSyncer.error := None; DocSyncer.holding := None |} ];
     DocSyncer.wg := 0; DocSyncer.docBatch := [];
     DocSyncer.capacity := 2; DocSyncer.inserts := [[Examples.raw Byte.x01]] |}.

(** What [collectionSync] does with [three_docs], batches of two documents
    and no failure. *)
Definition three_docs_copied : CollectionSync.Copied :=
  {| CollectionSync.result := None;
     CollectionSync.syncCalls :=
       [[Examples.raw Byte.x01; Examples.raw Byte.x02]; [Examples.raw Byte.x03]];
     CollectionSync.waited := true;
     CollectionSync.indexesStored := true;
     CollectionSync.readerClosed := true |}.

(** Two executors once the batches of [three_docs_copied] are inserted. *)
Definition three_docs_done : DocSyncer.CollectionExecutor :=
  {| DocSyncer.ns := Examples.ns_a;
     DocSyncer.executors :=
       [ {| DocSyncer.error := None; DocSyncer.holding := None |};
         {| DocSyncer.error := None; DocSyncer.holding := None |} ];
     DocSyncer.wg := 0; DocSyncer.docBatch := [];
     DocSyncer.capacity := 2;
     DocSyncer.inserts :=
       [[Examples.raw Byte.x01; Examples.raw Byte.x02]; [Examples.raw Byte.x03]] |}.

(** A namespace as [db.collection]. *)
Definition dotted (n : DocSyncer.NS) : string :=
  DocSyncer.Database n +:+ "." +:+ DocSyncer.Collection n.

(** Every collection is renamed to [db.b]. *)
Definition rename_to_b (n : DocSyncer.NS) : DocSyncer.NS := Examples.ns_b.

(** Every database of the destination holds the collection [b] only. *)
Definition only_b (db : string) : DocSyncer.Error + list string := inr ["b"].

Definition no_drop_error (toNS : DocSyncer.NS) : option string := None.

Definition untouched : DropDest.Dest :=
  {| DropDest.nsExistedSet := ∅; DropDest.dropCalls := [] |}.

(** Every collection is copied without error. *)
Definition all_copied (n toNS : DocSyncer.NS) : option DocSyncer.Error := None.

(** One source with the collections [a] and [b]. *)
Definition source_ab : DocumentReplication.Source :=
  {| DocumentReplication.URL := "mongodb://source";
     DocumentReplication.getDbNamespace := inr [Examples.ns_a; Examples.ns_b];
     DocumentReplication.finished := [Examples.ns_b; Examples.ns_a] |}.

Definition read_before_copy : gmap string Utils.TimestampNode :=
  Utils.tsMap Examples.one_source_after_full.

(** Sync mode [all], one tunnel address, every call succeeds. *)
Definition full_copy_env : DocumentReplication.Env :=
  {| DocumentReplication.SyncMode := "all";
     DocumentReplication.TunnelAddress := ["mongodb://target"];
     DocumentReplication.ReplayerCollectionParallel := 2;
     DocumentReplication.GetAllNamespace := None;
     DocumentReplication.GetAllTimestamp := inr read_before_copy;
     DocumentReplication.NewMongoConn := None;
     DocumentReplication.toIsSharding := false;
     DocumentReplication.StartDropDestCollection := None;
     DocumentReplication.StartNamespaceSpecSyncForSharding := None;
     DocumentReplication.StartIndexSync := None;
     DocumentReplication.CheckpointUpdate := λ _, None |}.

Definition full_copy_events : list DocumentReplication.Event :=
  [ DocumentReplication.ReadTimestamps;
    DocumentReplication.DropDestCollection;
    DocumentReplication.DBSyncerStart "mongodb://source";
    DocumentReplication.IndexSync;
    DocumentReplication.Checkpoint read_before_copy ].

End MoreExamples.
(** * Properties *)

(** ** The coordinator *)

Module CoordinatorFacts.
Import Utils Coordinator.

Lemma needFull_loop_false ckptTs entries :
  needFull_loop ckptTs entries = false ↔
  Forall (λ e, Oldest e.2 < ckptTs e.1) entries.
Proof.
  induction entries as [|[replName ts] rest IH]; simpl.
  - split; [constructor | reflexivity].
  - destruct (Z.geb_spec (Oldest ts) (ckptTs replName)) as [Hge|Hlt].
    + split; [discriminate |].
      intros H. inversion H; subst; simpl in *. lia.
    + rewrite IH. split.
      * intros H. constructor; [simpl; lia | assumption].
      * intros H. inversion H; subst. assumption.
Qed.

Lemma needFull_false_caught_up ckptTs (m : gmap string TimestampNode) :
  needFull_loop ckptTs (map_to_list m) = false ↔
  map_Forall (λ replName ts, Oldest ts < ckptTs replName) m.
Proof.
  rewrite needFull_loop_false, map_Forall_to_list.
  apply Forall_proper; [|reflexivity].
  intros [k n]. reflexivity.
Qed.

Lemma selectSyncMode_other ckptTs got syncMode :
  syncMode ≠ SYNCMODE_ALL →
  selectSyncMode ckptTs got syncMode = (syncMode, 0, None).
Proof.
  intros Hne. unfold selectSyncMode.
  destruct (String.eqb_spec syncMode SYNCMODE_ALL); [contradiction | reflexivity].
Qed.





(** [Run] once [selectSyncMode] has answered [all]: the document
    replication, the timestamps, the check of the oldest one, the oplog
    replication. *)
Lemma Run_mode_all (env : Env) fullBeginTs :
  sanitizeMongoDB env = None →
  selectSyncMode (ckptTs env) (timestampsAtSelect env) (SyncMode env)
    = (SYNCMODE_ALL, fullBeginTs, None) →
  Run env =
    match startDocumentReplication env with
    | Some err => ([DocumentReplication], Some err)
    | None =>
        match timestampsAfterFull env with
        | inl err => ([DocumentReplication], Some (FullFinishTimestampFailed err))
        | inr r =>
            if ExtractMongoTimestamp (ts4 r) >=? fullBeginTs
            then ([DocumentReplication], Some (OldestOplogLost fullBeginTs (ts4 r)))
            else ([DocumentReplication;
                   OplogReplication fullBeginTs (TimestampToInt64 (ts2 r))],
                  startOplogReplication env fullBeginTs (TimestampToInt64 (ts2 r)))
        end
    end.
Proof.
  intros Hsan Hsel. unfold Run. rewrite Hsan, Hsel.
  change (String.eqb SYNCMODE_ALL SYNCMODE_ALL) with true. cbv iota.
  destruct (startDocumentReplication env); [reflexivity |].
  destruct (timestampsAfterFull env) as [e|r]; [reflexivity |].
  cbv zeta.
  destruct (ExtractMongoTimestamp (ts4 r) >=? fullBeginTs); [reflexivity |].
  destruct (startOplogReplication env fullBeginTs (TimestampToInt64 (ts2 r))); reflexivity.
Qed.

(** C9. When [GetAllTimestamp] fails inside [selectSyncMode] and the
    configured mode is [all], the error is dropped: the answer is mode
    [all], [fullBeginTs = 0] and no error, and [Run] goes on to start the
    document replication. *)
Theorem selectSyncMode_drops_fetch_error (env : Env) (err : error) :
  sanitizeMongoDB env = None →
  SyncMode env = SYNCMODE_ALL →
  timestampsAtSelect env = inl err →
  selectSyncMode (ckptTs env) (timestampsAtSelect env) (SyncMode env)
    = (SYNCMODE_ALL, 0, None) ∧
  ∃ started result, Run env = (DocumentReplication :: started, result).
Proof.
  intros Hsan Hmode Hfetch.
  assert (selectSyncMode (ckptTs env) (timestampsAtSelect env) (SyncMode env)
          = (SYNCMODE_ALL, 0, None)) as Hsel.
  { rewrite Hmode, Hfetch. reflexivity. }
  split; [exact Hsel |].
  rewrite (Run_mode_all env 0 Hsan Hsel).
  destruct (startDocumentReplication env); [eauto |].
  destruct (timestampsAfterFull env) as [e|r]; [eauto |].
  destruct (ExtractMongoTimestamp (ts4 r) >=? 0); eauto.
Qed.

Lemma selectSyncMode_drops_fetch_error_witness :
  selectSyncMode (ckptTs Examples.unreachable_env)
      (timestampsAtSelect Examples.unreachable_env) (SyncMode Examples.unreachable_env)
    = (SYNCMODE_ALL, 0, None) ∧
  ∃ started result,
    Run Examples.unreachable_env = (DocumentReplication :: started, result).
Proof.
  apply (selectSyncMode_drops_fetch_error Examples.unreachable_env
           (Opaque "no reachable servers")); reflexivity.
Defined.

(** The seconds of an [int64] timestamp are below [2^31]. *)
Lemma seconds_below ts : ts < 2 ^ 63 → ExtractMongoTimestamp ts < 2 ^ 31.
Proof.
  intros Hts. unfold ExtractMongoTimestamp. rewrite Z.shiftr_div_pow2 by lia.
  apply Z.div_lt_upper_bound; lia.
Qed.

(** C3. The journal of the only source starts at second 100 when the full
    sync begins ([fullBeginTs] is that timestamp) and at second 200 when it
    ends: the oldest timestamp has advanced past [fullBeginTs], yet [Run]
    starts the oplog replication and returns no error. The check compares
    the seconds of the oldest timestamp with the whole of [fullBeginTs]: it
    holds for no [int64] timestamp once [fullBeginTs] is [2^31] or more
    (the timestamp of second 1 is [2^32]). *)
Theorem Run_misses_rotated_oplog :
  let fullBeginTs := Examples.mkTs 100 0 in
  let oldestTs := ts4 Examples.one_source_after_full in
  selectSyncMode (ckptTs Examples.rotated_env)
      (timestampsAtSelect Examples.rotated_env) (SyncMode Examples.rotated_env)
    = (SYNCMODE_ALL, fullBeginTs, None) ∧
  oldestTs >= fullBeginTs ∧
  Run Examples.rotated_env
    = ([DocumentReplication; OplogReplication fullBeginTs (Examples.mkTs 900 0)], None) ∧
  ∀ oldest fullBegin,
    oldest < 2 ^ 63 → 2 ^ 31 ≤ fullBegin →
    (ExtractMongoTimestamp oldest >=? fullBegin) = false.
Proof.
  split; [vm_compute; reflexivity |].
  split; [vm_compute; discriminate |].
  split; [vm_compute; reflexivity |].
  intros oldest fullBegin Hold Hbegin.
  pose proof (seconds_below oldest Hold) as Hsec.
  destruct (Z.geb_spec (ExtractMongoTimestamp oldest) fullBegin); [lia | reflexivity].
Qed.

End CoordinatorFacts.

(** ** The syncer: fetching and deserializing *)

Module FetchFacts.
Import Utils Bson Oplog Syncer.

Lemma uint64_wrap_succ n : 0 ≤ n < 2 ^ 64 - 1 → uint64_wrap (n + 1) = n + 1.
Proof. intros H. unfold uint64_wrap. apply Z.mod_small. lia. Qed.

(** The index [transfer] selects is one of the queues. *)
Lemma selected_in_range (pos : Z) (len : nat) :
  0 ≤ pos → len ≠ O → (Z.to_nat (pos mod Z.of_nat len) < len)%nat.
Proof.
  intros Hpos Hlen.
  assert (0 ≤ pos mod Z.of_nat len < Z.of_nat len) by (apply Z.mod_pos_bound; lia).
  lia.
Qed.

(** The two results of [transfer] when there is a queue. *)
Lemma transfer_cases conf log sync :
  0 ≤ FetcherBufferCapacity conf →
  pendingQueue sync ≠ [] →
  let buffer' := buffer sync ++ option_list log in
  let flush := match log with Some _ => false | None => true end in
  transfer conf log sync =
    if (Z.of_nat (length buffer') >=? FetcherBufferCapacity conf)
       || (flush && negb (Nat.eqb (length buffer') 0))
    then
      Some (true,
            set_nextQueuePosition (uint64_wrap (nextQueuePosition sync + 1))
              (set_buffer []
                 (set_pendingQueue
                    (alter (λ q, q ++ [buffer'])
                       (Z.to_nat (nextQueuePosition sync
                                  mod Z.of_nat (length (pendingQueue sync))))
                       (pendingQueue sync))
                    (set_buffer buffer' sync))))
    else Some (false, set_buffer buffer' sync).
Proof.
  intros Hcap Hq buffer' flush. unfold transfer.
  replace (FetcherBufferCapacity conf <? 0) with false by (symmetry; apply Z.ltb_ge; lia).
  assert (match log with
          | Some l => set_buffer (buffer sync ++ [l]) sync
          | None => sync
          end = set_buffer buffer' sync) as ->.
  { subst buffer'. destruct log; simpl; [reflexivity |].
    rewrite app_nil_r. destruct sync; reflexivity. }
  fold flush. cbn [buffer set_buffer pendingQueue nextQueuePosition].
  destruct ((Z.of_nat (length buffer') >=? FetcherBufferCapacity conf)
            || flush && negb (Nat.eqb (length buffer') 0)); [|reflexivity].
  destruct (pendingQueue sync) eqn:Hp; [contradiction | reflexivity].
Qed.

(** With a negative [FetcherBufferCapacity] every call of [transfer]
    reaches the push, and ends in a panic: of the modulo when there is no
    queue, of [make] otherwise. *)
Lemma transfer_negative_capacity conf log sync :
  FetcherBufferCapacity conf < 0 → transfer conf log sync = None.
Proof.
  intros Hcap. unfold transfer.
  set (sync1 := match log with
                | Some l => set_buffer (buffer sync ++ [l]) sync
                | None => sync
                end).
  replace (Z.of_nat (length (buffer sync1)) >=? FetcherBufferCapacity conf) with true
    by (symmetry; apply Z.geb_le; lia).
  cbn [orb]. destruct (length (pendingQueue sync1)); [reflexivity |].
  replace (FetcherBufferCapacity conf <? 0) with true by (symmetry; apply Z.ltb_lt; lia).
  reflexivity.
Qed.

(** C6. With a capacity that is not negative, [transfer] appends a given
    entry to the buffer. It pushes the buffer exactly when the buffer has
    reached [FetcherBufferCapacity], or no entry was given and the buffer
    is not empty. A push goes to the end of queue
    [nextQueuePosition mod P], adds one to [nextQueuePosition] (within
    [uint64]) and leaves an empty buffer; without a push the position and
    the queues stay as they are. *)
Theorem transfer_spec conf log sync :
  0 ≤ FetcherBufferCapacity conf →
  pendingQueue sync ≠ [] →
  0 ≤ nextQueuePosition sync < 2 ^ 64 →
  let buffer' := buffer sync ++ option_list log in
  let P := length (pendingQueue sync) in
  let selected := Z.to_nat (nextQueuePosition sync mod Z.of_nat P) in
  let push :=
    FetcherBufferCapacity conf ≤ Z.of_nat (length buffer') ∨
    (log = None ∧ buffer' ≠ []) in
  ∃ pushed sync',
    transfer conf log sync = Some (pushed, sync') ∧
    (pushed = true ↔ push) ∧
    logsQueue sync' = logsQueue sync ∧
    (pushed = true →
       (selected < P)%nat ∧
       pendingQueue sync' = alter (λ q, q ++ [buffer']) selected (pendingQueue sync) ∧
       nextQueuePosition sync' = (nextQueuePosition sync + 1) mod 2 ^ 64 ∧
       (nextQueuePosition sync < 2 ^ 64 - 1 →
          nextQueuePosition sync' = nextQueuePosition sync + 1) ∧
       buffer sync' = []) ∧
    (pushed = false →
       buffer sync' = buffer' ∧
       pendingQueue sync' = pendingQueue sync ∧
       nextQueuePosition sync' = nextQueuePosition sync).
Proof.
  intros Hcap Hq Hpos buffer' P selected push.
  rewrite (transfer_cases conf log sync Hcap Hq). fold buffer'.
  assert (((Z.of_nat (length buffer') >=? FetcherBufferCapacity conf)
           || (match log with Some _ => false | None => true end)
              && negb (Nat.eqb (length buffer') 0)) = true ↔ push) as Hpush.
  { unfold push. rewrite orb_true_iff, andb_true_iff, negb_true_iff.
    rewrite Z.geb_le, Nat.eqb_neq.
    split; (intros [H|[H1 H2]]; [left; exact H | right]).
    - split; [destruct log; [discriminate | reflexivity] |].
      intros ->. apply H2. reflexivity.
    - split; [rewrite H1; reflexivity |].
      intros Hlen. apply H2. apply length_zero_iff_nil, Hlen. }
  destruct ((Z.of_nat (length buffer') >=? FetcherBufferCapacity conf)
            || (match log with Some _ => false | None => true end)
               && negb (Nat.eqb (length buffer') 0)) eqn:Hcond.
  - eexists true, _. split; [reflexivity |].
    split; [split; [intros _; apply Hpush; reflexivity | reflexivity] |].
    split; [reflexivity |]. split; [| discriminate].
    intros _. split.
    { apply selected_in_range; [lia |]. unfold P.
      destruct (pendingQueue sync); [contradiction | discriminate]. }
    split; [reflexivity |]. split; [reflexivity |].
    split; [| reflexivity].
    intros Hlt. cbn [nextQueuePosition set_nextQueuePosition].
    apply uint64_wrap_succ. lia.
  - eexists false, _. split; [reflexivity |].
    split.
    { split; [discriminate |]. intros Hp. apply Hpush in Hp. discriminate. }
    split; [reflexivity |]. split; [discriminate |].
    intros _. repeat split.
Qed.

Lemma transfer_spec_witness :
  ∃ pushed sync',
    transfer Examples.small_conf (Some (Examples.raw Byte.x02)) Examples.busy_syncer
      = Some (pushed, sync') ∧
    pushed = true ∧
    pendingQueue sync' !! 1%nat
      = Some [[Examples.raw Byte.x01; Examples.raw Byte.x02]] ∧
    nextQueuePosition sync' = 6 ∧
    buffer sync' = [].
Proof.
  destruct (transfer_spec Examples.small_conf (Some (Examples.raw Byte.x02))
              Examples.busy_syncer)
    as (pushed & sync' & Heq & Hiff & _ & Hpush & _).
  - vm_compute. discriminate.
  - discriminate.
  - vm_compute. split; [discriminate | reflexivity].
  - assert (pushed = true) as Htrue.
    { apply Hiff. left. vm_compute. discriminate. }
    destruct (Hpush Htrue) as (_ & Hqueue & _ & Hnext & Hbuf).
    exists pushed, sync'. split; [exact Heq |]. split; [exact Htrue |].
    split; [rewrite Hqueue; reflexivity |].
    split; [| exact Hbuf].
    apply Hnext. vm_compute. reflexivity.
Defined.

(** *** Empty batches *)

Lemma pushed_slice_nonempty conf log sync pushed sync' :
  1 ≤ FetcherBufferCapacity conf →
  pendingQueue sync ≠ [] →
  transfer conf log sync = Some (pushed, sync') →
  pushed = true →
  buffer sync ++ option_list log ≠ [].
Proof.
  intros Hcap Hq Heq ->.
  rewrite (transfer_cases conf log sync ltac:(lia) Hq) in Heq.
  destruct ((Z.of_nat (length (buffer sync ++ option_list log))
             >=? FetcherBufferCapacity conf)
            || (match log with Some _ => false | None => true end)
               && negb (Nat.eqb (length (buffer sync ++ option_list log)) 0)) eqn:Hcond;
    [| discriminate].
  intros Hnil. rewrite Hnil in Hcond. simpl in Hcond.
  rewrite andb_false_r, orb_false_r in Hcond.
  apply Z.geb_le in Hcond. lia.
Qed.

Lemma transfer_sound conf log sync pushed sync' :
  1 ≤ FetcherBufferCapacity conf →
  sound_queues sync →
  transfer conf log sync = Some (pushed, sync') →
  sound_queues sync'.
Proof.
  intros Hcap (Hq & Hpend & Hlogs) Heq.
  pose proof (pushed_slice_nonempty conf log sync pushed sync' Hcap Hq Heq) as Hne.
  rewrite (transfer_cases conf log sync ltac:(lia) Hq) in Heq.
  destruct ((Z.of_nat (length (buffer sync ++ option_list log))
             >=? FetcherBufferCapacity conf)
            || (match log with Some _ => false | None => true end)
               && negb (Nat.eqb (length (buffer sync ++ option_list log)) 0));
    injection Heq as <- <-; unfold sound_queues; cbn.
  - split; [| split; [| exact Hlogs]].
    + intros Hnil. apply (f_equal length) in Hnil.
      rewrite length_alter in Hnil. destruct (pendingQueue sync); [contradiction | discriminate].
    + apply Forall_alter; [exact Hpend |].
      intros q _ Hqne. apply Forall_app. split; [exact Hqne |].
      constructor; [apply Hne; reflexivity | constructor].
  - split; [exact Hq | split; assumption].
Qed.

Lemma next_sound conf answer sync pushed sync' :
  1 ≤ FetcherBufferCapacity conf →
  sound_queues sync →
  next conf answer sync = Some (pushed, sync') →
  sound_queues sync'.
Proof.
  intros Hcap Hs Heq. destruct answer as [log err]. unfold next in Heq.
  destruct log as [l|].
  - eapply transfer_sound; [exact Hcap | | exact Heq]. exact Hs.
  - destruct (is_capped err).
    + injection Heq as <- <-. exact Hs.
    + destruct (negb (is_nil err) && negb (is_timeout err));
        (eapply transfer_sound; [exact Hcap | | exact Heq]); exact Hs.
Qed.

Lemma deserializer_sound Unmarshal index sync sync' :
  sound_queues sync →
  deserializer Unmarshal index sync = Pushed sync' →
  sound_queues sync'.
Proof.
  intros (Hq & Hpend & Hlogs) Heq. unfold deserializer in Heq.
  destruct (pendingQueue sync !! index) as [[|batch rest]|] eqn:Hlook; try discriminate.
  destruct (Nat.eqb (length batch) 0) eqn:Hlen; [discriminate |].
  injection Heq as <-. unfold sound_queues; cbn.
  pose proof (Forall_lookup_1 _ _ _ _ Hpend Hlook) as Hbatches.
  inversion Hbatches as [|? ? Hbatch Hrest]; subst.
  split; [| split].
  - intros Hnil. apply (f_equal length) in Hnil.
    rewrite length_insert in Hnil. destruct (pendingQueue sync); [contradiction | discriminate].
  - apply Forall_insert; assumption.
  - apply Forall_alter; [exact Hlogs |].
    intros q _ Hqne. apply Forall_app. split; [exact Hqne |].
    constructor; [| constructor].
    destruct batch; [contradiction | discriminate].
Qed.

Lemma pipeline_sound conf Unmarshal sync :
  1 ≤ FetcherBufferCapacity conf →
  pipeline conf Unmarshal sync →
  sound_queues sync.
Proof.
  intros Hcap Hpipe. induction Hpipe as
    [sync Hbuf | sync answer pushed sync' _ IH Hnext | sync c _ IH
    | sync index sync' _ IH Hdes | sync index batch rest _ IH Hlook].
  - unfold sound_queues, startDeserializer, calculatePendingQueueConcurrency,
      no_empty_batch; cbn.
    destruct (IsShardCluster conf); cbn; repeat split;
      try discriminate; repeat constructor.
  - eapply next_sound; eassumption.
  - exact IH.
  - eapply deserializer_sound; eassumption.
  - destruct IH as (Hq & Hpend & Hlogs). unfold sound_queues; cbn.
    split; [exact Hq | split; [exact Hpend |]].
    pose proof (Forall_lookup_1 _ _ _ _ Hlogs Hlook) as Hbatches.
    inversion Hbatches; subst. apply Forall_insert; assumption.
Qed.

(** C8. With [FetcherBufferCapacity >= 1], in every state of the pipeline:
    a slice [transfer] pushes is not empty and no batch of a pending queue
    is; the assertion of the deserializer does not fail; and no batch of a
    logs queue is empty. *)
Theorem no_empty_batch_enqueued conf Unmarshal sync :
  1 ≤ FetcherBufferCapacity conf →
  pipeline conf Unmarshal sync →
  (∀ log pushed sync',
     transfer conf log sync = Some (pushed, sync') → pushed = true →
     buffer sync ++ option_list log ≠ [] ∧
     no_empty_batch (pendingQueue sync')) ∧
  no_empty_batch (pendingQueue sync) ∧
  (∀ index, deserializer Unmarshal index sync ≠ AssertFailed) ∧
  (∀ index sync',
     deserializer Unmarshal index sync = Pushed sync' →
     no_empty_batch (logsQueue sync')) ∧
  no_empty_batch (logsQueue sync).
Proof.
  intros Hcap Hpipe.
  pose proof (pipeline_sound conf Unmarshal sync Hcap Hpipe) as Hs.
  destruct Hs as (Hq & Hpend & Hlogs).
  split; [| split; [exact Hpend | split; [| split; [| exact Hlogs]]]].
  - intros log pushed sync' Heq Hpushed. split.
    + eapply pushed_slice_nonempty; eassumption.
    + eapply (transfer_sound conf log sync pushed sync' Hcap); [| exact Heq].
      repeat split; assumption.
  - intros index Hfail. unfold deserializer in Hfail.
    destruct (pendingQueue sync !! index) as [[|batch rest]|] eqn:Hlook; try discriminate.
    pose proof (Forall_lookup_1 _ _ _ _ Hpend Hlook) as Hbatches.
    inversion Hbatches as [|? ? Hbatch Hrest]; subst.
    destruct batch; [contradiction | discriminate].
  - intros index sync' Hdes.
    eapply (deserializer_sound Unmarshal index sync sync'); [| exact Hdes].
    repeat split; assumption.
Qed.

Lemma fetch_in_pipeline conf Unmarshal answer sync :
  pipeline conf Unmarshal sync → pipeline conf Unmarshal (Pipeline.fetch conf answer sync).
Proof.
  intros Hpipe. unfold Pipeline.fetch.
  destruct (next conf answer sync) as [[pushed sync']|] eqn:Hnext; [| exact Hpipe].
  eapply pipeline_next; eassumption.
Qed.

Lemma parse_round_in_pipeline conf Unmarshal index sync :
  pipeline conf Unmarshal sync →
  pipeline conf Unmarshal (Pipeline.parse_round Unmarshal index sync).
Proof.
  intros Hpipe. unfold Pipeline.parse_round.
  destruct (deserializer Unmarshal index sync) as [| |sync'] eqn:Hdes;
    [exact Hpipe | exact Hpipe |].
  eapply pipeline_deserializer; eassumption.
Qed.

(** [MoreExamples.flowing_syncer] is a state of the pipeline: two entries
    fetched and pushed, a round of the deserializer of partition 0, three
    more entries fetched. *)
Lemma flowing_syncer_run :
  MoreExamples.flowing_syncer
  = Pipeline.fetch Examples.small_conf (Some (Examples.raw Byte.x05), None)
      (Pipeline.fetch Examples.small_conf (Some (Examples.raw Byte.x04), None)
         (Pipeline.fetch Examples.small_conf (Some (Examples.raw Byte.x03), None)
            (Pipeline.parse_round Examples.parse 0
               (Pipeline.fetch Examples.small_conf (Some (Examples.raw Byte.x02), None)
                  (Pipeline.fetch Examples.small_conf (Some (Examples.raw Byte.x01), None)
                     Examples.started_syncer))))).
Proof. vm_compute. reflexivity. Qed.

Lemma flowing_syncer_in_pipeline :
  pipeline Examples.small_conf Examples.parse MoreExamples.flowing_syncer.
Proof.
  rewrite flowing_syncer_run.
  do 3 apply fetch_in_pipeline. apply parse_round_in_pipeline.
  do 2 apply fetch_in_pipeline.
  exact (pipeline_start Examples.small_conf Examples.parse Examples.new_syncer eq_refl).
Qed.

Lemma no_empty_batch_enqueued_witness :
  (pendingQueue MoreExamples.flowing_syncer !! 1%nat
     = Some [[Examples.raw Byte.x03; Examples.raw Byte.x04]] ∧
   length <$> logsQueue MoreExamples.flowing_syncer !! 0%nat = Some 1%nat) ∧
  (∀ log pushed sync',
     transfer Examples.small_conf log MoreExamples.flowing_syncer = Some (pushed, sync') →
     pushed = true →
     buffer MoreExamples.flowing_syncer ++ option_list log ≠ [] ∧
     no_empty_batch (pendingQueue sync')) ∧
  no_empty_batch (pendingQueue MoreExamples.flowing_syncer) ∧
  (∀ index, deserializer Examples.parse index MoreExamples.flowing_syncer ≠ AssertFailed) ∧
  (∀ index sync',
     deserializer Examples.parse index MoreExamples.flowing_syncer = Pushed sync' →
     no_empty_batch (logsQueue sync')) ∧
  no_empty_batch (logsQueue MoreExamples.flowing_syncer).
Proof.
  split; [split; reflexivity |].
  apply (no_empty_batch_enqueued Examples.small_conf Examples.parse
           MoreExamples.flowing_syncer).
  - vm_compute. discriminate.
  - exact flowing_syncer_in_pipeline.
Defined.

(** *** Errors of the reader *)


Lemma entries_in_entry l err : entries_in [(Some l, err)] = 1.
Proof. reflexivity. Qed.

Lemma entries_in_no_entry err : entries_in [(None, err)] = 0.
Proof. reflexivity. Qed.


Lemma entries_in_cons a answers :
  entries_in (a :: answers) = entries_in [a] + entries_in answers.
Proof.
  unfold entries_in. rewrite filter_cons, (filter_cons _ a []), filter_nil.
  destruct (decide (is_Some a.1)); cbn [length]; lia.
Qed.

Lemma entries_in_nil : entries_in [] = 0.
Proof. reflexivity. Qed.




End FetchFacts.

(** ** The syncer: the batcher loop *)

Module BatcherFacts.
Import Utils Bson Oplog Syncer.

Section Waiting.
Variable conf : Options.
Variable World : Type.
Variable ckptGet : World → Z.
Variable perform : Call → World → World.
Variable dispatchBatches : list (list GenericOplog) → World → bool * World.

Local Abbreviation state := (BatcherState World).
Local Abbreviation turn := (reflush World perform).
Local Abbreviation spin := (checkpoint_spin World ckptGet perform).
Local Abbreviation check := (checkCheckpointUpdate conf World ckptGet perform).
Local Abbreviation ckptOf st := (ckptGet (world World st)).
Local Abbreviation calls_of st := (made World st).

Lemma made_turn (st : state) :
  calls_of (turn st)
  = calls_of st ++ [CallYieldInMs 300; CallCheckpoint true 0].
Proof. unfold reflush. cbn [do_call made]. rewrite <- app_assoc. reflexivity. Qed.

Lemma made_turns n (st : state) :
  calls_of (Nat.iter n turn st)
  = calls_of st ++ concat (replicate n [CallYieldInMs 300; CallCheckpoint true 0]).
Proof.
  revert st. induction n as [|n IH]; intros st.
  - cbn [replicate concat]. rewrite app_nil_r. reflexivity.
  - rewrite Nat.iter_succ_r, IH, made_turn. cbn [replicate concat].
    rewrite <- app_assoc. reflexivity.
Qed.

(** When the loop ends, it has made some turns, every check before the
    last one failed and the last one held. *)
Lemma spin_returns fuel newestTs :
  ∀ (st st' : state),
    spin fuel newestTs st = Some st' →
    ∃ n, (n < fuel)%nat ∧ st' = Nat.iter n turn st ∧
         newestTs ≤ ckptOf st' ∧
         ∀ k, (k < n)%nat → ckptOf (Nat.iter k turn st) < newestTs.
Proof.
  induction fuel as [|fuel IH]; intros st st' Heq; [discriminate |].
  cbn [checkpoint_spin] in Heq.
  destruct (Z.geb_spec (ckptOf st) newestTs) as [Hge|Hlt].
  - injection Heq as <-. exists O. split; [lia |]. split; [reflexivity |].
    split; [lia |]. intros k Hk. lia.
  - apply IH in Heq as (n & Hn & -> & Hreached & Hbefore).
    exists (S n). split; [lia |]. rewrite Nat.iter_succ_r.
    split; [reflexivity |]. split; [exact Hreached |].
    intros [|k] Hk; [exact Hlt |].
    rewrite Nat.iter_succ_r. apply Hbefore. lia.
Qed.

(** While the checkpoint stays behind, the loop does not end. *)
Lemma spin_goes_on fuel newestTs :
  ∀ (st : state),
    (∀ k, (k < fuel)%nat → ckptOf (Nat.iter k turn st) < newestTs) →
    spin fuel newestTs st = None.
Proof.
  induction fuel as [|fuel IH]; intros st Hbehind; [reflexivity |].
  cbn [checkpoint_spin].
  destruct (Z.geb_spec (ckptOf st) newestTs) as [Hge|Hlt].
  - specialize (Hbehind O ltac:(lia)). cbn in Hbehind. lia.
  - apply IH. intros k Hk. specialize (Hbehind (S k) ltac:(lia)).
    rewrite Nat.iter_succ_r in Hbehind. exact Hbehind.
Qed.

(** Once the checkpoint has caught up after some turns, the loop ends. *)
Lemma spin_ends n newestTs :
  ∀ (st : state),
    newestTs ≤ ckptOf (Nat.iter n turn st) →
    ∃ m st', (m ≤ n)%nat ∧
      ∀ fuel, (m < fuel)%nat → spin fuel newestTs st = Some st'.
Proof.
  induction n as [|n IH]; intros st Hreached.
  - exists O, st. split; [lia |]. intros [|fuel] Hfuel; [lia |].
    cbn [checkpoint_spin]. cbn in Hreached.
    destruct (Z.geb_spec (ckptOf st) newestTs); [reflexivity | lia].
  - destruct (Z.geb_spec (ckptOf st) newestTs) as [Hge|Hlt].
    + exists O, st. split; [lia |]. intros [|fuel] Hfuel; [lia |].
      cbn [checkpoint_spin].
      destruct (Z.geb_spec (ckptOf st) newestTs); [reflexivity | lia].
    + rewrite Nat.iter_succ_r in Hreached.
      destruct (IH _ Hreached) as (m & st' & Hm & Hfuel).
      exists (S m), st'. split; [lia |]. intros [|fuel] Hlt'; [lia |].
      cbn [checkpoint_spin].
      destruct (Z.geb_spec (ckptOf st) newestTs); [lia |].
      apply Hfuel. lia.
Qed.

Lemma check_guard newestTs :
  1 < WorkerNum conf → 0 < newestTs →
  ∀ fuel (st : state), check fuel true newestTs st = spin fuel newestTs st.
Proof.
  intros Hworkers Hpos fuel st. unfold checkCheckpointUpdate.
  replace (newestTs >? 0) with true by (symmetry; apply Z.gtb_lt; lia).
  replace (WorkerNum conf >? 1) with true by (symmetry; apply Z.gtb_lt; lia).
  reflexivity.
Qed.

(** Whatever the guard, a check that returns has only added calls. *)
Lemma check_extends fuel barrier newestTs (st st' : state) :
  check fuel barrier newestTs st = Some st' →
  ∃ added, calls_of st' = calls_of st ++ added.
Proof.
  unfold checkCheckpointUpdate.
  destruct (barrier && (newestTs >? 0) && (WorkerNum conf >? 1)).
  - intros Heq. apply spin_returns in Heq as (n & _ & -> & _).
    eexists. apply made_turns.
  - intros [= <-]. exists []. rewrite app_nil_r. reflexivity.
Qed.

(** C2. With more than one worker ([WorkerNum > 1]), for a barrier and a
    positive [newestTs]: when [checkCheckpointUpdate] returns, the
    timestamp of the checkpoint manager is at least [newestTs], every
    earlier check found it smaller, and between two checks the loop slept
    [DDLCheckpointInterval = 300] ms and flushed the checkpoint again; it
    does not return while the checkpoint is behind, and returns once the
    checkpoint has caught up. The batcher loop calls it before it takes
    the next batch, so a round with a barrier ends only then. *)
Theorem checkCheckpointUpdate_waits newestTs :
  1 < WorkerNum conf → 0 < newestTs →
  (∀ fuel (st st' : state),
     check fuel true newestTs st = Some st' →
     ∃ n, st' = Nat.iter n turn st ∧
          newestTs ≤ ckptOf st' ∧
          (∀ k, (k < n)%nat → ckptOf (Nat.iter k turn st) < newestTs) ∧
          calls_of st' = calls_of st
            ++ concat (replicate n [CallYieldInMs 300; CallCheckpoint true 0])) ∧
  (∀ fuel (st : state),
     (∀ k, (k < fuel)%nat → ckptOf (Nat.iter k turn st) < newestTs) →
     check fuel true newestTs st = None) ∧
  (∀ n (st : state),
     newestTs ≤ ckptOf (Nat.iter n turn st) →
     ∃ m st', (m ≤ n)%nat ∧
       ∀ fuel, (m < fuel)%nat → check fuel true newestTs st = Some st') ∧
  (∀ fuel bm now log (st st' : state),
     lastOplog bm = Some log → allEmpty bm = false → barrier bm = true →
     Timestamp log = newestTs →
     batcher_round conf World ckptGet perform dispatchBatches fuel bm now st = Done st' →
     newestTs ≤ ckptOf st').
Proof.
  intros Hworkers Hpos.
  pose proof (check_guard newestTs Hworkers Hpos) as Hguard.
  split; [| split; [| split]].
  - intros fuel st st' Heq. rewrite Hguard in Heq.
    apply spin_returns in Heq as (n & _ & -> & Hreached & Hbefore).
    exists n. split; [reflexivity |]. split; [exact Hreached |].
    split; [exact Hbefore |]. apply made_turns.
  - intros fuel st Hbehind. rewrite Hguard. apply spin_goes_on, Hbehind.
  - intros n st Hreached.
    destruct (spin_ends n newestTs st Hreached) as (m & st' & Hm & Hfuel).
    exists m, st'. split; [exact Hm |]. intros fuel Hlt.
    rewrite Hguard. apply Hfuel, Hlt.
  - intros fuel bm now log st st' Hlog Hempty Hbarrier Hts Hround.
    unfold batcher_round in Hround. rewrite Hlog, Hempty, Hbarrier, Hts in Hround.
    destruct (do_dispatch World dispatchBatches (batchedOplog bm) st) as [worked st1].
    rewrite Hguard in Hround.
    destruct (spin fuel newestTs _) as [st2|] eqn:Hspin; [| discriminate].
    injection Hround as <-.
    apply spin_returns in Hspin as (n & _ & _ & Hreached & _). exact Hreached.
Qed.

End Waiting.

Lemma checkCheckpointUpdate_waits_witness :
  ∃ st',
    checkCheckpointUpdate Examples.small_conf Examples.World Examples.ckpt
      Examples.perform 10 true (Examples.mkTs 10003 0) Examples.catching_up = Some st' ∧
    Examples.mkTs 10003 0 ≤ Examples.ckpt (world Examples.World st').
Proof.
  destruct (checkCheckpointUpdate Examples.small_conf Examples.World Examples.ckpt
              Examples.perform 10 true (Examples.mkTs 10003 0) Examples.catching_up)
    as [st'|] eqn:Heq; [| vm_compute in Heq; discriminate].
  exists st'. split; [reflexivity |].
  destruct (checkCheckpointUpdate_waits Examples.small_conf Examples.World
              Examples.ckpt Examples.perform Examples.dispatchBatches
              (Examples.mkTs 10003 0)) as (Hreturns & _).
  - reflexivity.
  - reflexivity.
  - destruct (Hreturns _ _ _ Heq) as (n & _ & Hreached & _). exact Hreached.
Defined.

(** With one worker, a barrier and a positive timestamp:
    [checkCheckpointUpdate] returns at once, without a sleep or a flush,
    while the checkpoint is behind, and the round of the batcher loop ends
    with the checkpoint still behind. *)
Lemma single_worker_does_not_wait :
  checkCheckpointUpdate Examples.single_worker_conf Examples.World Examples.ckpt
    Examples.perform 10 true (Examples.mkTs 10003 0) Examples.behind
    = Some Examples.behind ∧
  Examples.ckpt (world Examples.World Examples.behind) < Examples.mkTs 10003 0 ∧
  match batcher_round Examples.single_worker_conf Examples.World Examples.ckpt
          Examples.perform Examples.dispatchBatches 10 Examples.barrier_batch 0
          Examples.behind with
  | Done st' => Examples.ckpt (world Examples.World st') <? Examples.mkTs 10003 0
  | _ => false
  end = true.
Proof. repeat split. Qed.

Section Filtered.
Variable conf : Options.
Variable World : Type.
Variable ckptGet : World → Z.
Variable perform : Call → World → World.
Variable dispatchBatches : list (list GenericOplog) → World → bool * World.

Local Abbreviation state := (BatcherState World).
Local Abbreviation check := (checkCheckpointUpdate conf World ckptGet perform).
Local Abbreviation ckptOf st := (ckptGet (world World st)).
Local Abbreviation calls_of st := (made World st).
Local Abbreviation round := (batcher_round conf World ckptGet perform dispatchBatches).
Local Abbreviation pushes := (pushes_checkpoint World).

Lemma filtered_only_round fuel bm now filterLog (st : state) :
  lastOplog bm = None ∨ allEmpty bm = true →
  lastFilterOplog bm = Some filterLog →
  round fuel bm now st
  = filtered_round conf World ckptGet perform fuel (lastOplog bm) filterLog now st.
Proof.
  intros Hbranch Hfilter. unfold batcher_round. rewrite Hfilter.
  destruct (lastOplog bm) as [log|]; [| reflexivity].
  destruct Hbranch as [Hnone | ->]; [discriminate | reflexivity].
Qed.

Lemma quiet_round_pushes_nothing (st st' : state) ts :
  calls_of st' = calls_of st → ¬ pushes st ts (Done st').
Proof.
  intros Hsame (st2 & before & [= <-] & Hmade). rewrite Hsame in Hmade.
  apply (f_equal length) in Hmade. rewrite !length_app in Hmade. cbn in Hmade. lia.
Qed.

Lemma crashed_round_pushes_nothing (st : state) ts : ¬ pushes st ts Crashed.
Proof. intros (st2 & before & Hdone & _). discriminate. Qed.

Lemma spinning_round_pushes_nothing (st : state) ts : ¬ pushes st ts Spinning.
Proof. intros (st2 & before & Hdone & _). discriminate. Qed.

(** C4. In a round of the batcher loop with nothing to dispatch and a
    filtered entry seen, [sync.checkpoint(false, filterLog.Timestamp)] is
    called exactly when: the rounds since [filterCheckTs] were such rounds
    ([filterFlag]) and more than [FilterCheckpointCheckInterval = 180]
    seconds of wall time have passed since then; the seconds of the
    filtered timestamp minus [FilterCheckpointGap = 180] exceed the seconds
    of the checkpoint; and either no entry was accepted so far, or the
    filtered timestamp is greater than the last accepted one and the wait
    for the checkpoint of the last accepted entry returns. Otherwise a
    round that returns has called nothing. *)
Theorem mandatory_checkpoint_exactly_when fuel bm now filterLog (st : state) :
  lastOplog bm = None ∨ allEmpty bm = true →
  lastFilterOplog bm = Some filterLog →
  let due :=
    filterFlag World st = true ∧
    filterCheckTs World st + 180 * Second < now ∧
    ExtractMongoTimestamp (ckptOf st)
      < ExtractMongoTimestamp (Timestamp filterLog) - 180 in
  let clear :=
    match lastOplog bm with
    | None => True
    | Some log =>
        Timestamp log < Timestamp filterLog ∧
        is_Some (check fuel true (Timestamp log) (set_filterFlag World false st))
    end in
  (pushes st (Timestamp filterLog) (round fuel bm now st) ↔ due ∧ clear) ∧
  (¬ (due ∧ clear) →
   ∀ st', round fuel bm now st = Done st' →
          calls_of st' = calls_of st ∧ world World st' = world World st).
Proof.
  intros Hbranch Hfilter due clear.
  rewrite (filtered_only_round fuel bm now filterLog st Hbranch Hfilter).
  unfold filtered_round.
  destruct (filterFlag World st) eqn:Hflag; cbn [negb].
  2: { split.
       - split; [| intros [(Hf & _) _]; discriminate].
         intros Hp. exfalso. revert Hp. apply quiet_round_pushes_nothing. reflexivity.
       - intros _ st' [= <-]. split; reflexivity. }
  destruct (Z.gtb_spec now
              (filterCheckTs World st + FilterCheckpointCheckInterval * Second))
    as [Hlate|Hearly]; cbn [negb].
  2: { split.
       - split.
         + intros Hp. exfalso. revert Hp. apply quiet_round_pushes_nothing. reflexivity.
         + intros [(_ & Hl & _) _]. unfold FilterCheckpointCheckInterval in Hearly. lia.
       - intros _ st' [= <-]. split; reflexivity. }
  destruct (Z.gtb_spec
              (ExtractMongoTimestamp (Timestamp filterLog) - FilterCheckpointGap)
              (ExtractMongoTimestamp (ckptOf st))) as [Hgap|Hnogap].
  2: { split.
       - split.
         + intros Hp. exfalso. revert Hp. apply quiet_round_pushes_nothing. reflexivity.
         + intros [(_ & _ & Hg) _]. unfold FilterCheckpointGap in Hnogap. lia.
       - intros _ st' [= <-]. split; reflexivity. }
  assert due as Hdue.
  { unfold due, FilterCheckpointCheckInterval, FilterCheckpointGap in *.
    repeat split; [exact Hlate | lia]. }
  unfold clear. destruct (lastOplog bm) as [log|].
  - destruct (Z.leb_spec (Timestamp filterLog) (Timestamp log)) as [Hold|Hnew].
    { split.
      - split.
        + intros Hp. exfalso. revert Hp. apply crashed_round_pushes_nothing.
        + intros [_ [Hlt _]]. lia.
      - intros _ st' Hdone. discriminate. }
    destruct (check fuel true (Timestamp log) (set_filterFlag World false st))
      as [st1|] eqn:Hcheck.
    + split.
      * split; [intros _; split; [exact Hdue | split; [exact Hnew | eauto]] |].
        intros _. apply check_extends in Hcheck as [added Hadded].
        exists (do_call World perform (CallCheckpoint false (Timestamp filterLog))
                  (do_call World perform
                     (CallUpdateQueryTimestamp (Timestamp filterLog)) st1)),
               (added ++ [CallUpdateQueryTimestamp (Timestamp filterLog)]).
        split; [reflexivity |]. cbn [do_call made]. rewrite Hadded.
        cbn [set_filterFlag made]. rewrite <- !app_assoc. reflexivity.
      * intros Hnot. exfalso. apply Hnot. split; [exact Hdue | split; [exact Hnew | eauto]].
    + split.
      * split.
        -- intros Hp. exfalso. revert Hp. apply spinning_round_pushes_nothing.
        -- intros [_ [_ [x Hx]]]. discriminate.
      * intros _ st' Hdone. discriminate.
  - split.
    + split; [intros _; split; [exact Hdue | exact I] |].
      intros _.
      exists (do_call World perform (CallCheckpoint false (Timestamp filterLog))
                (do_call World perform
                   (CallUpdateQueryTimestamp (Timestamp filterLog))
                   (set_filterFlag World false st))),
             [CallUpdateQueryTimestamp (Timestamp filterLog)].
      split; [reflexivity |]. cbn [do_call made set_filterFlag].
      rewrite <- app_assoc. reflexivity.
    + intros Hnot. exfalso. apply Hnot. split; [exact Hdue | exact I].
Qed.

End Filtered.

Lemma mandatory_checkpoint_exactly_when_witness :
  pushes_checkpoint Examples.World Examples.filtered_since_0 (Examples.mkTs 10200 5)
    (batcher_round Examples.small_conf Examples.World Examples.ckpt Examples.perform
       Examples.dispatchBatches 10 Examples.only_filtered (181 * Second)
       Examples.filtered_since_0).
Proof.
  apply (mandatory_checkpoint_exactly_when Examples.small_conf Examples.World
           Examples.ckpt Examples.perform Examples.dispatchBatches 10
           Examples.only_filtered (181 * Second) (Examples.log_at (Examples.mkTs 10200 5))
           Examples.filtered_since_0).
  - left. reflexivity.
  - reflexivity.
  - repeat split.
Defined.

(** The checkpoint is at second 10000 and the filtered entry of second
    10200; only filtered entries were seen since wall time 0. When exactly
    180 seconds have passed, the round returns without a call; and when
    an entry of second 10300 was accepted before, the round of second 200
    ends the process instead of flushing. *)
Lemma mandatory_checkpoint_not_pushed :
  (filterFlag Examples.World Examples.filtered_since_0 = true ∧
   180 * Second - filterCheckTs Examples.World Examples.filtered_since_0 >= 180 * Second ∧
   ExtractMongoTimestamp (Examples.mkTs 10200 5)
     - ExtractMongoTimestamp (Examples.ckpt (world Examples.World Examples.filtered_since_0))
     > 180) ∧
  batcher_round Examples.small_conf Examples.World Examples.ckpt Examples.perform
    Examples.dispatchBatches 10 Examples.only_filtered (180 * Second)
    Examples.filtered_since_0
  = Done Examples.filtered_since_0 ∧
  batcher_round Examples.small_conf Examples.World Examples.ckpt Examples.perform
    Examples.dispatchBatches 10 Examples.filtered_after_accepted (200 * Second)
    Examples.filtered_since_0
  = Crashed.
Proof. repeat split; vm_compute; first [reflexivity | discriminate]. Qed.

End BatcherFacts.

(** ** The document syncer *)

Module DocSyncerFacts.
Import Bson DocSyncer.

(** *** [DBSyncer.Start] *)

Section Namespaces.
Variable Transform : NS → NS.
Variable collectionSync : NS → NS → option Error.

Local Abbreviation failed := (failures Transform collectionSync).
Local Abbreviation body := (sync_namespace Transform collectionSync).

Lemma failures_snoc finished n :
  failed (finished ++ [n])
  = failed finished
    ++ match collectionSync n (Transform n) with
       | Some err => [DocumentSyncerFailed n (Transform n) err]
       | None => []
       end.
Proof.
  unfold failures. rewrite omap_app. f_equal. cbn.
  destruct (collectionSync n (Transform n)); reflexivity.
Qed.

(** The workers' loop leaves in [syncError] the last failure. *)
Lemma workers_keep_last_failure finished :
  fold_left body finished (None, []) = (last (failed finished), finished).
Proof.
  induction finished as [|n finished IH] using rev_ind; [reflexivity |].
  rewrite fold_left_app, IH, failures_snoc. cbn [fold_left sync_namespace].
  destruct (collectionSync n (Transform n)) as [err|].
  - rewrite last_snoc. reflexivity.
  - rewrite app_nil_r. reflexivity.
Qed.

Lemma no_failure finished :
  failed finished = [] ↔
  ∀ n, n ∈ finished → collectionSync n (Transform n) = None.
Proof.
  induction finished as [|n finished IH].
  - split; [intros _ n Hn; inversion Hn | reflexivity].
  - unfold failures in *. cbn [omap list_omap].
    destruct (collectionSync n (Transform n)) as [err|] eqn:Hn; cbn.
    + split; [discriminate |]. intros H.
      specialize (H n ltac:(left)). congruence.
    + rewrite IH. split.
      * intros H m Hm. inversion Hm; subst; [exact Hn | apply H; assumption].
      * intros H m Hm. apply H. right. exact Hm.
Qed.


End Namespaces.



(** *** The executors of a collection *)

Section Draining.
Variable Insert : list Raw → option Error.

Local Abbreviation step := (exec_step Insert).

Lemma held_cons exec execs : held (exec :: execs) = (holds exec + held execs)%nat.
Proof. reflexivity. Qed.

(** Replacing an executor changes the number of held batches by the
    difference of the two. *)
Lemma held_insert execs :
  ∀ i old new,
    execs !! i = Some old →
    (held (<[i := new]> execs) + holds old = held execs + holds new)%nat.
Proof.
  induction execs as [|exec execs IH]; intros i old new Hlook; [discriminate |].
  destruct i as [|i]; cbn in Hlook.
  - injection Hlook as ->. cbn [insert list_insert]. rewrite !held_cons. lia.
  - change (<[S i := new]> (exec :: execs)) with (exec :: <[i := new]> execs).
    rewrite !held_cons. specialize (IH i old new Hlook). lia.
Qed.



Lemma exec_receive_inv i ce ce' :
  exec_receive i ce = Some ce' →
  ∃ e docs rest,
    executors ce !! i = Some {| error := e; holding := None |} ∧
    docBatch ce = docs :: rest ∧
    ce' = {| ns := ns ce;
             executors := <[i := {| error := e; holding := Some docs |}]> (executors ce);
             wg := wg ce; docBatch := rest; capacity := capacity ce;
             inserts := inserts ce |}.
Proof.
  unfold exec_receive.
  destruct (executors ce !! i) as [[e [held_docs|]]|]; try discriminate;
    destruct (docBatch ce) as [|docs rest]; try discriminate.
  intros [= <-]. exists e, docs, rest. repeat split.
Qed.

Lemma exec_handle_inv i ce ce' :
  exec_handle Insert i ce = Some ce' →
  ∃ e docs,
    executors ce !! i = Some {| error := e; holding := Some docs |} ∧
    wg ce' = wg ce - 1 ∧ docBatch ce' = docBatch ce ∧
    capacity ce' = capacity ce ∧ ns ce' = ns ce ∧
    ∃ e', executors ce' = <[i := {| error := e'; holding := None |}]> (executors ce) ∧
          match e with
          | Some _ => e' = e ∧ inserts ce' = inserts ce
          | None => e' = doSync Insert (ns ce) docs
          end.
Proof.
  unfold exec_handle.
  destruct (executors ce !! i) as [[e [docs|]]|]; try discriminate.
  destruct e as [e|]; intros [= <-].
  - exists (Some e), docs. cbn. repeat split. exists (Some e). repeat split.
  - exists None, docs. cbn. repeat split.
    exists (doSync Insert (ns ce) docs). repeat split.
Qed.


Lemma step_consistent parallel ce ce' :
  consistent parallel ce → step ce ce' → consistent parallel ce'.
Proof.
  intros (Hlen & Hcap & Hfull & Hwg) [i H|i H]; unfold consistent.
  - apply exec_receive_inv in H as (e & docs & rest & Hlook & Hbatch & ->).
    cbn [executors docBatch wg capacity].
    rewrite length_insert. rewrite Hbatch in Hfull, Hwg. cbn [length] in Hfull, Hwg.
    pose proof (held_insert (executors ce) i _
                  {| error := e; holding := Some docs |} Hlook) as Hheld.
    unfold holds in Hheld. cbn [holding] in Hheld.
    repeat split; [assumption | assumption | lia | lia].
  - apply exec_handle_inv in H
      as (e & docs & Hlook & Hwg' & Hbatch & Hcap' & _ & e' & Hexecs & _).
    rewrite Hwg', Hbatch, Hcap', Hexecs, length_insert.
    pose proof (held_insert (executors ce) i _
                  {| error := e'; holding := None |} Hlook) as Hheld.
    unfold holds in Hheld. cbn [holding] in Hheld.
    repeat split; [assumption | assumption | assumption | lia].
Qed.

Lemma reachable_consistent toNS parallel ce :
  reachable Insert toNS parallel ce → consistent parallel ce.
Proof.
  induction 1 as [| ce docs ce' _ IH Hsync | ce ce' _ IH Hstep].
  - assert (held (replicate parallel {| error := None; holding := None |}) = O) as Hidle.
    { induction parallel as [|p IHp]; [reflexivity |].
      cbn [replicate]. rewrite held_cons, IHp. reflexivity. }
    unfold consistent, Start. cbn [executors docBatch wg capacity length].
    rewrite length_replicate, Hidle. repeat split; lia.
  - destruct IH as (Hlen & Hcap & Hfull & Hwg). unfold Sync in Hsync.
    destruct (Nat.eqb (length docs) 0).
    + injection Hsync as <-. repeat split; assumption.
    + destruct (Nat.ltb_spec (length (docBatch ce)) (capacity ce)); [| discriminate].
      injection Hsync as <-. unfold consistent.
      cbn [executors docBatch wg capacity]. rewrite length_app. cbn [length].
      repeat split; [assumption | assumption | lia | lia].
  - eapply step_consistent; eassumption.
Qed.







End Draining.



End DocSyncerFacts.

(** ** The fetching pipeline: order, bounds, conservation *)

Module PipelineFacts.
Import Utils Bson Oplog Syncer Pipeline.

(** X1. A round of the deserializer of partition [index] moves the oldest
    raw batch of that partition to the end of its logs queue, entry by
    entry: the bytes the partition holds stay the same, in the same order;
    every parsed entry records the size of its raw bytes; and the other
    partitions, the buffer and the position are left alone. *)
Theorem deserializer_keeps_partition_order Unmarshal index sync sync' :
  length (logsQueue sync) = length (pendingQueue sync) →
  deserializer Unmarshal index sync = Pushed sync' →
  partition_bytes index sync' = partition_bytes index sync ∧
  (∃ batch rest,
     pendingQueue sync !! index = Some (batch :: rest) ∧
     pendingQueue sync' !! index = Some rest ∧
     logsQueue sync' !! index
       = (λ q, q ++ [map (deserialize Unmarshal) batch]) <$> logsQueue sync !! index ∧
     Forall (λ g, RawSize (Parsed g) = Z.of_nat (length (Raw g)))
       (map (deserialize Unmarshal) batch)) ∧
  (∀ j, j ≠ index →
     pendingQueue sync' !! j = pendingQueue sync !! j ∧
     logsQueue sync' !! j = logsQueue sync !! j) ∧
  length (pendingQueue sync') = length (pendingQueue sync) ∧
  length (logsQueue sync') = length (logsQueue sync) ∧
  buffer sync' = buffer sync ∧
  nextQueuePosition sync' = nextQueuePosition sync.
Proof.
  intros Hlen Hdes. unfold deserializer in Hdes.
  destruct (pendingQueue sync !! index) as [[|batch rest]|] eqn:Hpend; try discriminate.
  destruct (Nat.eqb (length batch) 0); [discriminate |].
  injection Hdes as <-.
  assert (index < length (logsQueue sync))%nat as Hin.
  { rewrite Hlen. eapply lookup_lt_Some, Hpend. }
  destruct (lookup_lt_is_Some_2 _ _ Hin) as [logs Hlogs].
  cbn [pendingQueue logsQueue set_logsQueue set_pendingQueue buffer nextQueuePosition].
  split; [| split; [| split; [| split; [| split; [| split]]]]].
  - unfold partition_bytes.
    cbn [pendingQueue logsQueue set_logsQueue set_pendingQueue].
    rewrite list_lookup_alter_eq, Hlogs, list_lookup_insert_eq, Hpend
      by (eapply lookup_lt_Some, Hpend).
    cbn [default fmap option_fmap option_map]. unfold id.
    rewrite map_app, <- app_assoc. f_equal. cbn [map app].
    f_equal. rewrite map_map. reflexivity.
  - exists batch, rest. split; [reflexivity |].
    split; [apply list_lookup_insert_eq; eapply lookup_lt_Some, Hpend |].
    split; [apply list_lookup_alter_eq |].
    clear. induction batch as [|rawLog batch IH]; constructor; [reflexivity | exact IH].
  - intros j Hj. split.
    + apply list_lookup_insert_ne. congruence.
    + apply list_lookup_alter_ne. congruence.
  - apply length_insert.
  - apply length_alter.
  - reflexivity.
  - reflexivity.
Qed.

Lemma deserializer_keeps_partition_order_witness :
  ∃ sync',
    deserializer Examples.parse 1
      (set_pendingQueue [[]; [[Examples.raw Byte.x01; Examples.raw Byte.x02]]; []; []]
         Examples.started_syncer) = Pushed sync' ∧
    partition_bytes 1 sync' = [[[Byte.x01]; [Byte.x02]]].
Proof.
  eexists. split; [reflexivity |].
  destruct (deserializer_keeps_partition_order Examples.parse 1
              (set_pendingQueue
                 [[]; [[Examples.raw Byte.x01; Examples.raw Byte.x02]]; []; []]
                 Examples.started_syncer) _ eq_refl eq_refl) as [Hbytes _].
  rewrite Hbytes. reflexivity.
Defined.

(** *** Bounds *)

Lemma transfer_bounded conf log sync pushed sync' :
  pendingQueue sync ≠ [] →
  Z.of_nat (length (buffer sync)) < FetcherBufferCapacity conf →
  batches_within (FetcherBufferCapacity conf) (pendingQueue sync) →
  transfer conf log sync = Some (pushed, sync') →
  Z.of_nat (length (buffer sync')) < FetcherBufferCapacity conf ∧
  batches_within (FetcherBufferCapacity conf) (pendingQueue sync') ∧
  logsQueue sync' = logsQueue sync.
Proof.
  intros Hq Hbuf Hpend Heq.
  rewrite (FetchFacts.transfer_cases conf log sync ltac:(lia) Hq) in Heq.
  assert (Z.of_nat (length (buffer sync ++ option_list log))
          ≤ FetcherBufferCapacity conf) as Hnew.
  { rewrite length_app. destruct log; simpl length; lia. }
  destruct (Z.geb_spec (Z.of_nat (length (buffer sync ++ option_list log)))
              (FetcherBufferCapacity conf)) as [Hfull|Hroom];
    cbn [orb] in Heq.
  - injection Heq as <- <-. cbn. split; [lia |]. split; [| reflexivity].
    apply Forall_alter; [exact Hpend |]. intros q _ Hq'.
    apply Forall_app. split; [exact Hq' |]. constructor; [exact Hnew | constructor].
  - destruct ((match log with Some _ => false | None => true end)
              && negb (Nat.eqb (length (buffer sync ++ option_list log)) 0));
      injection Heq as <- <-; cbn.
    + split; [lia |]. split; [| reflexivity].
      apply Forall_alter; [exact Hpend |]. intros q _ Hq'.
      apply Forall_app. split; [exact Hq' |]. constructor; [exact Hnew | constructor].
    + split; [lia |]. split; [exact Hpend | reflexivity].
Qed.

Lemma next_bounded conf answer sync pushed sync' :
  pendingQueue sync ≠ [] →
  Z.of_nat (length (buffer sync)) < FetcherBufferCapacity conf →
  batches_within (FetcherBufferCapacity conf) (pendingQueue sync) →
  next conf answer sync = Some (pushed, sync') →
  Z.of_nat (length (buffer sync')) < FetcherBufferCapacity conf ∧
  batches_within (FetcherBufferCapacity conf) (pendingQueue sync') ∧
  logsQueue sync' = logsQueue sync.
Proof.
  intros Hq Hbuf Hpend Heq. destruct answer as [[l|] err]; unfold next in Heq.
  - apply transfer_bounded in Heq; assumption.
  - destruct (is_capped err).
    + injection Heq as <- <-. repeat split; assumption.
    + destruct (negb (is_nil err) && negb (is_timeout err));
        apply transfer_bounded in Heq; assumption.
Qed.

(** X2. With [FetcherBufferCapacity >= 1], in every state of the pipeline
    the buffer holds fewer entries than the capacity (it is pushed when it
    reaches it), and no batch of a pending queue or of a logs queue holds
    more entries than the capacity. *)
Theorem pipeline_batches_bounded conf Unmarshal sync :
  1 ≤ FetcherBufferCapacity conf →
  pipeline conf Unmarshal sync →
  Z.of_nat (length (buffer sync)) < FetcherBufferCapacity conf ∧
  batches_within (FetcherBufferCapacity conf) (pendingQueue sync) ∧
  batches_within (FetcherBufferCapacity conf) (logsQueue sync).
Proof.
  intros Hcap Hpipe. induction Hpipe as
    [sync Hbuf | sync answer pushed sync' Hpre IH Hnext | sync c _ IH
    | sync index sync' _ IH Hdes | sync index batch rest _ IH Hlook].
  - unfold startDeserializer, batches_within. cbn. rewrite Hbuf. cbn.
    split; [lia |]. split; apply Forall_replicate; constructor.
  - destruct IH as (Hbuf & Hpend & Hlogs).
    destruct (FetchFacts.pipeline_sound conf Unmarshal sync Hcap Hpre) as (Hq & _).
    destruct (next_bounded conf answer sync pushed sync' Hq Hbuf Hpend Hnext)
      as (Hbuf' & Hpend' & Hsame).
    rewrite Hsame. repeat split; assumption.
  - exact IH.
  - destruct IH as (Hbuf & Hpend & Hlogs). unfold deserializer in Hdes.
    destruct (pendingQueue sync !! index) as [[|batch rest]|] eqn:Hlook; try discriminate.
    destruct (Nat.eqb (length batch) 0); [discriminate |].
    injection Hdes as <-. cbn.
    pose proof (Forall_lookup_1 _ _ _ _ Hpend Hlook) as Hbatches.
    inversion Hbatches as [|? ? Hbatch Hrest]; subst.
    split; [exact Hbuf |]. split.
    + apply Forall_insert; assumption.
    + apply Forall_alter; [exact Hlogs |]. intros q _ Hq'.
      apply Forall_app. split; [exact Hq' |].
      constructor; [rewrite length_map; exact Hbatch | constructor].
  - destruct IH as (Hbuf & Hpend & Hlogs). cbn.
    split; [exact Hbuf |]. split; [exact Hpend |].
    pose proof (Forall_lookup_1 _ _ _ _ Hlogs Hlook) as Hbatches.
    inversion Hbatches; subst. apply Forall_insert; assumption.
Qed.

Lemma pipeline_batches_bounded_witness :
  (buffer MoreExamples.flowing_syncer = [Examples.raw Byte.x05] ∧
   pendingQueue MoreExamples.flowing_syncer !! 1%nat
     = Some [[Examples.raw Byte.x03; Examples.raw Byte.x04]] ∧
   length <$> logsQueue MoreExamples.flowing_syncer !! 0%nat = Some 1%nat) ∧
  Z.of_nat (length (buffer MoreExamples.flowing_syncer))
    < FetcherBufferCapacity Examples.small_conf ∧
  batches_within (FetcherBufferCapacity Examples.small_conf)
    (pendingQueue MoreExamples.flowing_syncer) ∧
  batches_within (FetcherBufferCapacity Examples.small_conf)
    (logsQueue MoreExamples.flowing_syncer).
Proof.
  split; [repeat split |].
  apply (pipeline_batches_bounded Examples.small_conf Examples.parse
           MoreExamples.flowing_syncer).
  - vm_compute. discriminate.
  - exact FetchFacts.flowing_syncer_in_pipeline.
Defined.

(** *** Conservation *)

Lemma queued_cons {A} (queue : list (list A)) queues :
  queued (queue :: queues) = (sum_list (map length queue) + queued queues)%nat.
Proof. reflexivity. Qed.

Lemma sum_list_snoc (l : list nat) n : sum_list (l ++ [n]) = (sum_list l + n)%nat.
Proof. induction l as [|m l IH]; cbn; [lia | rewrite IH; lia]. Qed.

Lemma queued_push {A} (batch : list A) queues :
  ∀ i, (i < length queues)%nat →
       queued (alter (λ q, q ++ [batch]) i queues)
       = (queued queues + length batch)%nat.
Proof.
  induction queues as [|queue queues IH]; intros i Hi; [cbn in Hi; lia |].
  destruct i as [|i].
  - change (alter (λ q, q ++ [batch]) 0%nat (queue :: queues))
      with ((queue ++ [batch]) :: queues).
    rewrite !queued_cons, map_app. cbn [map]. rewrite sum_list_snoc. lia.
  - change (alter (λ q, q ++ [batch]) (S i) (queue :: queues))
      with (queue :: alter (λ q, q ++ [batch]) i queues).
    rewrite !queued_cons, IH by (cbn in Hi; lia). lia.
Qed.

Lemma transfer_conserves conf log sync pushed sync' :
  transfer conf log sync = Some (pushed, sync') →
  fetched_entries sync'
  = (fetched_entries sync + length (option_list log))%nat.
Proof.
  intros Heq.
  destruct (Z.lt_ge_cases (FetcherBufferCapacity conf) 0) as [Hneg|Hcap].
  { rewrite FetchFacts.transfer_negative_capacity in Heq by exact Hneg. discriminate. }
  destruct (pendingQueue sync) as [|q0 qs] eqn:Hq.
  - unfold transfer in Heq.
    destruct (_ || _) in Heq.
    + destruct log; cbn in Heq; rewrite Hq in Heq; discriminate.
    + injection Heq as <- <-. unfold fetched_entries.
      destruct log; cbn [buffer pendingQueue set_buffer option_list];
        rewrite ?length_app; simpl length; lia.
  - assert (pendingQueue sync ≠ []) as Hne by (rewrite Hq; discriminate).
    rewrite (FetchFacts.transfer_cases conf log sync Hcap Hne) in Heq.
    destruct (_ || _) in Heq; injection Heq as <- <-; unfold fetched_entries;
      cbn [buffer pendingQueue set_buffer set_pendingQueue set_nextQueuePosition].
    + rewrite queued_push.
      * rewrite length_app. simpl length. lia.
      * assert (0 ≤ nextQueuePosition sync mod Z.of_nat (length (pendingQueue sync))
                < Z.of_nat (length (pendingQueue sync))).
        { apply Z.mod_pos_bound. rewrite Hq. cbn [length]. lia. }
        lia.
    + rewrite length_app. lia.
Qed.

Lemma next_conserves conf answer sync pushed sync' :
  next conf answer sync = Some (pushed, sync') →
  Z.of_nat (fetched_entries sync')
  = Z.of_nat (fetched_entries sync) + entries_in [answer].
Proof.
  destruct answer as [[l|] err]; unfold next; intros Heq.
  - rewrite FetchFacts.entries_in_entry. apply transfer_conserves in Heq.
    rewrite Heq. unfold fetched_entries.
    cbn [buffer pendingQueue set_fetchBad set_logsGet].
    simpl (length (option_list _)). lia.
  - rewrite FetchFacts.entries_in_no_entry. destruct (is_capped err).
    + injection Heq as <- <-. lia.
    + destruct (negb (is_nil err) && negb (is_timeout err));
        apply transfer_conserves in Heq; rewrite Heq;
        unfold fetched_entries;
        cbn [buffer pendingQueue set_fetchBad call];
        simpl (length (option_list _)); lia.
Qed.

(** X3. The loop of [poll], with or without rate control, asks the reader
    at most once per round in which the node is master, in order, and loses
    no entry: the entries in the buffer and the pending queues grow by
    exactly the entries the reader gave. A round the rate controller holds
    back asks nothing. *)
Theorem poll_loop_conserves_entries conf TPS masters :
  ∀ rc reader sync sync' reader',
    poll_loop conf TPS masters rc reader sync = Some (sync', reader') →
    ∃ asked, (asked ≤ master_rounds masters)%nat ∧
      reader' = drop asked reader ∧
      Z.of_nat (fetched_entries sync')
      = Z.of_nat (fetched_entries sync) + entries_in (take asked reader) ∧
      (TPS = 0 → asked = master_rounds masters).
Proof.
  induction masters as [|[|] masters IH]; intros rc reader sync sync' reader' Heq.
  - injection Heq as <- <-. exists O. cbn [master_rounds].
    rewrite take_0, drop_0, FetchFacts.entries_in_nil. repeat split; lia.
  - cbn [poll_loop] in Heq.
    destruct (negb (TPS =? 0) && hd false rc) eqn:Hthrottle.
    + apply IH in Heq as (asked & Hle & -> & Hcount & Hall).
      exists asked. cbn [master_rounds]. split; [lia |]. split; [reflexivity |].
      split; [exact Hcount |].
      intros ->. cbn in Hthrottle. discriminate.
    + destruct (next conf (reader_head reader) sync) as [[pushed sync1]|] eqn:Hnext;
        [| discriminate].
      apply IH in Heq as (asked & Hle & -> & Hcount & Hall).
      apply next_conserves in Hnext.
      exists (S asked). cbn [master_rounds]. split; [lia |].
      destruct reader as [|a reader]; cbn [reader_head tl] in *.
      * rewrite drop_nil, take_nil in *. rewrite FetchFacts.entries_in_no_entry in Hnext.
        rewrite FetchFacts.entries_in_nil in *.
        split; [reflexivity |]. split; [lia |]. intros H0. rewrite (Hall H0). reflexivity.
      * rewrite firstn_cons, skipn_cons, (FetchFacts.entries_in_cons a (take _ _)).
        split; [reflexivity |]. split; [lia |]. intros H0. rewrite (Hall H0). reflexivity.
  - injection Heq as <- <-. exists O. cbn [master_rounds].
    rewrite take_0, drop_0, FetchFacts.entries_in_nil. repeat split; lia.
Qed.

Lemma poll_loop_conserves_entries_witness :
  ∃ asked, (asked ≤ 2)%nat ∧
    [] = drop asked Examples.capped_then_entry ∧
    Z.of_nat (fetched_entries
                (set_logsGet 1 (set_buffer [Examples.raw Byte.x02] Examples.started_syncer)))
    = Z.of_nat (fetched_entries Examples.started_syncer)
      + entries_in (take asked Examples.capped_then_entry) ∧
    (0 = 0 → asked = 2%nat).
Proof.
  apply (poll_loop_conserves_entries Examples.small_conf 0 [true; true; false] []
           Examples.capped_then_entry Examples.started_syncer).
  reflexivity.
Defined.

End PipelineFacts.

(** ** The batcher loop: crashes, stalls and the timer of filtered rounds *)

Module BatcherRoundFacts.
Import Utils Bson Oplog Syncer.

Section Rounds.
Variable conf : Options.
Variable World : Type.
Variable ckptGet : World → Z.
Variable perform : Call → World → World.
Variable dispatchBatches : list (list GenericOplog) → World → bool * World.

Local Abbreviation state := (BatcherState World).
Local Abbreviation turn := (reflush World perform).
Local Abbreviation check := (checkCheckpointUpdate conf World ckptGet perform).
Local Abbreviation ckptOf st := (ckptGet (world World st)).
Local Abbreviation calls_of st := (made World st).
Local Abbreviation flag st := (filterFlag World st).
Local Abbreviation since st := (filterCheckTs World st).
Local Abbreviation round := (batcher_round conf World ckptGet perform dispatchBatches).
Local Abbreviation filtered := (filtered_round conf World ckptGet perform).
Local Abbreviation pushes := (pushes_checkpoint World).

Lemma turns_keep_timer n (st : state) :
  flag (Nat.iter n turn st) = flag st ∧ since (Nat.iter n turn st) = since st.
Proof.
  induction n as [|n [IHflag IHsince]]; [split; reflexivity |].
  rewrite Nat.iter_succ. unfold reflush at 1 3. cbn [do_call filterFlag filterCheckTs].
  split; assumption.
Qed.

Lemma check_keeps_timer fuel barrier newestTs (st st' : state) :
  check fuel barrier newestTs st = Some st' →
  flag st' = flag st ∧ since st' = since st.
Proof.
  unfold checkCheckpointUpdate.
  destruct (barrier && (newestTs >? 0) && (WorkerNum conf >? 1)).
  - intros Heq. apply BatcherFacts.spin_returns in Heq as (n & _ & -> & _).
    apply turns_keep_timer.
  - intros [= <-]. split; reflexivity.
Qed.

Lemma check_without_guard fuel barrier newestTs (st : state) :
  barrier = false ∨ newestTs ≤ 0 ∨ WorkerNum conf ≤ 1 →
  check fuel barrier newestTs st = Some st.
Proof.
  intros Hguard. unfold checkCheckpointUpdate.
  destruct barrier; [| reflexivity]. cbn [andb].
  destruct (Z.gtb_spec newestTs 0); [| reflexivity]. cbn [andb].
  destruct (Z.gtb_spec (WorkerNum conf) 1); [| reflexivity].
  destruct Hguard as [? | [? | ?]]; [discriminate | lia | lia].
Qed.

(** A round that dispatches ends the run of filtered rounds. *)
Lemma dispatching_round_clears_flag fuel bm now log (st st' : state) :
  lastOplog bm = Some log → allEmpty bm = false →
  round fuel bm now st = Done st' →
  flag st' = false.
Proof.
  intros Hlog Hempty Hround. unfold batcher_round in Hround.
  rewrite Hlog, Hempty in Hround.
  destruct (do_dispatch World dispatchBatches (batchedOplog bm) st)
    as [worked st1] eqn:Hdispatch.
  destruct (check fuel (barrier bm) (Timestamp log) _) as [st2|] eqn:Hcheck;
    [| discriminate].
  injection Hround as <-. apply check_keeps_timer in Hcheck as [-> _].
  reflexivity.
Qed.

(** X4. A round of the batcher loop ends the process exactly when: there
    is nothing to dispatch, an entry was accepted before, the filtered
    entry is not newer than it, and the mandatory flush is due (only
    filtered rounds for more than 180 seconds of wall time, and the seconds
    of the checkpoint more than 180 behind those of the filtered entry). *)
Theorem batcher_round_crashes_exactly_when fuel bm now (st : state) :
  batcher_round conf World ckptGet perform dispatchBatches fuel bm now st = Crashed ↔
  ∃ log filterLog,
    lastOplog bm = Some log ∧ allEmpty bm = true ∧
    lastFilterOplog bm = Some filterLog ∧
    flag st = true ∧
    since st + 180 * Second < now ∧
    ExtractMongoTimestamp (ckptOf st)
      < ExtractMongoTimestamp (Timestamp filterLog) - 180 ∧
    Timestamp filterLog ≤ Timestamp log.
Proof.
  unfold batcher_round. split.
  - destruct (lastOplog bm) as [log|] eqn:Hlog.
    + destruct (allEmpty bm) eqn:Hempty.
      * destruct (lastFilterOplog bm) as [filterLog|]; [| discriminate].
        unfold filtered_round.
        destruct (flag st) eqn:Hflag; cbn [negb]; [| discriminate].
        destruct (Z.gtb_spec now (since st + FilterCheckpointCheckInterval * Second));
          cbn [negb]; [| discriminate].
        destruct (Z.gtb_spec
                    (ExtractMongoTimestamp (Timestamp filterLog) - FilterCheckpointGap)
                    (ExtractMongoTimestamp (ckptOf st))); [| discriminate].
        destruct (Z.leb_spec (Timestamp filterLog) (Timestamp log)).
        -- intros _. exists log, filterLog.
           unfold FilterCheckpointCheckInterval, FilterCheckpointGap in *.
           repeat split; [assumption | lia | assumption].
        -- destruct (check fuel true (Timestamp log) _); discriminate.
      * destruct (do_dispatch World dispatchBatches (batchedOplog bm) st) as [worked st1].
        destruct (check fuel (barrier bm) (Timestamp log) _); discriminate.
    + destruct (lastFilterOplog bm) as [filterLog|]; [| discriminate].
      unfold filtered_round.
      destruct (flag st); cbn [negb]; [| discriminate].
      destruct (negb _); [discriminate |].
      destruct (_ >? _); discriminate.
  - intros (log & filterLog & -> & -> & -> & Hflag & Hlate & Hgap & Hold).
    unfold filtered_round. rewrite Hflag. cbn [negb].
    destruct (Z.gtb_spec now (since st + FilterCheckpointCheckInterval * Second));
      cbn [negb]; [| unfold FilterCheckpointCheckInterval in *; lia].
    destruct (Z.gtb_spec
                (ExtractMongoTimestamp (Timestamp filterLog) - FilterCheckpointGap)
                (ExtractMongoTimestamp (ckptOf st)));
      [| unfold FilterCheckpointGap in *; lia].
    destruct (Z.leb_spec (Timestamp filterLog) (Timestamp log)); [reflexivity | lia].
Qed.

(** X5. Only the wait for a barrier's checkpoint can keep a round of the
    batcher loop from returning: with one worker no round waits, a round
    that dispatches a batch without barrier returns (and ends the run of
    filtered rounds), and so does a round in which no entry was accepted so
    far; this holds whatever the fuel of the model. *)
Theorem batcher_round_waits_only_for_barrier fuel bm now (st : state) :
  (WorkerNum conf ≤ 1 → batcher_round conf World ckptGet perform dispatchBatches fuel bm now st ≠ Spinning) ∧
  (∀ log, lastOplog bm = Some log → allEmpty bm = false → barrier bm = false →
     ∃ st', batcher_round conf World ckptGet perform dispatchBatches fuel bm now st = Done st' ∧ flag st' = false) ∧
  (lastOplog bm = None → ∃ st', batcher_round conf World ckptGet perform dispatchBatches fuel bm now st = Done st').
Proof.
  split; [| split].
  - intros Hone. unfold batcher_round.
    destruct (lastOplog bm) as [log|]; [destruct (allEmpty bm) |].
    + destruct (lastFilterOplog bm) as [filterLog|]; [| discriminate].
      unfold filtered_round.
      destruct (flag st); cbn [negb]; [| discriminate].
      destruct (negb _); [discriminate |].
      destruct (_ >? _); [| discriminate].
      destruct (_ <=? _); [discriminate |].
      rewrite check_without_guard by (right; right; exact Hone). discriminate.
    + destruct (do_dispatch World dispatchBatches (batchedOplog bm) st) as [worked st1].
      rewrite check_without_guard by (right; right; exact Hone). discriminate.
    + destruct (lastFilterOplog bm) as [filterLog|]; [| discriminate].
      unfold filtered_round.
      destruct (flag st); cbn [negb]; [| discriminate].
      destruct (negb _); [discriminate |].
      destruct (_ >? _); discriminate.
  - intros log Hlog Hempty Hbarrier.
    assert (∃ st', round fuel bm now st = Done st') as [st' Hround].
    { unfold batcher_round. rewrite Hlog, Hempty, Hbarrier.
      destruct (do_dispatch World dispatchBatches (batchedOplog bm) st) as [worked st1].
      rewrite check_without_guard by (left; reflexivity). eauto. }
    exists st'. split; [exact Hround |].
    eapply dispatching_round_clears_flag; eassumption.
  - intros Hlog. unfold batcher_round. rewrite Hlog.
    destruct (lastFilterOplog bm) as [filterLog|]; [| eauto].
    unfold filtered_round.
    destruct (flag st); cbn [negb]; [| eauto].
    destruct (negb _); [eauto |].
    destruct (_ >? _); eauto.
Qed.

(** A mandatory flush needs the timer: the flag set, and more than 180
    seconds since it was set. *)
Lemma push_needs_timer fuel log filterLog now ts (st : state) :
  pushes st ts (filtered fuel log filterLog now st) →
  flag st = true ∧ since st + 180 * Second < now.
Proof.
  unfold filtered_round.
  destruct (flag st) eqn:Hflag; cbn [negb].
  2: { intros Hp. exfalso. revert Hp.
       apply BatcherFacts.quiet_round_pushes_nothing. reflexivity. }
  destruct (Z.gtb_spec now (since st + FilterCheckpointCheckInterval * Second))
    as [Hlate|Hearly]; cbn [negb].
  2: { intros Hp. exfalso. revert Hp.
       apply BatcherFacts.quiet_round_pushes_nothing. reflexivity. }
  intros _. unfold FilterCheckpointCheckInterval in Hlate. split; [reflexivity | lia].
Qed.

(** X6. After a round that dispatched entries, the first round with only
    filtered entries calls nothing: it starts the timer at its own wall
    time. A later such round can flush the checkpoint only when more than
    [FilterCheckpointCheckInterval = 180] seconds have passed since that
    wall time. *)
Theorem filtered_timer_restarts_after_dispatch
    fuel1 bm1 now1 log1 fuel2 bm2 now2 filterLog2 (st0 st1 : state) :
  lastOplog bm1 = Some log1 → allEmpty bm1 = false →
  round fuel1 bm1 now1 st0 = Done st1 →
  lastOplog bm2 = None ∨ allEmpty bm2 = true →
  lastFilterOplog bm2 = Some filterLog2 →
  ∃ st2,
    round fuel2 bm2 now2 st1 = Done st2 ∧
    calls_of st2 = calls_of st1 ∧ world World st2 = world World st1 ∧
    flag st2 = true ∧ since st2 = now2 ∧
    ∀ fuel3 bm3 now3 filterLog3,
      lastOplog bm3 = None ∨ allEmpty bm3 = true →
      lastFilterOplog bm3 = Some filterLog3 →
      pushes st2 (Timestamp filterLog3) (round fuel3 bm3 now3 st2) →
      now2 + 180 * Second < now3.
Proof.
  intros Hlog1 Hempty1 Hround1 Hbranch2 Hfilter2.
  pose proof (dispatching_round_clears_flag fuel1 bm1 now1 log1 st0 st1
                Hlog1 Hempty1 Hround1) as Hflag.
  rewrite (BatcherFacts.filtered_only_round conf World ckptGet perform dispatchBatches
             fuel2 bm2 now2 filterLog2 st1 Hbranch2 Hfilter2).
  unfold filtered_round at 1. rewrite Hflag. cbn [negb].
  eexists. split; [reflexivity |].
  cbn [set_filterCheckTs set_filterFlag made world filterFlag filterCheckTs].
  repeat split.
  intros fuel3 bm3 now3 filterLog3 Hbranch3 Hfilter3 Hpush.
  rewrite (BatcherFacts.filtered_only_round conf World ckptGet perform dispatchBatches
             fuel3 bm3 now3 filterLog3 _ Hbranch3 Hfilter3) in Hpush.
  apply push_needs_timer in Hpush as [_ Hlate]. exact Hlate.
Qed.

End Rounds.

Lemma filtered_timer_restarts_after_dispatch_witness :
  ∃ st2,
    batcher_round Examples.single_worker_conf Examples.World Examples.ckpt
      Examples.perform Examples.dispatchBatches 0 Examples.only_filtered (5 * Second)
      (set_filterFlag Examples.World false
         (do_call Examples.World Examples.perform (CallCheckpoint true 0)
            (do_call Examples.World Examples.perform
               (CallUpdateQueryTimestamp (Examples.mkTs 10003 0))
               (do_call Examples.World Examples.perform
                  (CallSetLSN (Examples.mkTs 10003 0))
                  (snd (do_dispatch Examples.World Examples.dispatchBatches [[]]
                          Examples.behind))))))
    = Done st2 ∧
    filterFlag Examples.World st2 = true ∧
    filterCheckTs Examples.World st2 = 5 * Second.
Proof.
  destruct (filtered_timer_restarts_after_dispatch Examples.single_worker_conf
              Examples.World Examples.ckpt Examples.perform Examples.dispatchBatches
              0 Examples.barrier_batch 0 (Examples.log_at (Examples.mkTs 10003 0))
              0 Examples.only_filtered (5 * Second)
              (Examples.log_at (Examples.mkTs 10200 5))
              Examples.behind _ eq_refl eq_refl eq_refl (or_introl eq_refl) eq_refl)
    as (st2 & Hround & _ & _ & Hflag & Hsince & _).
  exists st2. split; [exact Hround | split; assumption].
Defined.

End BatcherRoundFacts.

(** ** The coordinator: modes and the start of a run *)

Module RunFacts.
Import Utils Coordinator.

(** X7. When the configured mode is [all], the timestamps of the sources
    are at hand and every stored checkpoint is ahead of its source's
    oldest timestamp, [Run] copies no document: it starts the oplog
    replication alone, from the configured start position, and returns
    what that start returns. *)
Theorem Run_caught_up_skips_full_sync (env : Env) (r : AllTimestamp) :
  sanitizeMongoDB env = None →
  SyncMode env = SYNCMODE_ALL →
  timestampsAtSelect env = inr r →
  map_Forall (λ replName ts, Oldest ts < ckptTs env replName) (tsMap r) →
  Run env =
    ([OplogReplication (ContextStartPosition env) (ContextStartPosition env)],
     startOplogReplication env (ContextStartPosition env) (ContextStartPosition env)).
Proof.
  intros Hsan Hmode Hfetch Hcaught.
  apply CoordinatorFacts.needFull_false_caught_up in Hcaught.
  unfold Run. rewrite Hsan, Hmode, Hfetch. unfold selectSyncMode.
  change (negb (String.eqb SYNCMODE_ALL SYNCMODE_ALL)) with false. cbv iota zeta.
  rewrite Hcaught. cbv iota.
  change (String.eqb SYNCMODE_OPLOG SYNCMODE_ALL) with false.
  change (String.eqb SYNCMODE_OPLOG SYNCMODE_DOCUMENT) with false.
  change (String.eqb SYNCMODE_OPLOG SYNCMODE_OPLOG) with true. cbv iota zeta.
  destruct (startOplogReplication env (ContextStartPosition env) (ContextStartPosition env));
    reflexivity.
Qed.

Lemma caught_up_env_ahead :
  map_Forall (λ replName ts, Oldest ts < Examples.mkTs 300 0)
    (tsMap Examples.one_source_after_full).
Proof.
  unfold Examples.one_source_after_full. cbn [tsMap].
  apply map_Forall_insert_2; [reflexivity | apply map_Forall_empty].
Qed.

Lemma Run_caught_up_skips_full_sync_witness :
  Run MoreExamples.caught_up_env =
    ([OplogReplication (ContextStartPosition MoreExamples.caught_up_env)
        (ContextStartPosition MoreExamples.caught_up_env)],
     startOplogReplication MoreExamples.caught_up_env
       (ContextStartPosition MoreExamples.caught_up_env)
       (ContextStartPosition MoreExamples.caught_up_env)).
Proof.
  apply (Run_caught_up_skips_full_sync MoreExamples.caught_up_env
           Examples.one_source_after_full);
    [reflexivity | reflexivity | reflexivity | exact caught_up_env_ahead].
Defined.

(** The mode [selectSyncMode] answers is the configured one, or [oplog]
    in place of [all]; it never answers an error. *)
Lemma selectSyncMode_modes ckptTs got syncMode mode fullBeginTs err :
  selectSyncMode ckptTs got syncMode = (mode, fullBeginTs, err) →
  err = None ∧ (mode = syncMode ∨ (syncMode = SYNCMODE_ALL ∧ mode = SYNCMODE_OPLOG)).
Proof.
  unfold selectSyncMode.
  destruct (String.eqb_spec syncMode SYNCMODE_ALL) as [->|Hne]; cbn [negb].
  - destruct got as [e|r].
    + intros [= <- <- <-]. split; [reflexivity | left; reflexivity].
    + cbv zeta. destruct (needFull_loop ckptTs (map_to_list (tsMap r)));
        intros [= <- <- <-]; split; try reflexivity; [left | right]; split; reflexivity.
  - intros [= <- <- <-]. split; [reflexivity | left; reflexivity].
Qed.

(** X8. Whatever the environment, [Run] starts the oplog replication
    after a document replication only when that one returned no error, the
    timestamps after it could be fetched, and the seconds of the oldest one
    are below [fullBeginTs]; then it is started exactly once. With the
    configured mode [document], [Run] never starts the oplog replication. *)
Theorem Run_starts_oplog_replication_last (env : Env) :
  (∀ before start finish after result,
     Run env = (before ++ OplogReplication start finish :: after, result) →
     after = [] ∧
     result = startOplogReplication env start finish ∧
     (before = [] ∨
      (before = [DocumentReplication] ∧
       startDocumentReplication env = None ∧
       ∃ r, timestampsAfterFull env = inr r ∧
            ExtractMongoTimestamp (ts4 r) < start ∧
            finish = TimestampToInt64 (ts2 r)))) ∧
  (SyncMode env = SYNCMODE_DOCUMENT →
   ∀ start finish, OplogReplication start finish ∉ (Run env).1).
Proof.
  assert (∀ (a : action) l1 l2, [a] = l1 ++ a :: l2 → l1 = [] ∧ l2 = []) as Hone.
  { intros a [|b [|c l1]] l2 H; [injection H as <-; split; reflexivity | |];
      discriminate. }
  split.
  - intros before start finish after result. unfold Run.
    destruct (sanitizeMongoDB env); [destruct before; discriminate |].
    destruct (selectSyncMode (ckptTs env) (timestampsAtSelect env) (SyncMode env))
      as [[mode fullBeginTs] err] eqn:Hsel.
    apply selectSyncMode_modes in Hsel as [-> _].
    destruct (String.eqb mode SYNCMODE_ALL).
    { destruct (startDocumentReplication env) eqn:Hdoc.
      { destruct before as [|? [|? ?]]; discriminate. }
      destruct (timestampsAfterFull env) as [e|r] eqn:Hts.
      { destruct before as [|? [|? ?]]; discriminate. }
      cbv zeta.
      destruct (Z.geb_spec (ExtractMongoTimestamp (ts4 r)) fullBeginTs) as [Hge|Hlt].
      { destruct before as [|? [|? ?]]; discriminate. }
      destruct (startOplogReplication env fullBeginTs (TimestampToInt64 (ts2 r)))
        eqn:Hstart;
        (destruct before as [|b1 [|b2 [|b3 before]]]; try discriminate;
         intros [= <- <- <- <- <-]; split; [reflexivity |];
         split; [symmetry; exact Hstart |]; right;
         split; [reflexivity |]; split; [reflexivity |];
         exists r; repeat split; lia). }
    destruct (String.eqb mode SYNCMODE_DOCUMENT).
    { destruct (startDocumentReplication env);
        destruct before as [|? [|? ?]]; discriminate. }
    destruct (String.eqb mode SYNCMODE_OPLOG).
    { cbv zeta.
      destruct (startOplogReplication env (ContextStartPosition env)
                  (ContextStartPosition env)) eqn:Hstart;
        (destruct before as [|b1 [|b2 before]]; try discriminate;
         intros [= <- <- <- <-]; split; [reflexivity |];
         split; [symmetry; exact Hstart |]; left; reflexivity). }
    destruct before; discriminate.
  - intros Hmode start finish. unfold Run.
    destruct (sanitizeMongoDB env); [cbn; apply not_elem_of_nil |].
    rewrite (CoordinatorFacts.selectSyncMode_other (ckptTs env) (timestampsAtSelect env)
               (SyncMode env)) by (rewrite Hmode; discriminate).
    rewrite Hmode.
    change (String.eqb SYNCMODE_DOCUMENT SYNCMODE_ALL) with false.
    change (String.eqb SYNCMODE_DOCUMENT SYNCMODE_DOCUMENT) with true. cbv iota.
    destruct (startDocumentReplication env); cbn [fst];
      intros Hin; apply list_elem_of_singleton in Hin; discriminate.
Qed.

End RunFacts.

(** ** The coordinator: workers and sources *)

Module StartupFacts.
Import Utils Coordinator Startup.

(** *** [startOplogReplication] *)

Lemma workers_of_succ n j i :
  workers_of n j (S i)
  = workers_of n j i ++ (if decide ((i mod n)%nat = j) then [i] else []).
Proof.
  unfold workers_of. rewrite seq_S, filter_app. cbn [Nat.add].
  rewrite filter_cons, filter_nil. reflexivity.
Qed.

Lemma workers_of_shift n j i count :
  workers_of n j (i + count)
  = workers_of n j i ++ filter (λ k, (k mod n)%nat = j) (seq i count).
Proof.
  unfold workers_of. rewrite seq_app, filter_app. reflexivity.
Qed.

Lemma elem_of_workers_of n j i k :
  k ∈ workers_of n j i ↔ (k < i)%nat ∧ (k mod n)%nat = j.
Proof.
  unfold workers_of. rewrite list_elem_of_filter, list_elem_of_In, in_seq.
  split; intros [H1 H2]; split; try assumption; lia.
Qed.

(** The successor of a number, divided by [n]. *)
Lemma succ_div_mod n i :
  n ≠ O →
  ((i mod n = n - 1 ∧ S i / n = S (i / n) ∧ S i mod n = 0) ∨
   (i mod n < n - 1 ∧ S i / n = i / n ∧ S i mod n = S (i mod n)))%nat.
Proof.
  intros Hn.
  pose proof (Nat.div_mod_eq i n) as Hi.
  pose proof (Nat.mod_upper_bound i n Hn) as Hlt.
  destruct (decide (i mod n = n - 1)%nat) as [Hlast|Hnot].
  - left. split; [exact Hlast |]. split.
    + symmetry. apply (Nat.div_unique (S i) n (S (i / n)) 0); nia.
    + symmetry. apply (Nat.mod_unique (S i) n (S (i / n)) 0); nia.
  - right. split; [lia |]. split.
    + symmetry. apply (Nat.div_unique (S i) n (i / n) (S (i mod n))); nia.
    + symmetry. apply (Nat.mod_unique (S i) n (i / n) (S (i mod n))); nia.
Qed.

(** The workers are dealt out evenly. *)
Lemma workers_of_length n j i :
  (j < n)%nat →
  length (workers_of n j i)
  = (i / n + (if decide (j < i mod n)%nat then 1 else 0))%nat.
Proof.
  intros Hj. assert (n ≠ O) as Hn by lia.
  induction i as [|i IH].
  - unfold workers_of. cbn [seq]. rewrite filter_nil.
    rewrite Nat.Div0.div_0_l, Nat.Div0.mod_0_l.
    destruct (decide (j < 0)%nat); [lia | reflexivity].
  - rewrite workers_of_succ, length_app, IH.
    destruct (succ_div_mod n i Hn) as [(Hmod & Hdiv & Hmod') | (Hmod & Hdiv & Hmod')];
      rewrite Hdiv, Hmod';
      destruct (decide ((i mod n)%nat = j));
      destruct (decide (j < i mod n)%nat);
      destruct (decide (j < 0)%nat);
      destruct (decide (j < S (i mod n))%nat); cbn [length]; lia.
Qed.

Lemma bind_workers_all winit count :
  ∀ i group,
    group ≠ [] →
    (∀ k, (i ≤ k < i + count)%nat → winit (uint32 k) = true) →
    ∃ group',
      bind_workers winit count i group = OplogStarted group' ∧
      length group' = length group ∧
      ∀ j u, group !! j = Some u →
        ∃ u', group' !! j = Some u' ∧
          replset u' = replset u ∧
          startPosition u' = startPosition u ∧
          fullSyncFinishPosition u' = fullSyncFinishPosition u ∧
          launched u' = true ∧
          workerGroup u'
          = workerGroup u
            ++ map uint32 (filter (λ k, (k mod length group)%nat = j) (seq i count)).
Proof.
  induction count as [|count IH]; intros i group Hne Hinit.
  - exists (map launch group). split; [reflexivity |].
    split; [apply length_map |].
    intros j u Hlook. exists (launch u).
    split; [change (map launch group) with (launch <$> group);
            rewrite list_lookup_fmap, Hlook; reflexivity |].
    cbn [seq]. rewrite filter_nil. cbn [map launch replset startPosition
      fullSyncFinishPosition launched workerGroup]. rewrite app_nil_r.
    repeat split.
  - cbn [bind_workers].
    destruct (length group) as [|len] eqn:Hlen.
    { destruct group; [contradiction | discriminate]. }
    rewrite <- Hlen.
    rewrite (Hinit i) by lia. cbn [negb].
    destruct (IH (S i) (alter (bind (uint32 i)) (i mod length group)%nat group))
      as (group' & Hrun & Hlength & Hunits).
    + intros Hnil. apply (f_equal length) in Hnil. rewrite length_alter, Hlen in Hnil.
      discriminate.
    + intros k Hk. apply Hinit. lia.
    + exists group'. split; [exact Hrun |].
      rewrite length_alter in Hlength. split; [exact Hlength |].
      intros j u Hlook.
      destruct (decide ((i mod length group)%nat = j)) as [Hsel|Hother].
      * destruct (Hunits j (bind (uint32 i) u)) as (u' & Hlook' & H1 & H2 & H3 & H4 & H5).
        { rewrite <- Hsel, list_lookup_alter_eq. rewrite Hsel, Hlook. reflexivity. }
        exists u'. split; [exact Hlook' |].
        rewrite length_alter in H5.
        cbn [bind replset startPosition fullSyncFinishPosition workerGroup] in *.
        repeat split; try assumption.
        rewrite H5. cbn [seq]. rewrite filter_cons.
        destruct (decide ((i mod length group)%nat = j)); [| contradiction].
        cbn [map]. rewrite <- app_assoc. reflexivity.
      * destruct (Hunits j u) as (u' & Hlook' & H1 & H2 & H3 & H4 & H5).
        { rewrite list_lookup_alter_ne by exact Hother. exact Hlook. }
        exists u'. split; [exact Hlook' |].
        rewrite length_alter in H5.
        repeat split; try assumption.
        rewrite H5. cbn [seq]. rewrite filter_cons.
        destruct (decide ((i mod length group)%nat = j)); [contradiction |].
        reflexivity.
Qed.

(** X9. With no syncer before, at least one source, a [WorkerNum] that is
    not negative and workers that all initialize,
    [startOplogReplication] returns [nil] with one launched syncer per
    source, in order, each made with the two positions given; syncer [j]
    gets the workers whose index is [j] modulo the number of sources, in
    increasing order. The workers are dealt out evenly, and a syncer is
    left without any worker exactly when its index is [WorkerNum] or more;
    it is launched all the same. *)
Theorem startOplogReplication_binds_round_robin
    WorkerNum winit sourceNames start finish :
  0 ≤ WorkerNum →
  sourceNames ≠ [] →
  (∀ k, (k < Z.to_nat WorkerNum)%nat → winit (uint32 k) = true) →
  let n := length sourceNames in
  let W := Z.to_nat WorkerNum in
  ∃ group,
    startOplogReplication WorkerNum winit sourceNames [] start finish
      = OplogStarted group ∧
    length group = n ∧
    ∀ j name, sourceNames !! j = Some name →
      ∃ u, group !! j = Some u ∧
        replset u = name ∧ startPosition u = start ∧
        fullSyncFinishPosition u = finish ∧ launched u = true ∧
        workerGroup u = map uint32 (workers_of n j W) ∧
        length (workerGroup u)
          = (W / n + (if decide (j < W mod n)%nat then 1 else 0))%nat ∧
        (workerGroup u = [] ↔ (W ≤ j)%nat).
Proof.
  intros Hnum Hsources Hinit n W. unfold startOplogReplication.
  replace (WorkerNum <? 0) with false by (symmetry; apply Z.ltb_ge; lia).
  cbn [app].
  destruct (bind_workers_all winit W 0
              (map (λ name, NewOplogSyncer name start finish) sourceNames))
    as (group & Hrun & Hlength & Hunits).
  { destruct sourceNames; [contradiction | discriminate]. }
  { intros k Hk. apply Hinit. lia. }
  rewrite length_map in Hlength, Hunits.
  exists group. split; [exact Hrun |]. split; [exact Hlength |].
  intros j name Hname.
  destruct (Hunits j (NewOplogSyncer name start finish))
    as (u & Hlook & H1 & H2 & H3 & H4 & H5).
  { change (map (λ name, NewOplogSyncer name start finish) sourceNames)
      with ((λ name, NewOplogSyncer name start finish) <$> sourceNames).
    rewrite list_lookup_fmap, Hname. reflexivity. }
  assert (j < n)%nat as Hj by (eapply lookup_lt_Some, Hname).
  assert (workerGroup u = map uint32 (workers_of n j W)) as Hworkers.
  { rewrite H5. reflexivity. }
  exists u. split; [exact Hlook |]. repeat split; try assumption.
  - rewrite Hworkers, length_map. apply workers_of_length, Hj.
  - rewrite Hworkers. intros Hnil.
    destruct (decide (W ≤ j)%nat) as [Hle|Hgt]; [exact Hle | exfalso].
    assert (j ∈ workers_of n j W) as Hin.
    { apply elem_of_workers_of. split; [lia | apply Nat.mod_small, Hj]. }
    destruct (workers_of n j W); [inversion Hin | discriminate].
  - rewrite Hworkers. intros Hle.
    destruct (workers_of n j W) as [|k ks] eqn:Hws; [reflexivity | exfalso].
    assert (k ∈ workers_of n j W) as Hin by (rewrite Hws; left).
    apply elem_of_workers_of in Hin as [Hk Hmod].
    pose proof (Nat.Div0.mod_le k n). lia.
Qed.

Lemma startOplogReplication_binds_round_robin_witness :
  ∃ group,
    startOplogReplication 5 (λ _, true) ["rs0"; "rs1"; "rs2"] [] 100 500
      = OplogStarted group ∧
    workerGroup <$> group = [[0; 3]; [1; 4]; [2]].
Proof.
  destruct (startOplogReplication_binds_round_robin 5 (λ _, true)
              ["rs0"; "rs1"; "rs2"] 100 500) as (group & Hrun & _).
  - lia.
  - discriminate.
  - reflexivity.
  - exists group. split; [exact Hrun |].
    vm_compute in Hrun. injection Hrun as <-. reflexivity.
Defined.

Lemma bind_workers_failing winit failing :
  ∀ count i group,
    group ≠ [] →
    (failing < count)%nat →
    (∀ k, (i ≤ k < i + failing)%nat → winit (uint32 k) = true) →
    winit (uint32 (i + failing)) = false →
    ∃ group',
      bind_workers winit count i group = WorkerInitFailed group' ∧
      length group' = length group ∧
      ∀ j u, group !! j = Some u →
        ∃ u', group' !! j = Some u' ∧
          launched u' = launched u ∧
          workerGroup u'
          = workerGroup u
            ++ map uint32 (filter (λ k, (k mod length group)%nat = j) (seq i failing)).
Proof.
  induction failing as [|failing IH]; intros count i group Hne Hcount Hinit Hfail.
  - destruct count as [|count]; [lia |]. cbn [bind_workers].
    destruct (length group) as [|len] eqn:Hlen.
    { destruct group; [contradiction | discriminate]. }
    rewrite <- Hlen. rewrite Nat.add_0_r in Hfail. rewrite Hfail. cbn [negb].
    exists group. split; [reflexivity |]. split; [reflexivity |].
    intros j u Hlook. exists u. split; [exact Hlook |]. split; [reflexivity |].
    cbn [seq]. rewrite filter_nil. cbn [map]. rewrite app_nil_r. reflexivity.
  - destruct count as [|count]; [lia |]. cbn [bind_workers].
    destruct (length group) as [|len] eqn:Hlen.
    { destruct group; [contradiction | discriminate]. }
    rewrite <- Hlen. rewrite (Hinit i) by lia. cbn [negb].
    destruct (IH count (S i) (alter (bind (uint32 i)) (i mod length group)%nat group))
      as (group' & Hrun & Hlength & Hunits).
    + intros Hnil. apply (f_equal length) in Hnil. rewrite length_alter, Hlen in Hnil.
      discriminate.
    + lia.
    + intros k Hk. apply Hinit. lia.
    + replace (S i + failing)%nat with (i + S failing)%nat by lia. exact Hfail.
    + exists group'. split; [exact Hrun |].
      rewrite length_alter in Hlength. split; [exact Hlength |].
      intros j u Hlook.
      destruct (decide ((i mod length group)%nat = j)) as [Hsel|Hother].
      * destruct (Hunits j (bind (uint32 i) u)) as (u' & Hlook' & H1 & H2).
        { rewrite <- Hsel, list_lookup_alter_eq. rewrite Hsel, Hlook. reflexivity. }
        exists u'. split; [exact Hlook' |]. rewrite length_alter in H2.
        cbn [bind launched workerGroup] in *. split; [exact H1 |].
        rewrite H2. cbn [seq]. rewrite filter_cons.
        destruct (decide ((i mod length group)%nat = j)); [| contradiction].
        cbn [map]. rewrite <- app_assoc. reflexivity.
      * destruct (Hunits j u) as (u' & Hlook' & H1 & H2).
        { rewrite list_lookup_alter_ne by exact Hother. exact Hlook. }
        exists u'. split; [exact Hlook' |]. rewrite length_alter in H2.
        split; [exact H1 |].
        rewrite H2. cbn [seq]. rewrite filter_cons.
        destruct (decide ((i mod length group)%nat = j)); [contradiction |].
        reflexivity.
Qed.

(** X10. When worker [failing] is the first that fails to initialize,
    [startOplogReplication] returns its error with no syncer launched,
    although the workers before it are bound (and running). Without any
    source a positive [WorkerNum] makes the index of the first worker panic. *)
Theorem startOplogReplication_stops_at_failed_worker
    WorkerNum winit sourceNames start finish failing :
  sourceNames ≠ [] →
  (failing < Z.to_nat WorkerNum)%nat →
  (∀ k, (k < failing)%nat → winit (uint32 k) = true) →
  winit (uint32 failing) = false →
  (∃ group,
     startOplogReplication WorkerNum winit sourceNames [] start finish
       = WorkerInitFailed group ∧
     length group = length sourceNames ∧
     ∀ j name, sourceNames !! j = Some name →
       ∃ u, group !! j = Some u ∧ launched u = false ∧
            workerGroup u = map uint32 (workers_of (length sourceNames) j failing)) ∧
  startOplogReplication WorkerNum winit [] [] start finish = NoSyncerPanic.
Proof.
  intros Hsources Hfailing Hinit Hfail.
  assert ((WorkerNum <? 0) = false) as Hnum by (apply Z.ltb_ge; lia).
  split.
  - unfold startOplogReplication. rewrite Hnum. cbn [app].
    destruct (bind_workers_failing winit failing (Z.to_nat WorkerNum) 0
                (map (λ name, NewOplogSyncer name start finish) sourceNames))
      as (group & Hrun & Hlength & Hunits).
    { destruct sourceNames; [contradiction | discriminate]. }
    { exact Hfailing. }
    { intros k Hk. apply Hinit. lia. }
    { exact Hfail. }
    rewrite length_map in Hlength, Hunits.
    exists group. split; [exact Hrun |]. split; [exact Hlength |].
    intros j name Hname.
    destruct (Hunits j (NewOplogSyncer name start finish)) as (u & Hlook & H1 & H2).
    { change (map (λ name, NewOplogSyncer name start finish) sourceNames)
        with ((λ name, NewOplogSyncer name start finish) <$> sourceNames).
      rewrite list_lookup_fmap, Hname. reflexivity. }
    exists u. split; [exact Hlook |]. split; [exact H1 |]. rewrite H2. reflexivity.
  - unfold startOplogReplication. rewrite Hnum. cbn [app map].
    destruct (Z.to_nat WorkerNum); [lia | reflexivity].
Qed.

Lemma startOplogReplication_stops_at_failed_worker_witness :
  ∃ group,
    startOplogReplication 5 (λ w, negb (w =? 3)) ["rs0"; "rs1"] [] 100 500
      = WorkerInitFailed group ∧
    length group = 2%nat.
Proof.
  destruct (startOplogReplication_stops_at_failed_worker 5 (λ w, negb (w =? 3))
              ["rs0"; "rs1"] 100 500 3) as [(group & Hrun & Hlength & _) _].
  - discriminate.
  - vm_compute. lia.
  - intros [|[|[|k]]] Hk; try reflexivity. lia.
  - reflexivity.
  - exists group. split; assumption.
Defined.

(** *** [sanitizeMongoDB] *)

Lemma default_name_not_empty (i : nat) : "default-" +:+ pretty i ≠ "".
Proof. discriminate. Qed.

(** When the loop runs to its end, the names it set are distinct, none
    was seen before, none is empty, and the sources keep their URLs. *)
Lemma sanitize_loop_names SyncMode connect srcs :
  ∀ i rs uniq,
    returned (sanitize_loop SyncMode connect i srcs rs uniq) = None →
    let srcs' := sources (sanitize_loop SyncMode connect i srcs rs uniq) in
    NoDup (ReplicaName <$> srcs') ∧
    (∀ name, name ∈ (ReplicaName <$> srcs') → (name ∉ rs) ∧ (name ≠ "")) ∧
    URL <$> srcs' = URL <$> srcs ∧
    (∀ k src', srcs' !! k = Some src' →
       ∃ conn, connect (i + k)%nat = Connected conn ∧
         (SyncMode ≠ SYNCMODE_DOCUMENT → HasOplogNs conn = true) ∧
         ReplicaName src'
         = if String.eqb (AcquireReplicaSetName conn) ""
           then "default-" +:+ pretty (i + k)%nat
           else AcquireReplicaSetName conn).
Proof.
  induction srcs as [|src rest IH]; intros i rs uniq Hdone; cbn [sanitize_loop] in *.
  - cbn. split; [constructor |]. split; [intros name Hin; inversion Hin |].
    split; [reflexivity |]. intros k src' Hlook. discriminate.
  - destruct (connect i) as [err|conn] eqn:Hconn; [discriminate |].
    destruct (negb (String.eqb SyncMode SYNCMODE_DOCUMENT) && negb (HasOplogNs conn))
      eqn:Hoplog; [discriminate |].
    cbv zeta in *.
    set (rsName := if String.eqb (AcquireReplicaSetName conn) ""
                   then "default-" +:+ pretty i
                   else AcquireReplicaSetName conn) in *.
    destruct (decide (rsName ∈ rs)) as [Hseen|Hnew]; [discriminate |].
    cbn [returned sources] in *.
    destruct (IH (S i) ({[rsName]} ∪ rs)
                (if negb uniq then HasUniqueIndex conn else uniq) Hdone)
      as (Hnodup & Hnames & Hurls & Hconns).
    assert (rsName ≠ "") as Hnonempty.
    { subst rsName. destruct (String.eqb_spec (AcquireReplicaSetName conn) "");
        [apply default_name_not_empty | assumption]. }
    cbn [fmap list_fmap ReplicaName URL]. split; [| split; [| split]].
    + constructor; [| exact Hnodup].
      intros Hin. apply Hnames in Hin as [Hin _]. apply Hin.
      apply elem_of_union_l, elem_of_singleton. reflexivity.
    + intros name Hin. apply elem_of_cons in Hin as [-> | Hin].
      * split; assumption.
      * apply Hnames in Hin as [Hin Hne]. split; [| exact Hne].
        intros Hrs. apply Hin, elem_of_union_r, Hrs.
    + f_equal. exact Hurls.
    + intros [|k] src' Hlook.
      * injection Hlook as <-. exists conn. rewrite Nat.add_0_r.
        split; [exact Hconn |]. split; [| reflexivity].
        intros Hmode. destruct (String.eqb_spec SyncMode SYNCMODE_DOCUMENT);
          [contradiction |]. cbn [negb andb] in Hoplog.
        destruct (HasOplogNs conn); [reflexivity | discriminate].
      * replace (i + S k)%nat with (S i + k)%nat by lia. apply Hconns. exact Hlook.
Qed.

(** X11. When every refused connection comes with an error and
    [sanitizeMongoDB] returns [nil], every source was connected and has a
    replica name that is not empty (the name it reports, or [default-i]
    for source [i] when it reports none), the names are pairwise distinct,
    every source has an oplog collection unless the mode is [document], and
    the shard key is no longer [automatic]. *)
Theorem sanitizeMongoDB_names_sources
    SyncMode shardKey storage connect srcs srcs' shardKey' :
  (∀ err, storage = Refused err → err ≠ None) →
  (∀ i err, connect i = Refused err → err ≠ None) →
  sanitizeMongoDB SyncMode shardKey storage connect srcs = (None, srcs', shardKey') →
  NoDup (ReplicaName <$> srcs') ∧
  Forall (λ src, ReplicaName src ≠ "") srcs' ∧
  URL <$> srcs' = URL <$> srcs ∧
  (∀ k src', srcs' !! k = Some src' →
     ∃ conn, connect k = Connected conn ∧
       (SyncMode ≠ SYNCMODE_DOCUMENT → HasOplogNs conn = true) ∧
       ReplicaName src'
       = if String.eqb (AcquireReplicaSetName conn) ""
         then "default-" +:+ pretty k
         else AcquireReplicaSetName conn) ∧
  shardKey' ≠ ShardAutomatic ∧
  (shardKey ≠ ShardAutomatic → shardKey' = shardKey).
Proof.
  intros Hstorage Hconnect. unfold sanitizeMongoDB.
  destruct storage as [err|[]].
  { intros [= -> _ _]. exfalso. eapply Hstorage; reflexivity. }
  cbv zeta.
  destruct (returned (sanitize_loop SyncMode connect 0 srcs ∅ false)) as [err|] eqn:Hdone.
  - intros [= -> _ _]. exfalso. revert Hdone. clear -Hconnect.
    generalize 0%nat, (∅ : gset string), false.
    induction srcs as [|src rest IH]; intros i rs uniq; cbn [sanitize_loop];
      [cbn [returned]; intros [=] |].
    destruct (connect i) as [err|conn] eqn:Hconn.
    { cbn [returned]. intros [= ->]. eapply Hconnect; [exact Hconn | reflexivity]. }
    destruct (negb _ && negb _); [cbn [returned]; intros [=] |]. cbv zeta.
    destruct (decide _); [cbn [returned]; intros [=] |]. cbn [returned]. apply IH.
  - intros [= <- <-].
    destruct (sanitize_loop_names SyncMode connect srcs 0 ∅ false Hdone)
      as (Hnodup & Hnames & Hurls & Hconns).
    split; [exact Hnodup |]. split; [| split; [exact Hurls | split; [exact Hconns |]]].
    + apply Forall_forall. intros src Hin.
      apply (Hnames (ReplicaName src)). apply list_elem_of_fmap. eauto.
    + split.
      * destruct shardKey; try discriminate.
        destruct (hasUniqIndex _); discriminate.
      * intros Hne. destruct shardKey; try reflexivity. contradiction.
Qed.

Lemma sanitizeMongoDB_names_sources_witness :
  NoDup (ReplicaName <$>
           [ {| URL := "mongodb://a"; ReplicaName := "default-0" |};
             {| URL := "mongodb://b"; ReplicaName := "default-1" |} ]).
Proof.
  destruct (sanitizeMongoDB_names_sources "all" ShardAutomatic (Connected ())
              (λ _, Connected {| HasOplogNs := true; AcquireReplicaSetName := "";
                                 HasUniqueIndex := false |})
              [ {| URL := "mongodb://a"; ReplicaName := "" |};
                {| URL := "mongodb://b"; ReplicaName := "" |} ]
              [ {| URL := "mongodb://a"; ReplicaName := "default-0" |};
                {| URL := "mongodb://b"; ReplicaName := "default-1" |} ]
              ShardByID) as (Hnodup & _).
  - discriminate.
  - discriminate.
  - vm_compute. reflexivity.
  - exact Hnodup.
Defined.

End StartupFacts.

(** ** [collectionSync]: the batches it hands to the collection executor *)

Module CollectionSyncFacts.
Import Bson DocSyncer CollectionSync.

Section Copy.
Variable bufferSize : Z.
Variable transformed : Raw → Raw.

Local Abbreviation turn := (add_doc bufferSize transformed).

Lemma bytes_snoc docs doc : bytes (docs ++ [doc]) = bytes docs + size doc.
Proof.
  induction docs as [|d docs IH]; cbn [app bytes foldr] in *; [lia |].
  unfold bytes in IH. rewrite IH. lia.
Qed.

(** The two cases of a turn of the loop. *)
Lemma add_doc_cases st doc :
  (bufferByteSize st + size doc ≤ MAX_BUFFER_BYTE_SIZE ∧
   Z.of_nat (length (buffer st)) < bufferSize ∧
   turn st doc = {| buffer := buffer st ++ [transformed doc];
                    bufferByteSize := bufferByteSize st + size (transformed doc);
                    synced := synced st |}) ∨
  turn st doc = {| buffer := [transformed doc];
                   bufferByteSize := 0 + size (transformed doc);
                   synced := synced st ++ [buffer st] |}.
Proof.
  unfold add_doc.
  destruct (Z.gtb_spec (bufferByteSize st + size doc) MAX_BUFFER_BYTE_SIZE) as [Hbig|Hfit];
    cbn [orb]; [right; reflexivity |].
  destruct (Z.geb_spec (Z.of_nat (length (buffer st))) bufferSize) as [Hfull|Hroom];
    [right; reflexivity |].
  left. repeat split; [lia | lia].
Qed.

(** What the loop keeps after any number of documents. *)
Record kept (docs : list Raw) (st : Copying) : Prop := {
  kept_order : concat (synced st) ++ buffer st = transformed <$> docs;
  kept_bytes : bufferByteSize st = bytes (buffer st);
  kept_count : Z.of_nat (length (buffer st)) ≤ Z.max bufferSize 1;
  kept_counts : Forall (λ batch, Z.of_nat (length batch) ≤ Z.max bufferSize 1) (synced st);
  kept_buffer : docs ≠ [] → buffer st ≠ []
}.

Lemma loop_keeps docs : kept docs (fold_left turn docs start_copy).
Proof.
  induction docs as [|doc docs IH] using rev_ind.
  - split; cbn; try reflexivity; try lia; [constructor | congruence].
  - rewrite fold_left_app. cbn [fold_left].
    destruct IH as [Horder Hbytes Hcount Hcounts _].
    set (st := fold_left turn docs start_copy) in *.
    destruct (add_doc_cases st doc) as [(Hfit & Hroom & ->)| ->]; split;
      cbn [buffer bufferByteSize synced].
    + rewrite fmap_app, app_assoc, Horder. reflexivity.
    + rewrite bytes_snoc, Hbytes. reflexivity.
    + rewrite length_app. cbn [length]. lia.
    + exact Hcounts.
    + intros _. destruct (buffer st); discriminate.
    + rewrite fmap_app, concat_app. cbn [concat]. rewrite app_nil_r, Horder.
      reflexivity.
    + cbn [bytes foldr]. lia.
    + cbn [length]. lia.
    + apply Forall_app. split; [exact Hcounts |]. apply Forall_singleton. exact Hcount.
    + intros _. discriminate.
Qed.

(** The same for the bytes of the batches, when the rewrite of a document
    keeps its length. *)
Definition light (batch : list Raw) : Prop :=
  (length batch ≤ 1)%nat ∨ bytes batch ≤ MAX_BUFFER_BYTE_SIZE.

Lemma loop_keeps_light docs :
  (∀ doc, size (transformed doc) = size doc) →
  let st := fold_left turn docs start_copy in
  bufferByteSize st = bytes (buffer st) ∧ light (buffer st) ∧ Forall light (synced st).
Proof.
  intros Hsame. induction docs as [|doc docs IH] using rev_ind.
  - cbn. repeat split; [left; cbn; lia | constructor].
  - cbn zeta in *. rewrite fold_left_app. cbn [fold_left].
    destruct IH as (Hbytes & Hbuffer & Hsynced).
    set (st := fold_left turn docs start_copy) in *.
    destruct (add_doc_cases st doc) as [(Hfit & Hroom & ->)| ->];
      cbn [buffer bufferByteSize synced].
    + repeat split.
      * rewrite bytes_snoc, Hbytes. reflexivity.
      * right. rewrite bytes_snoc, Hsame, <- Hbytes. exact Hfit.
      * exact Hsynced.
    + repeat split.
      * cbn [bytes foldr]. lia.
      * left. cbn. lia.
      * apply Forall_app. split; [exact Hsynced |]. apply Forall_singleton. exact Hbuffer.
Qed.

(** The calls of [Sync] of a run that got past [Start]. *)
Lemma collectionSync_calls ns docs readError wait getIndexes run :
  collectionSync bufferSize transformed ns None docs readError wait getIndexes
    = Returned run →
  let st := fold_left turn docs start_copy in
  match readError with
  | Some _ => syncCalls run = synced st ∧ waited run = false
  | None => syncCalls run = synced st ++ [buffer st] ∧ waited run = true
  end.
Proof.
  unfold collectionSync. destruct (bufferSize <? 0); [discriminate |].
  destruct readError as [err|]; [intros [= <-]; split; reflexivity |].
  destruct wait as [err|]; [intros [= <-]; split; reflexivity |].
  destruct getIndexes as [err|]; intros [= <-]; split; reflexivity.
Qed.

Lemma collectionSync_calls_any ns started docs readError wait getIndexes run :
  collectionSync bufferSize transformed ns started docs readError wait getIndexes
    = Returned run →
  let st := fold_left turn docs start_copy in
  syncCalls run = [] ∨ syncCalls run = synced st ∨ syncCalls run = synced st ++ [buffer st].
Proof.
  destruct started as [err|].
  - intros [= <-]. left. reflexivity.
  - intros Hrun. apply collectionSync_calls in Hrun. cbn zeta in *.
    destruct readError; destruct Hrun as [-> _]; auto.
Qed.

Lemma copied_in_order ns docs wait getIndexes run :
  collectionSync bufferSize transformed ns None docs None wait getIndexes
    = Returned run →
  concat (syncCalls run) = transformed <$> docs.
Proof.
  intros Hrun. apply collectionSync_calls in Hrun as [-> _].
  rewrite concat_app. cbn [concat]. rewrite app_nil_r.
  apply (kept_order _ _ (loop_keeps docs)).
Qed.

(** X12. A call of [collectionSync] that gets past [Start] hands the
    documents it read to [Sync] in the order read, each once and as
    rewritten. When the reader ends without error, all of them are handed
    over and [Wait] is called. When the reader fails, the documents read
    since the last full batch are handed to nobody, and [Wait] is not
    called. *)
Theorem collectionSync_keeps_documents ns docs readError wait getIndexes run :
  collectionSync bufferSize transformed ns None docs readError wait getIndexes
    = Returned run →
  ∃ unsent,
    concat (syncCalls run) ++ unsent = transformed <$> docs ∧
    (readError = None → unsent = [] ∧ waited run = true) ∧
    (readError ≠ None → waited run = false ∧ (docs ≠ [] → unsent ≠ [])).
Proof.
  intros Hrun. pose proof (loop_keeps docs) as [Horder _ _ _ Hbuffer].
  apply collectionSync_calls in Hrun. cbn zeta in Hrun.
  destruct readError as [err|]; destruct Hrun as [-> ->].
  - exists (buffer (fold_left turn docs start_copy)).
    split; [exact Horder |]. split; [discriminate |].
    intros _. split; [reflexivity | exact Hbuffer].
  - exists []. rewrite app_nil_r, concat_app. cbn [concat]. rewrite app_nil_r.
    split; [exact Horder |]. split; [intros _; split; reflexivity | congruence].
Qed.

(** X13. No call of [Sync] made by [collectionSync] carries more documents
    than the configured batch size, or than one when that size is zero.
    When the rewrite of a document keeps its length, a batch of more than
    one document is no larger than [MAX_BUFFER_BYTE_SIZE]; a single
    document goes out however large it is. *)
Theorem collectionSync_batches_bounded ns started docs readError wait getIndexes run :
  collectionSync bufferSize transformed ns started docs readError wait getIndexes
    = Returned run →
  Forall (λ batch, Z.of_nat (length batch) ≤ Z.max bufferSize 1) (syncCalls run) ∧
  ((∀ doc, size (transformed doc) = size doc) →
   Forall (λ batch, (length batch ≤ 1)%nat ∨ bytes batch ≤ MAX_BUFFER_BYTE_SIZE)
     (syncCalls run)).
Proof.
  intros Hrun. apply collectionSync_calls_any in Hrun. cbn zeta in Hrun.
  pose proof (loop_keeps docs) as [_ _ Hcount Hcounts _].
  split.
  - destruct Hrun as [-> | [-> | ->]]; [constructor | exact Hcounts |].
    apply Forall_app. split; [exact Hcounts |]. apply Forall_singleton. exact Hcount.
  - intros Hsame. destruct (loop_keeps_light docs Hsame) as (_ & Hbuffer & Hsynced).
    destruct Hrun as [-> | [-> | ->]]; [constructor | exact Hsynced |].
    apply Forall_app. split; [exact Hsynced |]. apply Forall_singleton. exact Hbuffer.
Qed.

End Copy.

Lemma collectionSync_keeps_documents_witness :
  ∃ unsent,
    concat (syncCalls MoreExamples.three_docs_copied) ++ unsent
      = id <$> MoreExamples.three_docs ∧
    (@None Error = None →
     unsent = [] ∧ waited MoreExamples.three_docs_copied = true) ∧
    (@None Error ≠ None →
     waited MoreExamples.three_docs_copied = false ∧
     (MoreExamples.three_docs ≠ [] → unsent ≠ [])).
Proof.
  apply (collectionSync_keeps_documents 2 id Examples.ns_a MoreExamples.three_docs
           None None None).
  reflexivity.
Defined.

Lemma collectionSync_batches_bounded_witness :
  Forall (λ batch, Z.of_nat (length batch) ≤ Z.max 2 1)
    (syncCalls MoreExamples.three_docs_copied) ∧
  ((∀ doc, size (id doc) = size doc) →
   Forall (λ batch, (length batch ≤ 1)%nat ∨ bytes batch ≤ MAX_BUFFER_BYTE_SIZE)
     (syncCalls MoreExamples.three_docs_copied)).
Proof.
  apply (collectionSync_batches_bounded 2 id Examples.ns_a None MoreExamples.three_docs
           None None None).
  reflexivity.
Defined.

End CollectionSyncFacts.

(** ** What the executors of a collection deliver *)

Module DeliveryFacts.
Import Bson DocSyncer Delivery.

Lemma concat_Permutation (l k : list (list Raw)) : l ≡ₚ k → concat l ≡ₚ concat k.
Proof.
  induction 1 as [|x l k _ IH|x y l|l k m _ IH1 _ IH2]; cbn [concat].
  - reflexivity.
  - rewrite IH. reflexivity.
  - rewrite !app_assoc. f_equiv. apply Permutation_app_comm.
  - etransitivity; eassumption.
Qed.

Lemma concat_nonempty (l : list (list Raw)) : concat (nonempty l) = concat l.
Proof.
  unfold nonempty. induction l as [|[|doc docs] l IH]; [reflexivity | |].
  - rewrite filter_cons_False by (intros H; apply H; reflexivity). exact IH.
  - rewrite filter_cons_True by discriminate. cbn [concat]. rewrite IH. reflexivity.
Qed.

Lemma nonempty_snoc sent docs :
  nonempty (sent ++ [docs]) = nonempty sent ++ (if Nat.eqb (length docs) 0 then [] else [docs]).
Proof.
  unfold nonempty. rewrite filter_app. f_equal. destruct docs as [|doc docs].
  - rewrite filter_cons_False by (intros H; apply H; reflexivity). reflexivity.
  - rewrite filter_cons_True by discriminate. reflexivity.
Qed.

Lemma held_batches_cons exec execs :
  held_batches (exec :: execs) = option_list (holding exec) ++ held_batches execs.
Proof. unfold held_batches. cbn [omap list_omap]. destruct (holding exec); reflexivity. Qed.

Lemma held_batches_idle parallel :
  held_batches (replicate parallel {| error := None; holding := None |}) = [].
Proof.
  induction parallel as [|p IH]; [reflexivity |].
  cbn [replicate]. rewrite held_batches_cons, IH. reflexivity.
Qed.

Lemma held_batches_length execs : length (held_batches execs) = held execs.
Proof.
  induction execs as [|exec execs IH]; [reflexivity |].
  rewrite held_batches_cons, length_app, IH.
  change (held (exec :: execs)) with (holds exec + held execs)%nat.
  unfold holds. destruct (holding exec); reflexivity.
Qed.

(** Replacing an executor exchanges the batch it held. *)
Lemma held_batches_insert execs :
  ∀ i old new,
    execs !! i = Some old →
    option_list (holding old) ++ held_batches (<[i := new]> execs)
      ≡ₚ option_list (holding new) ++ held_batches execs.
Proof.
  induction execs as [|exec execs IH]; intros i old new Hlook; [discriminate |].
  destruct i as [|i]; cbn in Hlook.
  - injection Hlook as ->. cbn [insert list_insert]. rewrite !held_batches_cons.
    apply Permutation_app_swap_app.
  - change (<[S i := new]> (exec :: execs)) with (exec :: <[i := new]> execs).
    rewrite !held_batches_cons.
    rewrite (Permutation_app_swap_app (option_list (holding old))).
    rewrite (IH i old new Hlook). apply Permutation_app_swap_app.
Qed.

Definition pending (ce : CollectionExecutor) : list (list Raw) :=
  docBatch ce ++ held_batches (executors ce).

Definition clean (ce : CollectionExecutor) : Prop :=
  Forall (λ exec, error exec = None) (executors ce).

Lemma clean_insert_inv execs i old new :
  execs !! i = Some old →
  (error new = None → error old = None) →
  Forall (λ exec, error exec = None) (<[i := new]> execs) →
  Forall (λ exec, error exec = None) execs.
Proof.
  intros Hlook Hold Hclean. apply Forall_lookup. intros j exec Hj.
  destruct (decide (i = j)) as [<-|Hne].
  - rewrite Hlook in Hj. injection Hj as <-. apply Hold.
    rewrite Forall_lookup in Hclean. apply (Hclean i).
    apply list_lookup_insert_eq. eapply lookup_lt_Some. exact Hlook.
  - rewrite Forall_lookup in Hclean. apply (Hclean j).
    rewrite list_lookup_insert_ne by exact Hne. exact Hj.
Qed.

Lemma first_error_clean toNS execs :
  first_error toNS execs = None → Forall (λ exec, error exec = None) execs.
Proof.
  induction execs as [|exec execs IH]; [constructor |].
  cbn. destruct (error exec) eqn:Herr; [discriminate |].
  intros H. constructor; [exact Herr | apply IH; exact H].
Qed.

Section Delivering.
Variable Insert : list Raw → option Error.

(** The second half of an executor's turn, case by case. *)
Lemma exec_handle_cases i ce ce' :
  exec_handle Insert i ce = Some ce' →
  ∃ e docs e',
    executors ce !! i = Some {| error := e; holding := Some docs |} ∧
    executors ce' = <[i := {| error := e'; holding := None |}]> (executors ce) ∧
    docBatch ce' = docBatch ce ∧
    match e with
    | Some _ => e' = e ∧ inserts ce' = inserts ce
    | None =>
        e' = doSync Insert (ns ce) docs ∧
        inserts ce' = if Nat.eqb (length docs) 0 then inserts ce else inserts ce ++ [docs]
    end.
Proof.
  unfold exec_handle.
  destruct (executors ce !! i) as [[e [docs|]]|]; try discriminate.
  destruct e as [e|]; intros [= <-].
  - exists (Some e), docs, (Some e). repeat split.
  - exists None, docs, (doSync Insert (ns ce) docs). repeat split.
Qed.

(** What holds between [Start] and [Wait] of the batches given to [Sync]:
    no batch in the channel or in an executor's hands is empty, and while
    no executor has recorded an error, every batch is inserted, in the
    channel or in an executor's hands, and every insert was accepted. *)
Definition accounted (sent : list (list Raw)) (ce : CollectionExecutor) : Prop :=
  Forall (λ docs, docs ≠ []) (pending ce) ∧
  (clean ce →
   nonempty sent ≡ₚ inserts ce ++ pending ce ∧
   Forall (λ docs, Insert docs = None) (inserts ce)).

Lemma delivering_reachable toNS parallel sent ce :
  delivering Insert toNS parallel sent ce → reachable Insert toNS parallel ce.
Proof.
  induction 1; [constructor | eapply reach_Sync; eassumption
                | eapply reach_step; eassumption].
Qed.

Lemma Sync_accounted sent ce docs ce' :
  accounted sent ce → Sync docs ce = Some ce' → accounted (sent ++ [docs]) ce'.
Proof.
  intros [Hfull Hacc] Hsync. unfold Sync in Hsync.
  unfold accounted. rewrite nonempty_snoc.
  destruct docs as [|doc docs]; cbn [length Nat.eqb] in *.
  - injection Hsync as <-. rewrite app_nil_r. split; assumption.
  - destruct (Nat.ltb (length (docBatch ce)) (capacity ce)); [| discriminate].
    injection Hsync as <-. unfold accounted, pending, clean in *.
    cbn [executors docBatch inserts].
    assert ((docBatch ce ++ [doc :: docs]) ++ held_batches (executors ce)
              ≡ₚ (docBatch ce ++ held_batches (executors ce)) ++ [doc :: docs]) as Hperm.
    { rewrite <- !app_assoc. f_equiv. apply Permutation_app_comm. }
    split.
    + rewrite Hperm. apply Forall_app. split; [exact Hfull |].
      apply Forall_singleton. discriminate.
    + intros Hclean. destruct (Hacc Hclean) as [Hsent Hok]. split; [| exact Hok].
      rewrite Hperm, Hsent, <- !app_assoc. reflexivity.
Qed.

Lemma step_accounted sent ce ce' :
  accounted sent ce → exec_step Insert ce ce' → accounted sent ce'.
Proof.
  intros [Hfull Hacc] [i H|i H].
  - apply DocSyncerFacts.exec_receive_inv in H
      as (e & docs & rest & Hlook & Hbatch & ->).
    pose proof (held_batches_insert (executors ce) i _
                  {| error := e; holding := Some docs |} Hlook) as Hheld.
    cbn [holding] in Hheld. simpl (option_list _) in Hheld. cbn [app] in Hheld.
    unfold accounted, pending, clean in *. cbn [executors docBatch inserts].
    rewrite Hbatch in Hfull, Hacc.
    assert (rest ++ held_batches (<[i := {| error := e; holding := Some docs |}]>
                                    (executors ce))
              ≡ₚ (docs :: rest) ++ held_batches (executors ce)) as Hperm.
    { rewrite Hheld. cbn [app]. symmetry. apply Permutation_middle. }
    split; [rewrite Hperm; exact Hfull |].
    intros Hclean. rewrite Hperm. apply Hacc.
    eapply clean_insert_inv; [exact Hlook | | exact Hclean]. intros Hnone. exact Hnone.
  - apply exec_handle_cases in H as (e & docs & e' & Hlook & Hexecs & Hbatch & Hcase).
    pose proof (held_batches_insert (executors ce) i _
                  {| error := e'; holding := None |} Hlook) as Hheld.
    cbn [holding] in Hheld. simpl (option_list _) in Hheld. cbn [app] in Hheld.
    unfold accounted, pending, clean in *. rewrite Hexecs, Hbatch.
    assert (docBatch ce ++ held_batches (executors ce)
              ≡ₚ docs :: docBatch ce
                   ++ held_batches (<[i := {| error := e'; holding := None |}]>
                                      (executors ce))) as Hperm.
    { rewrite <- Hheld. symmetry. apply Permutation_middle. }
    rewrite Hperm in Hfull, Hacc. apply Forall_cons in Hfull as [Hdocs Hfull].
    split; [exact Hfull |]. intros Hclean.
    assert (e' = None) as He'.
    { rewrite Forall_lookup in Hclean.
      apply (Hclean i {| error := e'; holding := None |}).
      apply list_lookup_insert_eq. eapply lookup_lt_Some. exact Hlook. }
    destruct e as [e|]; [destruct Hcase as [-> _]; discriminate |].
    destruct Hcase as [Hsync Hins]. rewrite Hins.
    destruct docs as [|doc docs]; [contradiction |]. cbn [length Nat.eqb].
    destruct Hacc as [Hsent Hok].
    { eapply clean_insert_inv; [exact Hlook | | exact Hclean]. reflexivity. }
    split.
    + rewrite Hsent, <- app_assoc. reflexivity.
    + apply Forall_app. split; [exact Hok |]. apply Forall_singleton.
      rewrite He' in Hsync. unfold doSync in Hsync. cbn [length Nat.eqb] in Hsync.
      destruct (Insert (doc :: docs)); [discriminate | reflexivity].
Qed.

Lemma delivering_accounted toNS parallel sent ce :
  delivering Insert toNS parallel sent ce → accounted sent ce.
Proof.
  induction 1 as [| sent ce docs ce' _ IH Hsync | sent ce ce' _ IH Hstep].
  - unfold accounted, pending, clean, Start. cbn [executors docBatch inserts app].
    rewrite held_batches_idle. split; [constructor |]. intros _.
    split; [reflexivity | constructor].
  - eapply Sync_accounted; eassumption.
  - eapply step_accounted; eassumption.
Qed.

(** Once [Wait] returns without error, the inserts are the batches sent. *)
Lemma delivered toNS parallel sent ce :
  delivering Insert toNS parallel sent ce →
  Wait ce = Some None →
  inserts ce ≡ₚ nonempty sent ∧ Forall (λ docs, Insert docs = None) (inserts ce).
Proof.
  intros Hrun Hwait.
  pose proof (delivering_accounted _ _ _ _ Hrun) as [_ Hacc].
  apply delivering_reachable, DocSyncerFacts.reachable_consistent in Hrun
    as (_ & _ & _ & Hwg).
  unfold Wait in Hwait. destruct (Z.eqb_spec (wg ce) 0) as [Hzero|]; [| discriminate].
  injection Hwait as Hnone. apply first_error_clean in Hnone.
  destruct (Hacc Hnone) as [Hsent Hok]. split; [| exact Hok].
  assert (pending ce = []) as Hidle.
  { unfold pending. rewrite Hzero in Hwg.
    destruct (docBatch ce); [| cbn in Hwg; lia].
    pose proof (held_batches_length (executors ce)) as Hlen.
    destruct (held_batches (executors ce)); [reflexivity | cbn in Hlen, Hwg; lia]. }
  rewrite Hsent, Hidle, app_nil_r. reflexivity.
Qed.

(** X14. When [Wait] returns without error, every batch that was given to
    [Sync] and is not empty has been handed to the destination's insert
    exactly once, nothing else has, and every insert was accepted. *)
Theorem Wait_nil_means_every_batch_inserted toNS parallel sent ce :
  delivering Insert toNS parallel sent ce →
  Wait ce = Some None →
  inserts ce ≡ₚ nonempty sent ∧ Forall (λ docs, Insert docs = None) (inserts ce).
Proof. apply delivered. Qed.

(** X15. [collectionSync] with its collection executor: when the reader
    ends without error and [Wait] returns without error, the documents
    handed to the destination's inserts are the documents read, each once
    and as rewritten, and every insert was accepted. *)
Theorem collectionSync_nil_copies_every_document
    bufferSize transformed ns toNS parallel docs getIndexes run ce :
  CollectionSync.collectionSync bufferSize transformed ns None docs None None getIndexes
    = CollectionSync.Returned run →
  delivering Insert toNS parallel (CollectionSync.syncCalls run) ce →
  Wait ce = Some None →
  concat (inserts ce) ≡ₚ transformed <$> docs ∧
  Forall (λ docs, Insert docs = None) (inserts ce).
Proof.
  intros Hrun Hdeliver Hwait.
  destruct (delivered _ _ _ _ Hdeliver Hwait) as [Hsent Hok]. split; [| exact Hok].
  rewrite (concat_Permutation _ _ Hsent), concat_nonempty.
  rewrite (CollectionSyncFacts.copied_in_order _ _ _ _ _ _ _ Hrun). reflexivity.
Qed.

End Delivering.

Lemma one_batch_delivered :
  delivering MoreExamples.accept Examples.ns_a 2 [[Examples.raw Byte.x01]]
    MoreExamples.one_batch_done.
Proof.
  eapply deliver_step; [eapply deliver_step;
    [eapply (deliver_Sync _ _ _ [] _ [Examples.raw Byte.x01]); [apply deliver_Start | reflexivity] |] |].
  - apply (step_receive _ _ _ O). reflexivity.
  - apply (step_handle _ _ _ O). reflexivity.
Qed.

Lemma three_docs_delivered :
  delivering MoreExamples.accept Examples.ns_a 2
    (CollectionSync.syncCalls MoreExamples.three_docs_copied)
    MoreExamples.three_docs_done.
Proof.
  eapply deliver_step; [eapply deliver_step; [eapply deliver_step; [eapply deliver_step;
    [eapply (deliver_Sync _ _ _ [_] _ [Examples.raw Byte.x03]);
       [eapply (deliver_Sync _ _ _ [] _ [Examples.raw Byte.x01; Examples.raw Byte.x02]);
          [apply deliver_Start | reflexivity]
       | reflexivity] |] |] |] |].
  - apply (step_receive _ _ _ O). reflexivity.
  - apply (step_receive _ _ _ 1%nat). reflexivity.
  - apply (step_handle _ _ _ O). reflexivity.
  - apply (step_handle _ _ _ 1%nat). reflexivity.
Qed.

Lemma Wait_nil_means_every_batch_inserted_witness :
  inserts MoreExamples.one_batch_done ≡ₚ nonempty [[Examples.raw Byte.x01]] ∧
  Forall (λ docs, MoreExamples.accept docs = None) (inserts MoreExamples.one_batch_done).
Proof.
  apply (Wait_nil_means_every_batch_inserted MoreExamples.accept Examples.ns_a 2
           [[Examples.raw Byte.x01]] MoreExamples.one_batch_done).
  - exact one_batch_delivered.
  - reflexivity.
Defined.

Lemma collectionSync_nil_copies_every_document_witness :
  concat (inserts MoreExamples.three_docs_done) ≡ₚ id <$> MoreExamples.three_docs ∧
  Forall (λ docs, MoreExamples.accept docs = None) (inserts MoreExamples.three_docs_done).
Proof.
  apply (collectionSync_nil_copies_every_document MoreExamples.accept 2 id
           Examples.ns_a Examples.ns_a 2 MoreExamples.three_docs None
           MoreExamples.three_docs_copied MoreExamples.three_docs_done).
  - reflexivity.
  - exact three_docs_delivered.
  - reflexivity.
Defined.

End DeliveryFacts.

(** ** [StartDropDestCollection] *)

Module DropDestFacts.
Import DocSyncer DropDest.

Section Drop.
Variable Str : NS → string.
Variable Transform : NS → NS.
Variable CollectionNames : string → Error + list string.
Variable DropCollection : NS → option string.

Lemma named_elem_of collection colNames :
  named collection colNames = true ↔ collection ∈ colNames.
Proof.
  induction colNames as [|colName rest IH]; cbn [named].
  - split; [discriminate | intros H; inversion H].
  - rewrite elem_of_cons. destruct (String.eqb_spec colName collection) as [->|Hne].
    + split; [left; reflexivity | reflexivity].
    + rewrite IH. split; [right; assumption |]. intros [->|H]; [contradiction | exact H].
Qed.

(** The namespace is found under its source name in the database it goes
    to. *)
Definition found (n : NS) : Prop :=
  ∃ colNames,
    CollectionNames (Database (Transform n)) = inr colNames ∧ Collection n ∈ colNames.

Lemma keep_loop nsList :
  ∀ dest d,
    drop_loop Str Transform false CollectionNames DropCollection nsList dest = inr d →
    dropCalls d = dropCalls dest ∧
    ∀ key, is_Some (nsExistedSet d !! key) ↔
           is_Some (nsExistedSet dest !! key) ∨ ∃ n, n ∈ nsList ∧ Str n = key ∧ found n.
Proof.
  induction nsList as [|n rest IH]; intros dest d Hloop; cbn [drop_loop negb] in Hloop.
  - injection Hloop as <-. split; [reflexivity |]. intros key.
    split; [left; assumption |]. intros [H|(n & Hn & _)]; [exact H | inversion Hn].
  - destruct (CollectionNames (Database (Transform n))) as [err|colNames] eqn:Hnames;
      [discriminate |].
    destruct (named (Collection n) colNames) eqn:Hnamed.
    + apply IH in Hloop as [Hcalls Hset]. cbn [dropCalls nsExistedSet] in *.
      split; [exact Hcalls |]. intros key. rewrite Hset, lookup_insert_is_Some.
      apply named_elem_of in Hnamed. split.
      * intros [[Hkey|[_ Hold]]|(m & Hm & Hkey & Hfound)].
        -- right. exists n. split; [left |]. split; [exact Hkey |].
           exists colNames. split; assumption.
        -- left. exact Hold.
        -- right. exists m. split; [right; exact Hm |]. split; assumption.
      * intros [Hold|(m & Hm & Hkey & Hfound)].
        -- destruct (decide (Str n = key)) as [Heq|Hne]; left;
             [left; exact Heq | right; split; assumption].
        -- apply elem_of_cons in Hm as [->|Hm].
           ++ left. left. exact Hkey.
           ++ right. exists m. split; [exact Hm |]. split; assumption.
    + apply IH in Hloop as [Hcalls Hset]. split; [exact Hcalls |].
      intros key. rewrite Hset. split.
      * intros [Hold|(m & Hm & Hkey & Hfound)]; [left; exact Hold |].
        right. exists m. split; [right; exact Hm |]. split; assumption.
      * intros [Hold|(m & Hm & Hkey & Hfound)]; [left; exact Hold |].
        apply elem_of_cons in Hm as [->|Hm].
        -- destruct Hfound as (names & Hnames' & Hin).
           rewrite Hnames in Hnames'. injection Hnames' as <-.
           apply named_elem_of in Hin. congruence.
        -- right. exists m. split; [exact Hm |]. split; assumption.
Qed.

(** X16. Without [ReplayerCollectionDrop], [StartDropDestCollection] drops
    nothing, and the namespaces it marks as existing are those whose
    collection name at the source is a collection of the database they go
    to at the destination: the name the collection gets at the
    destination plays no part. *)
Theorem StartDropDestCollection_marks_by_source_name nsList d :
  StartDropDestCollection Str Transform false CollectionNames DropCollection nsList
    = inr d →
  dropCalls d = [] ∧
  ∀ key, is_Some (nsExistedSet d !! key) ↔
         ∃ n colNames,
           n ∈ nsList ∧ Str n = key ∧
           CollectionNames (Database (Transform n)) = inr colNames ∧
           Collection n ∈ colNames.
Proof.
  intros Hloop. apply keep_loop in Hloop as [Hcalls Hset]. split; [exact Hcalls |].
  intros key. rewrite Hset. cbn [nsExistedSet]. rewrite lookup_empty. split.
  - intros [[x Hx]|(n & Hn & Hkey & colNames & Hnames & Hin)]; [discriminate |].
    exists n, colNames. repeat split; assumption.
  - intros (n & colNames & Hn & Hkey & Hnames & Hin). right.
    exists n. split; [exact Hn |]. split; [exact Hkey |].
    exists colNames. split; assumption.
Qed.

(** The answers of [DropCollection] the loop goes on after. *)
Definition tolerated (toNS : NS) : Prop :=
  DropCollection toNS = None ∨ DropCollection toNS = Some "ns not found".

Lemma drop_loop_drops nsList :
  ∀ dest,
    match drop_loop Str Transform true CollectionNames DropCollection nsList dest with
    | inr d =>
        nsExistedSet d = nsExistedSet dest ∧
        dropCalls d = dropCalls dest ++ (Transform <$> nsList) ∧
        Forall tolerated (Transform <$> nsList)
    | inl (DropCollectionFailed toNS msg) =>
        toNS ∈ (Transform <$> nsList) ∧ DropCollection toNS = Some msg ∧
        msg ≠ "ns not found"
    | inl (CollectionNamesFailed _) => False
    end.
Proof.
  induction nsList as [|n rest IH]; intros dest; cbn [drop_loop negb fmap list_fmap].
  - rewrite app_nil_r. repeat split. constructor.
  - destruct (DropCollection (Transform n)) as [msg|] eqn:Hdrop.
    + destruct (String.eqb_spec msg "ns not found") as [->|Hne]; cbn [negb].
      * specialize (IH {| nsExistedSet := nsExistedSet dest;
                          dropCalls := dropCalls dest ++ [Transform n] |}).
        destruct (drop_loop _ _ _ _ _ rest _) as [[err|toNS msg]|d]; [exact IH | |].
        -- destruct IH as (Hin & Hmsg & Hne). repeat split; [right | |]; assumption.
        -- destruct IH as (Hset & Hcalls & Hall). cbn [nsExistedSet dropCalls] in *.
           rewrite Hcalls, <- app_assoc. repeat split; [exact Hset |].
           constructor; [right; exact Hdrop | exact Hall].
      * repeat split; [left | exact Hdrop | exact Hne].
    + specialize (IH {| nsExistedSet := nsExistedSet dest;
                        dropCalls := dropCalls dest ++ [Transform n] |}).
      destruct (drop_loop _ _ _ _ _ rest _) as [[err|toNS msg]|d]; [exact IH | |].
      * destruct IH as (Hin & Hmsg & Hne). repeat split; [right | |]; assumption.
      * destruct IH as (Hset & Hcalls & Hall). cbn [nsExistedSet dropCalls] in *.
        rewrite Hcalls, <- app_assoc. repeat split; [exact Hset |].
        constructor; [left; exact Hdrop | exact Hall].
Qed.

(** X17. With [ReplayerCollectionDrop], [StartDropDestCollection] never
    asks for collection names and marks no namespace as existing. It
    returns without error exactly after a drop of every namespace under
    its destination name, in the order of the iteration, each of which
    succeeded or answered [ns not found]; any other answer of a drop ends
    the loop with an error. *)
Theorem StartDropDestCollection_drops_every_namespace nsList :
  match StartDropDestCollection Str Transform true CollectionNames DropCollection nsList with
  | inr d =>
      nsExistedSet d = ∅ ∧ dropCalls d = Transform <$> nsList ∧
      Forall (λ toNS, DropCollection toNS = None ∨
                      DropCollection toNS = Some "ns not found") (dropCalls d)
  | inl (DropCollectionFailed toNS msg) =>
      toNS ∈ (Transform <$> nsList) ∧ DropCollection toNS = Some msg ∧
      msg ≠ "ns not found"
  | inl (CollectionNamesFailed _) => False
  end.
Proof.
  unfold StartDropDestCollection.
  pose proof (drop_loop_drops nsList {| nsExistedSet := ∅; dropCalls := [] |}) as H.
  destruct (drop_loop _ _ _ _ _ nsList _) as [[err|toNS msg]|d]; [exact H | exact H |].
  destruct H as (Hset & Hcalls & Hall). cbn [nsExistedSet dropCalls app] in *.
  rewrite Hcalls. repeat split; assumption.
Qed.

End Drop.

Lemma StartDropDestCollection_marks_by_source_name_witness :
  dropCalls MoreExamples.untouched = [] ∧
  ∀ key, is_Some (nsExistedSet MoreExamples.untouched !! key) ↔
         ∃ n colNames,
           n ∈ [Examples.ns_a] ∧ MoreExamples.dotted n = key ∧
           MoreExamples.only_b (Database (MoreExamples.rename_to_b n)) = inr colNames ∧
           Collection n ∈ colNames.
Proof.
  apply (StartDropDestCollection_marks_by_source_name MoreExamples.dotted
           MoreExamples.rename_to_b MoreExamples.only_b MoreExamples.no_drop_error
           [Examples.ns_a] MoreExamples.untouched).
  reflexivity.
Defined.

End DropDestFacts.

(** ** [startDocumentReplication] *)

Module DocumentReplicationFacts.
Import Utils DocSyncer DocumentReplication.

Section Replication.
Variable Transform : NS → NS.
Variable collectionSync : NS → NS → option Error.

Local Abbreviation outcome_of := (syncer_outcome Transform collectionSync).

(** Every collection of the source was copied without error. *)
Definition copied (src : Source) : Prop :=
  (∃ nsList, getDbNamespace src = inr nsList) ∧
  ∀ n, n ∈ finished src → collectionSync n (Transform n) = None.

(** A [DBSyncer] returns no error only when every collection is copied. *)
Lemma syncer_nil env src synced :
  outcome_of env src = DocSyncer.Returned None synced → copied src.
Proof.
  unfold syncer_outcome, Start_DBSyncer, copied.
  destruct (getDbNamespace src) as [err|nsList]; [discriminate |].
  destruct (ReplayerCollectionParallel env <? 0); [discriminate |].
  destruct (_ && _); [discriminate |].
  rewrite DocSyncerFacts.workers_keep_last_failure. intros [= Hlast _].
  split; [exists nsList; reflexivity |].
  apply DocSyncerFacts.no_failure, last_None. exact Hlast.
Qed.

Lemma syncers_nil env done :
  existsb panics (outcome_of env <$> done) = false →
  existsb hangs (outcome_of env <$> done) = false →
  last (omap returned_error (outcome_of env <$> done)) = None →
  Forall copied done.
Proof.
  intros Hpanics Hhangs Hlast. apply last_None in Hlast.
  induction done as [|src done IH]; [constructor |].
  cbn [fmap list_fmap existsb omap list_omap] in *.
  apply orb_false_iff in Hpanics as [Hpanic Hpanics].
  apply orb_false_iff in Hhangs as [Hhang Hhangs].
  destruct (outcome_of env src) as [[err|] synced| |] eqn:Hsrc;
    cbn [returned_error] in Hlast; try discriminate.
  constructor; [eapply syncer_nil; exact Hsrc | apply IH; assumption].
Qed.

(** What the part from the loop over the sources on returns. *)
Lemma replicate_sources_returns env done ckptMap events err events' :
  replicate_sources Transform collectionSync env done ckptMap events
    = Returned err events' →
  let started := events ++ (DBSyncerStart ∘ URL <$> done) in
  (err ≠ None ∧ (events' = started ∨ events' = started ++ [IndexSync])) ∨
  (Forall copied done ∧ StartIndexSync env = None ∧
   match ckptMap with
   | Some ckptMap =>
       err = CheckpointUpdate env ckptMap ∧
       events' = started ++ [IndexSync; Checkpoint ckptMap]
   | None => err = None ∧ events' = started ++ [IndexSync]
   end).
Proof.
  unfold replicate_sources. cbn zeta.
  destruct (existsb panics _) eqn:Hpanics; [discriminate |].
  destruct (existsb hangs _) eqn:Hhangs; [discriminate |].
  destruct (last _) as [replError|] eqn:Hlast.
  { intros [= <- <-]. left. split; [discriminate | left; reflexivity]. }
  pose proof (syncers_nil env done Hpanics Hhangs Hlast) as Hcopied.
  destruct (StartIndexSync env) as [e|] eqn:Hindex.
  { intros [= <- <-]. left. split; [discriminate | right; reflexivity]. }
  destruct ckptMap as [m|]; intros [= <- <-]; right; repeat split; assumption.
Qed.

(** The events before the loop over the sources can be any of these. *)
Definition is_checkpoint (ev : Event) : Prop :=
  match ev with Checkpoint _ => True | _ => False end.

Lemma prepare_destination_returns env done ckptMap events err events' :
  prepare_destination Transform collectionSync env done ckptMap events
    = Returned err events' →
  (err ≠ None ∧ ∃ more, events' = events ++ more ∧ Forall (λ ev, ¬ is_checkpoint ev) more) ∨
  (Forall copied done ∧ StartIndexSync env = None ∧ StartDropDestCollection env = None ∧
   ∃ before,
     Forall (λ ev, ¬ is_checkpoint ev) before ∧
     match ckptMap with
     | Some ckptMap =>
         err = CheckpointUpdate env ckptMap ∧
         events' = events ++ before ++ (DBSyncerStart ∘ URL <$> done)
                     ++ [IndexSync; Checkpoint ckptMap]
     | None =>
         err = None ∧
         events' = events ++ before ++ (DBSyncerStart ∘ URL <$> done) ++ [IndexSync]
     end).
Proof.
  assert (∀ done', Forall (λ ev, ¬ is_checkpoint ev) (DBSyncerStart ∘ URL <$> done'))
    as Hstarts.
  { intros done'. induction done' as [|src done' IH]; constructor; [intros [] | exact IH]. }
  assert (∀ before events0,
            replicate_sources Transform collectionSync env done ckptMap (events ++ before)
              = Returned err events0 →
            Forall (λ ev, ¬ is_checkpoint ev) before →
            StartDropDestCollection env = None →
            (err ≠ None ∧ ∃ more, events0 = events ++ more ∧
                                  Forall (λ ev, ¬ is_checkpoint ev) more) ∨
            (Forall copied done ∧ StartIndexSync env = None ∧
             StartDropDestCollection env = None ∧
             ∃ before,
               Forall (λ ev, ¬ is_checkpoint ev) before ∧
               match ckptMap with
               | Some ckptMap =>
                   err = CheckpointUpdate env ckptMap ∧
                   events0 = events ++ before ++ (DBSyncerStart ∘ URL <$> done)
                               ++ [IndexSync; Checkpoint ckptMap]
               | None =>
                   err = None ∧
                   events0 = events ++ before ++ (DBSyncerStart ∘ URL <$> done)
                               ++ [IndexSync]
               end)) as Hrest.
  { intros before events0 Hrun Hbefore Hdrop.
    apply replicate_sources_returns in Hrun. cbn zeta in Hrun.
    destruct Hrun as [[Herr Hevents]|(Hcopied & Hindex & Hend)].
    - left. split; [exact Herr |].
      destruct Hevents as [->| ->]; rewrite <- ?app_assoc; eexists; (split; [reflexivity |]).
      + apply Forall_app. split; [exact Hbefore | apply Hstarts].
      + apply Forall_app. split; [exact Hbefore |].
        apply Forall_app. split; [apply Hstarts |]. apply Forall_singleton. intros [].
    - right. repeat split; [exact Hcopied | exact Hindex | exact Hdrop |].
      exists before. split; [exact Hbefore |].
      destruct ckptMap as [m|]; destruct Hend as [-> ->]; rewrite <- !app_assoc;
        split; reflexivity. }
  unfold prepare_destination. cbn zeta.
  destruct (TunnelAddress env) as [|toUrl urls]; [discriminate |].
  destruct (NewMongoConn env) as [e|].
  { intros [= <- <-]. left. split; [discriminate |].
    exists []. rewrite app_nil_r. split; [reflexivity | constructor]. }
  destruct (StartDropDestCollection env) as [e|] eqn:Hdrop.
  { intros [= <- <-]. left. split; [discriminate |].
    eexists. split; [reflexivity |]. apply Forall_singleton. intros []. }
  destruct (IsShardingToSharding _ _).
  - destruct (StartNamespaceSpecSyncForSharding env) as [e|].
    { intros [= <- <-]. left. split; [discriminate |]. rewrite <- app_assoc.
      eexists. split; [reflexivity |]. repeat constructor; intros []. }
    rewrite <- app_assoc. intros Hrun. apply Hrest in Hrun; [exact Hrun | | reflexivity].
    repeat constructor; intros [].
  - intros Hrun. apply Hrest in Hrun; [exact Hrun | | reflexivity].
    apply Forall_singleton. intros [].
Qed.

Lemma not_checkpoint_elem events ckptMap :
  Forall (λ ev, ¬ is_checkpoint ev) events → Checkpoint ckptMap ∉ events.
Proof.
  intros Hall Hin. rewrite Forall_forall in Hall. apply (Hall _ Hin). exact I.
Qed.

(** X18. [startDocumentReplication] returns without error only when the
    syncer of every source has copied every collection without error and
    the index sync has succeeded; in a sync mode other than [document]
    the checkpoint written is then the map of timestamps read before the
    destination was touched, and writing it is the last thing done. *)
Theorem startDocumentReplication_nil_after_full_copy env done events :
  startDocumentReplication Transform collectionSync env done = Returned None events →
  (∀ src, src ∈ done →
     (∃ nsList, getDbNamespace src = inr nsList) ∧
     ∀ n, n ∈ finished src → collectionSync n (Transform n) = None) ∧
  StartIndexSync env = None ∧
  (SyncMode env ≠ Coordinator.SYNCMODE_DOCUMENT →
   ∃ ckptMap before,
     GetAllTimestamp env = inr ckptMap ∧ CheckpointUpdate env ckptMap = None ∧
     (Checkpoint ckptMap ∉ before) ∧
     events = ReadTimestamps :: before ++ [Checkpoint ckptMap]).
Proof.
  unfold startDocumentReplication.
  destruct (GetAllNamespace env); [discriminate |].
  destruct (String.eqb_spec (SyncMode env) Coordinator.SYNCMODE_DOCUMENT) as [Hmode|Hmode];
    cbn [negb].
  - intros Hrun. apply prepare_destination_returns in Hrun
      as [[Herr _]|(Hcopied & Hindex & _ & _)]; [congruence |].
    rewrite Forall_forall in Hcopied.
    split; [exact Hcopied |]. split; [exact Hindex | contradiction].
  - destruct (GetAllTimestamp env) as [e|ckptMap]; [discriminate |].
    intros Hrun. apply prepare_destination_returns in Hrun
      as [[Herr _]|(Hcopied & Hindex & _ & before & Hbefore & Hckpt & ->)];
      [congruence |].
    rewrite Forall_forall in Hcopied.
    split; [exact Hcopied |]. split; [exact Hindex |]. intros _.
    exists ckptMap, (before ++ (DBSyncerStart ∘ URL <$> done) ++ [IndexSync]).
    split; [reflexivity |]. split; [symmetry; exact Hckpt |]. split.
    + apply not_checkpoint_elem. apply Forall_app. split; [exact Hbefore |].
      apply Forall_app. split; [| apply Forall_singleton; intros []].
      clear. induction done as [|src done IH]; constructor; [intros [] | exact IH].
    + cbn [app]. rewrite <- !app_assoc. reflexivity.
Qed.

(** X19. Whatever [startDocumentReplication] returns, it has written a
    checkpoint only in a sync mode other than [document], only the map of
    timestamps it read at its start, and only after the destination was
    prepared, the syncer of every source had returned with every
    collection copied without error, and the index sync had succeeded; it
    then returns what writing the checkpoint returned. *)
Theorem startDocumentReplication_checkpoints_only_after_copy env done err events ckptMap :
  startDocumentReplication Transform collectionSync env done = Returned err events →
  Checkpoint ckptMap ∈ events →
  SyncMode env ≠ Coordinator.SYNCMODE_DOCUMENT ∧
  GetAllTimestamp env = inr ckptMap ∧
  StartDropDestCollection env = None ∧
  (∀ src, src ∈ done →
     DBSyncerStart (URL src) ∈ events ∧
     ∀ n, n ∈ finished src → collectionSync n (Transform n) = None) ∧
  StartIndexSync env = None ∧
  err = CheckpointUpdate env ckptMap.
Proof.
  unfold startDocumentReplication.
  destruct (GetAllNamespace env); [intros [= <- <-] Hin; inversion Hin |].
  destruct (String.eqb_spec (SyncMode env) Coordinator.SYNCMODE_DOCUMENT) as [Hmode|Hmode];
    cbn [negb].
  - intros Hrun Hin. exfalso. apply prepare_destination_returns in Hrun
      as [(_ & more & -> & Hmore)|(_ & _ & _ & before & Hbefore & _ & ->)];
      revert Hin; apply not_checkpoint_elem; cbn [app]; [exact Hmore |].
    apply Forall_app. split; [exact Hbefore |].
    apply Forall_app. split; [| apply Forall_singleton; intros []].
    clear. induction done as [|src done IH]; constructor; [intros [] | exact IH].
  - destruct (GetAllTimestamp env) as [e|m].
    { intros [= <- <-] Hin. apply list_elem_of_singleton in Hin. discriminate. }
    intros Hrun Hin. apply prepare_destination_returns in Hrun
      as [(_ & more & -> & Hmore)|(Hcopied & Hindex & Hdrop & before & Hbefore & -> & ->)].
    { exfalso. revert Hin. apply not_checkpoint_elem. cbn [app].
      constructor; [intros [] | exact Hmore]. }
    assert (ckptMap = m) as ->.
    { rewrite !elem_of_app, !elem_of_cons in Hin.
      destruct Hin as [[Hin|Hin]|[Hin|[Hin|[Hin|[Hin|Hin]]]]].
      - discriminate.
      - inversion Hin.
      - exfalso. revert Hin. apply not_checkpoint_elem. exact Hbefore.
      - exfalso. revert Hin. apply not_checkpoint_elem.
        clear. induction done as [|src done IH]; constructor; [intros [] | exact IH].
      - discriminate.
      - injection Hin as ->. reflexivity.
      - inversion Hin. }
    split; [exact Hmode |]. split; [reflexivity |]. split; [exact Hdrop |].
    split; [| split; [exact Hindex | reflexivity]].
    intros src Hsrc. rewrite Forall_forall in Hcopied. split.
    + rewrite !elem_of_app. right. right. left.
      apply (list_elem_of_fmap_2 (DBSyncerStart ∘ URL)) in Hsrc. exact Hsrc.
    + apply (Hcopied src Hsrc).
Qed.

End Replication.

Lemma startDocumentReplication_nil_after_full_copy_witness :
  (∀ src, src ∈ [MoreExamples.source_ab] →
     (∃ nsList, getDbNamespace src = inr nsList) ∧
     ∀ n, n ∈ finished src → MoreExamples.all_copied n (id n) = None) ∧
  StartIndexSync MoreExamples.full_copy_env = None ∧
  (SyncMode MoreExamples.full_copy_env ≠ Coordinator.SYNCMODE_DOCUMENT →
   ∃ ckptMap before,
     GetAllTimestamp MoreExamples.full_copy_env = inr ckptMap ∧
     CheckpointUpdate MoreExamples.full_copy_env ckptMap = None ∧
     (Checkpoint ckptMap ∉ before) ∧
     MoreExamples.full_copy_events = ReadTimestamps :: before ++ [Checkpoint ckptMap]).
Proof.
  apply (startDocumentReplication_nil_after_full_copy id MoreExamples.all_copied
           MoreExamples.full_copy_env [MoreExamples.source_ab]
           MoreExamples.full_copy_events).
  reflexivity.
Defined.

Lemma startDocumentReplication_checkpoints_only_after_copy_witness :
  SyncMode MoreExamples.full_copy_env ≠ Coordinator.SYNCMODE_DOCUMENT ∧
  GetAllTimestamp MoreExamples.full_copy_env = inr MoreExamples.read_before_copy ∧
  StartDropDestCollection MoreExamples.full_copy_env = None ∧
  (∀ src, src ∈ [MoreExamples.source_ab] →
     DBSyncerStart (URL src) ∈ MoreExamples.full_copy_events ∧
     ∀ n, n ∈ finished src → MoreExamples.all_copied n (id n) = None) ∧
  StartIndexSync MoreExamples.full_copy_env = None ∧
  None = CheckpointUpdate MoreExamples.full_copy_env MoreExamples.read_before_copy.
Proof.
  apply (startDocumentReplication_checkpoints_only_after_copy id MoreExamples.all_copied
           MoreExamples.full_copy_env [MoreExamples.source_ab] None
           MoreExamples.full_copy_events MoreExamples.read_before_copy).
  - reflexivity.
  - unfold MoreExamples.full_copy_events. rewrite !elem_of_cons. auto 10.
Defined.

End DocumentReplicationFacts.
